(** * react-native-video-transformer: transform calculator and pipelines

    A shallow embedding of the geometry code of the iOS composition path
    ([ios/VideoTransformer.swift]), of the Android decode/render/encode
    path ([VideoTransformerModule.kt]) and of the JavaScript entry points
    ([index.js]), with the properties of the specification proved about
    them.

    Conventions of the embedding.
    - Swift [CGFloat]/[Double] values are real numbers ([R]): rounding,
      NaN and the infinities (so also what a division by zero gives) are
      outside the model.
    - Kotlin [Int] is [Z] with the 32-bit wrap-around written out; Kotlin
      [Double] and [Float] values are rationals ([Q]), [toInt] truncates
      toward zero and saturates.
    - Swift [Int] angles are [Z] (they are only compared).
    - What the platform answers (file system, AVFoundation, MediaCodec,
      the conversion of a string to a number) is an explicit argument of
      each operation, the [Host]; the codecs answer the polling loop of the
      Android path through a list of [Tick]s, one per turn, so that a
      property proved for every list holds however the codecs behave.
    - [CGAffineTransform], [MediaExtractor] and [MediaMuxer] are modelled
      by their documented behaviour: 3x3 affine matrices on row vectors; an
      extractor that reads the samples of the selected tracks in file
      order; a muxer that takes tracks before [start] and samples after it
      and throws otherwise.
    - A native method is run to the point where its promise is settled, and
      returns the calls it made together with the settled promise.
    - The texture renderer ([TextureRenderer.kt]) is run against the answers
      of OpenGL, and returns the calls that create or delete an object,
      each creating call with the name it was given. *)

From Stdlib Require Import ZArith QArith Qround Qreals Reals Lra Lia Psatz.
From Stdlib Require Import List String Ascii Bool.
Import ListNotations.

Set Implicit Arguments.

(* ===================================================================== *)
(** * CoreGraphics values *)
(* ===================================================================== *)

Module CG.
Local Open Scope R_scope.

Record CGSize := mkSize { width : R; height : R }.

Record CGRect := mkRect { x : R; y : R; rwidth : R; rheight : R }.

(** The matrix [a b 0; c d 0; tx ty 1], acting on row vectors. *)
Record CGAffineTransform :=
  mkT { a : R; b : R; c : R; d : R; tx : R; ty : R }.

Definition identity : CGAffineTransform := mkT 1 0 0 1 0 0.

(** [CGAffineTransform(translationX:y:)] *)
Definition translation (x0 y0 : R) : CGAffineTransform := mkT 1 0 0 1 x0 y0.

(** [CGAffineTransform(rotationAngle:)] *)
Definition rotation (angle : R) : CGAffineTransform :=
  mkT (cos angle) (sin angle) (- sin angle) (cos angle) 0 0.

(** [CGAffineTransform(scaleX:y:)] *)
Definition scale (sx sy : R) : CGAffineTransform := mkT sx 0 0 sy 0 0.

(** [t1.concatenating(t2)]: the matrix product [t1 * t2]. *)
Definition concatenating (t1 t2 : CGAffineTransform) : CGAffineTransform :=
  mkT (a t1 * a t2 + b t1 * c t2)
      (a t1 * b t2 + b t1 * d t2)
      (c t1 * a t2 + d t1 * c t2)
      (c t1 * b t2 + d t1 * d t2)
      (tx t1 * a t2 + ty t1 * c t2 + tx t2)
      (tx t1 * b t2 + ty t1 * d t2 + ty t2).

(** [t.rotated(by:)], [t.translatedBy(x:y:)], [t.scaledBy(x:y:)]: the new
    operation is multiplied on the left of [t]. *)
Definition rotated (t : CGAffineTransform) (angle : R) : CGAffineTransform :=
  concatenating (rotation angle) t.

Definition translatedBy (t : CGAffineTransform) (x0 y0 : R) : CGAffineTransform :=
  concatenating (translation x0 y0) t.

Definition scaledBy (t : CGAffineTransform) (sx sy : R) : CGAffineTransform :=
  concatenating (scale sx sy) t.

(** [point.applying(t)] *)
Definition applying (p : R * R) (t : CGAffineTransform) : R * R :=
  (a t * fst p + c t * snd p + tx t, b t * fst p + d t * snd p + ty t).

(** [atan2(y, x)], from the arc tangent, quadrant by quadrant. *)
Definition atan2 (y0 x0 : R) : R :=
  if Rlt_dec 0 x0 then atan (y0 / x0)
  else if Rlt_dec x0 0 then
         (if Rle_dec 0 y0 then atan (y0 / x0) + PI else atan (y0 / x0) - PI)
  else if Rlt_dec 0 y0 then PI / 2
  else if Rlt_dec y0 0 then - PI / 2
  else 0.

Definition Rltb (u v : R) : bool := if Rlt_dec u v then true else false.
End CG.

(* ===================================================================== *)
(** * Strings: case folding, splitting, decimal numerals *)
(* ===================================================================== *)

Module Text.
Local Open Scope string_scope.

(** ASCII case folding, the part of [lowercased()] / [lowercase()] that the
    position names can observe. *)
Definition lowerAscii (ch : ascii) : ascii :=
  let n := nat_of_ascii ch in
  if (65 <=? n)%nat && (n <=? 90)%nat then ascii_of_nat (n + 32) else ch.

Fixpoint lowercased (s : string) : string :=
  match s with
  | EmptyString => EmptyString
  | String ch rest => String (lowerAscii ch) (lowercased rest)
  end.

(** Kotlin's [split(":")]: every separator cuts, empty parts are kept. *)
Fixpoint splitKeep (sep : ascii) (s : string) : list string :=
  match s with
  | EmptyString => [EmptyString]
  | String ch rest =>
      if Ascii.eqb ch sep then EmptyString :: splitKeep sep rest
      else match splitKeep sep rest with
           | [] => [String ch EmptyString]
           | part :: parts => String ch part :: parts
           end
  end.

Definition nonEmpty (s : string) : bool :=
  match s with EmptyString => false | _ => true end.

(** Swift's [split(separator:)]: empty subsequences are omitted. *)
Definition splitOmit (sep : ascii) (s : string) : list string :=
  filter nonEmpty (splitKeep sep s).

Definition digitOf (ch : ascii) : option Z :=
  let n := nat_of_ascii ch in
  if (48 <=? n)%nat && (n <=? 57)%nat then Some (Z.of_nat (n - 48)) else None.

(** Reads a run of decimal digits: the value read so far, how many digits,
    and the rest of the string. *)
Fixpoint readDigits (s : string) (acc : Z) (count : nat) : Z * nat * string :=
  match s with
  | EmptyString => (acc, count, s)
  | String ch rest =>
      match digitOf ch with
      | Some dgt => readDigits rest (10 * acc + dgt)%Z (S count)
      | None => (acc, count, s)
      end
  end.

Definition unsignedDecimal (s : string) : option Q :=
  let '(whole, nw, rest) := readDigits s 0%Z 0%nat in
  match rest with
  | EmptyString => if (0 <? nw)%nat then Some (inject_Z whole) else None
  | String "." frac =>
      let '(part, nf, rest') := readDigits frac 0%Z 0%nat in
      match rest' with
      | EmptyString =>
          if (0 <? nw + nf)%nat
          then Some (Qmake (whole * 10 ^ Z.of_nat nf + part)
                           (Z.to_pos (10 ^ Z.of_nat nf)))
          else None
      | _ => None
      end
  | _ => None
  end.

(** Plain signed decimal numerals ("16", "-1.5", "+.25"). Swift's
    [Double(_:)] and Kotlin's [toDoubleOrNull()] agree with it on these;
    they accept more (exponents, "nan", "inf", ...), which this reader
    refuses. It only serves to run the operations on concrete strings. *)
Definition decimal (s : string) : option Q :=
  match s with
  | String "-" rest => option_map Qopp (unsignedDecimal rest)
  | String "+" rest => unsignedDecimal rest
  | _ => unsignedDecimal s
  end.
End Text.

(* ===================================================================== *)
(** * Operations that log what they do and may settle their promise early *)
(* ===================================================================== *)

Module Flow.

(** The promise handed to a native method, once settled. [Pending] is a
    promise that nothing has settled. *)
Inductive Promise :=
| Resolved (path : string)
| Rejected (code : string)
| Pending.

Section Flow.
Variable Event : Type.

(** A step emits events and either returns early with the settled promise
    ([reject] followed by [return]) or goes on with a value. *)
Definition flow (A : Type) : Type := (list Event * (Promise + A))%type.

Definition ret {A} (v : A) : flow A := ([], inr v).

Definition bind {A B} (m : flow A) (k : A -> flow B) : flow B :=
  match m with
  | (log, inl p) => (log, inl p)
  | (log, inr v) => let '(log', r) := k v in (log ++ log', r)
  end.

Definition emit (e : Event) : flow unit := ([e], inr tt).

Definition settle {A} (p : Promise) : flow A := ([], inl p).

(** [guard let v = o else { rejecter(code); return }] *)
Definition orReject {A} (o : option A) (code : string) : flow A :=
  match o with
  | Some v => ret v
  | None => settle (Rejected code)
  end.

Definition require (ok : bool) (code : string) : flow unit :=
  if ok then ret tt else settle (Rejected code).

Definition run (m : flow Promise) : list Event * Promise :=
  match m with
  | (log, inl p) => (log, p)
  | (log, inr p) => (log, p)
  end.
End Flow.

Arguments ret {Event A} v.
Arguments bind {Event A B} m k.
Arguments emit {Event} e.
Arguments settle {Event A} p.
Arguments orReject {Event A} o code.
Arguments require {Event} ok code.
Arguments run {Event} m.

Module Notations.
Declare Scope flow_scope.
Delimit Scope flow_scope with flow.
Notation "x <- m ;; k" := (bind m (fun x => k))
  (at level 61, m at next level, right associativity) : flow_scope.
Notation "m ;;; k" := (bind m (fun _ => k))
  (at level 61, right associativity) : flow_scope.
End Notations.
End Flow.
(* ===================================================================== *)
(** * iOS: the composition path (ios/VideoTransformer.swift) *)
(* ===================================================================== *)

Module IOS.
Import CG Flow Flow.Notations.
Local Open Scope R_scope.
Local Open Scope string_scope.
Local Open Scope flow_scope.

Inductive MediaType := video | audio.

Record AVAssetTrack :=
  mkTrack { naturalSize : CGSize; preferredTransform : CGAffineTransform }.

Record AVAsset :=
  mkAsset { videoTracks : list AVAssetTrack; audioTracks : list AVAssetTrack }.

Inductive ExportStatus := completed | failed | cancelled | unknownStatus.

(** What the export session is given: the transform and the crop rectangle
    of the single layer instruction, and the render size. *)
Record VideoComposition :=
  mkComposition {
    layerTransform : CGAffineTransform;
    cropRectangle : option CGRect;
    renderSize : CGSize;
    frameDuration : Z * Z
  }.

Inductive Event :=
| OpenAsset (url : string)
| ReadTracks (m : MediaType)
| AddMutableTrack (m : MediaType)
| InsertTimeRange (m : MediaType)
| Export (vc : VideoComposition) (outputPath : string).

(** The answers of Foundation and AVFoundation that the methods branch on. *)
Record Host :=
  mkHost {
    URL : string -> option string;
    AVAsset_url : string -> AVAsset;
    Double : string -> option R;
    addMutableTrack : MediaType -> bool;
    insertTimeRange : MediaType -> bool;
    exportSession : bool;
    exportStatus : ExportStatus;
    UUID : string;
    temporaryDirectory : string
  }.

(** ** The steps shared by the three methods *)

Definition fileURL (inputPath : string) : string :=
  if String.prefix "file://" inputPath then inputPath
  else "file://" ++ inputPath.

Definition openVideoTrack (h : Host) (inputPath : string)
  : flow Event (AVAsset * AVAssetTrack) :=
  inputURL <- orReject (URL h (fileURL inputPath)) "INVALID_PATH" ;;
  emit (OpenAsset inputURL) ;;;
  let asset := AVAsset_url h inputURL in
  emit (ReadTracks video) ;;;
  videoTrack <- orReject (hd_error (videoTracks asset)) "NO_VIDEO_TRACK" ;;
  ret (asset, videoTrack).

Definition createComposition (h : Host) (asset : AVAsset) : flow Event unit :=
  emit (AddMutableTrack video) ;;;
  require (addMutableTrack h video) "COMPOSITION_ERROR" ;;;
  emit (InsertTimeRange video) ;;;
  require (insertTimeRange h video) "INSERT_ERROR" ;;;
  emit (ReadTracks audio) ;;;
  match hd_error (audioTracks asset) with
  | Some _ =>
      emit (AddMutableTrack audio) ;;;
      if addMutableTrack h audio then emit (InsertTimeRange audio) else ret tt
  | None => ret tt
  end.

Definition export (h : Host) (vc : VideoComposition) : flow Event Promise :=
  let outputFileName := "transformed_" ++ UUID h ++ ".mp4" in
  let outputPath := temporaryDirectory h ++ "/" ++ outputFileName in
  require (exportSession h) "EXPORT_ERROR" ;;;
  emit (Export vc outputPath) ;;;
  ret (match exportStatus h with
       | completed => Resolved outputPath
       | failed => Rejected "EXPORT_FAILED"
       | cancelled => Rejected "EXPORT_CANCELLED"
       | unknownStatus => Rejected "EXPORT_ERROR"
       end).

(** The tail common to the three methods: build the composition, then
    export it with the video composition [vc]. *)
Definition composeAndExport (h : Host) (asset : AVAsset) (vc : VideoComposition)
  : flow Event Promise :=
  createComposition h asset ;;;
  export h vc.

(** [aspectRatio.split(separator: ":")] followed by the [guard] on the count
    and on the two [Double(_:)] conversions. *)
Definition parseAspectRatio (h : Host) (aspectRatio : string) : option (R * R) :=
  match Text.splitOmit ":" aspectRatio with
  | [c0; c1] =>
      match Double h c0, Double h c1 with
      | Some widthRatio, Some heightRatio => Some (widthRatio, heightRatio)
      | _, _ => None
      end
  | _ => None
  end.

(** ** rotateVideo *)

(** The lines "Create transform based on rotation angle": the pair
    [(transform, renderSize)] from the angle and the natural size. *)
Definition rotateVideo_transform (angle : Z) (videoWidth videoHeight : R)
  : CGAffineTransform * CGSize :=
  if (angle =? 90)%Z then
    let transform := translation videoHeight 0 in
    let transform := rotated transform (PI / 2) in
    (transform, mkSize videoHeight videoWidth)
  else if ((angle =? -90) || (angle =? 270))%Z then
    let transform := translation 0 videoWidth in
    let transform := rotated transform (- PI / 2) in
    (transform, mkSize videoHeight videoWidth)
  else if (angle =? 180)%Z then
    let transform := translation videoWidth videoHeight in
    let transform := rotated transform PI in
    (transform, mkSize videoWidth videoHeight)
  else
    (identity, mkSize videoWidth videoHeight).

Definition rotateVideo_composition (videoTrack : AVAssetTrack) (angle : Z)
  : VideoComposition :=
  let naturalSize := naturalSize videoTrack in
  let videoWidth := width naturalSize in
  let videoHeight := height naturalSize in
  let '(transform, renderSize) :=
    rotateVideo_transform angle videoWidth videoHeight in
  mkComposition transform None renderSize (1, 30)%Z.

Definition rotateVideo (h : Host) (inputPath : string) (angle : Z)
  : list Event * Promise :=
  run (
    opened <- openVideoTrack h inputPath ;;
    let '(asset, videoTrack) := opened in
    composeAndExport h asset (rotateVideo_composition videoTrack angle)).

(** ** The crop geometry of cropVideo and cropAndRotateVideo *)

(** "Check if video is rotated 90 or 270 degrees" *)
Definition isRotated (originalTransform : CGAffineTransform) : bool :=
  let angle := atan2 (b originalTransform) (a originalTransform) in
  Rltb (Rabs (angle - PI / 2)) (1 / 100)
  || Rltb (Rabs (angle + PI / 2)) (1 / 100).

(** "Calculate display dimensions (after transform is applied)" *)
Definition displayDimensions (naturalSize : CGSize) (rot : bool) : R * R :=
  let displayWidth := width naturalSize in
  let displayHeight := height naturalSize in
  if rot then (displayHeight, displayWidth) else (displayWidth, displayHeight).

(** "Calculate crop dimensions in display space" *)
Definition cropDisplayDimensions (targetAspectRatio displayWidth displayHeight : R)
  : R * R :=
  let displayAspectRatio := displayWidth / displayHeight in
  if Rgt_dec targetAspectRatio displayAspectRatio
  then (displayWidth, displayWidth / targetAspectRatio)
  else (displayHeight * targetAspectRatio, displayHeight).

(** "Convert crop dimensions back to natural coordinate space" *)
Definition cropNaturalDimensions (rot : bool) (cropDisplayWidth cropDisplayHeight : R)
  : R * R :=
  if rot then (cropDisplayHeight, cropDisplayWidth)
  else (cropDisplayWidth, cropDisplayHeight).

(** The [switch position.lowercased()] of cropVideo: nine named anchors. *)
Definition cropVideo_origin (position : string) (naturalSize : CGSize)
    (cropWidth cropHeight : R) : R * R :=
  let p := Text.lowercased position in
  let w := width naturalSize in
  let h := height naturalSize in
  if String.eqb p "center" then ((w - cropWidth) / 2, (h - cropHeight) / 2)
  else if String.eqb p "top" then ((w - cropWidth) / 2, 0)
  else if String.eqb p "bottom" then ((w - cropWidth) / 2, h - cropHeight)
  else if String.eqb p "left" then (0, (h - cropHeight) / 2)
  else if String.eqb p "right" then (w - cropWidth, (h - cropHeight) / 2)
  else if String.eqb p "top-left" then (0, 0)
  else if String.eqb p "top-right" then (w - cropWidth, 0)
  else if String.eqb p "bottom-left" then (0, h - cropHeight)
  else if String.eqb p "bottom-right" then (w - cropWidth, h - cropHeight)
  else ((w - cropWidth) / 2, (h - cropHeight) / 2).

(** The [switch position.lowercased()] of cropAndRotateVideo: three named
    anchors and the default. *)
Definition cropAndRotateVideo_origin (position : string) (naturalSize : CGSize)
    (cropWidth cropHeight : R) : R * R :=
  let p := Text.lowercased position in
  let w := width naturalSize in
  let h := height naturalSize in
  if String.eqb p "center" then ((w - cropWidth) / 2, (h - cropHeight) / 2)
  else if String.eqb p "top" then ((w - cropWidth) / 2, 0)
  else if String.eqb p "bottom" then ((w - cropWidth) / 2, h - cropHeight)
  else ((w - cropWidth) / 2, (h - cropHeight) / 2).

(** The crop as both methods derive it, up to the choice of the anchor
    switch: the crop rectangle (natural coordinates) and the crop size in
    display space. *)
Definition cropGeometry (origin : string -> CGSize -> R -> R -> R * R)
    (videoTrack : AVAssetTrack) (targetAspectRatio : R) (position : string)
  : CGRect * CGSize :=
  let naturalSize := naturalSize videoTrack in
  let originalTransform := preferredTransform videoTrack in
  let rot := isRotated originalTransform in
  let '(displayWidth, displayHeight) := displayDimensions naturalSize rot in
  let '(cropDisplayWidth, cropDisplayHeight) :=
    cropDisplayDimensions targetAspectRatio displayWidth displayHeight in
  let '(cropWidth, cropHeight) :=
    cropNaturalDimensions rot cropDisplayWidth cropDisplayHeight in
  let '(cropX, cropY) := origin position naturalSize cropWidth cropHeight in
  (mkRect cropX cropY cropWidth cropHeight,
   mkSize cropDisplayWidth cropDisplayHeight).

(** ** cropVideo *)

Definition cropVideo_geometry := cropGeometry cropVideo_origin.

Definition cropVideo_composition (videoTrack : AVAssetTrack)
    (targetAspectRatio : R) (position : string) : VideoComposition :=
  let originalTransform := preferredTransform videoTrack in
  let '(cropRect, renderSize) :=
    cropVideo_geometry videoTrack targetAspectRatio position in
  let scaleX := width renderSize / rwidth cropRect in
  let scaleY := height renderSize / rheight cropRect in
  let cropTransform := identity in
  let cropTransform := translatedBy cropTransform (- x cropRect) (- y cropRect) in
  let cropTransform := scaledBy cropTransform scaleX scaleY in
  let finalTransform := concatenating originalTransform cropTransform in
  mkComposition finalTransform None renderSize (1, 30)%Z.

Definition cropVideo (h : Host) (inputPath aspectRatio position : string)
  : list Event * Promise :=
  run (
    opened <- openVideoTrack h inputPath ;;
    let '(asset, videoTrack) := opened in
    ratio <- orReject (parseAspectRatio h aspectRatio) "INVALID_ASPECT_RATIO" ;;
    let '(widthRatio, heightRatio) := ratio in
    let targetAspectRatio := widthRatio / heightRatio in
    composeAndExport h asset
      (cropVideo_composition videoTrack targetAspectRatio position)).

(** ** cropAndRotateVideo *)

Definition cropAndRotateVideo_geometry := cropGeometry cropAndRotateVideo_origin.

(** "Now apply rotation transform": the rotation of the cropped frame. *)
Definition cropAndRotateVideo_rotation (angle : Z)
    (cropDisplayWidth cropDisplayHeight : R) : CGAffineTransform * CGSize :=
  if (angle =? 90)%Z then
    let rotationTransform := translation cropDisplayHeight 0 in
    let rotationTransform := rotated rotationTransform (PI / 2) in
    (rotationTransform, mkSize cropDisplayHeight cropDisplayWidth)
  else if ((angle =? -90) || (angle =? 270))%Z then
    let rotationTransform := translation 0 cropDisplayWidth in
    let rotationTransform := rotated rotationTransform (- PI / 2) in
    (rotationTransform, mkSize cropDisplayHeight cropDisplayWidth)
  else if (angle =? 180)%Z then
    let rotationTransform := translation cropDisplayWidth cropDisplayHeight in
    let rotationTransform := rotated rotationTransform PI in
    (rotationTransform, mkSize cropDisplayWidth cropDisplayHeight)
  else
    (identity, mkSize cropDisplayWidth cropDisplayHeight).

Definition cropAndRotateVideo_composition (videoTrack : AVAssetTrack)
    (targetAspectRatio : R) (position : string) (angle : Z) : VideoComposition :=
  let transform := preferredTransform videoTrack in
  let '(cropRect, cropDisplay) :=
    cropAndRotateVideo_geometry videoTrack targetAspectRatio position in
  let '(rotationTransform, finalRenderSize) :=
    cropAndRotateVideo_rotation angle (width cropDisplay) (height cropDisplay) in
  let combinedTransform := concatenating transform rotationTransform in
  mkComposition combinedTransform (Some cropRect) finalRenderSize (1, 30)%Z.

Definition cropAndRotateVideo (h : Host)
    (inputPath aspectRatio position : string) (angle : Z)
  : list Event * Promise :=
  run (
    opened <- openVideoTrack h inputPath ;;
    let '(asset, videoTrack) := opened in
    ratio <- orReject (parseAspectRatio h aspectRatio) "INVALID_ASPECT_RATIO" ;;
    let '(widthRatio, heightRatio) := ratio in
    let targetAspectRatio := widthRatio / heightRatio in
    composeAndExport h asset
      (cropAndRotateVideo_composition videoTrack targetAspectRatio
         position angle)).
End IOS.
(* ===================================================================== *)
(** * Android: the decode/render/encode path (VideoTransformerModule.kt) *)
(* ===================================================================== *)

Module Android.
Import Flow.
Local Open Scope string_scope.
Local Open Scope list_scope.
Local Open Scope Z_scope.

(** ** Kotlin [Int], [Long] and [Double] *)

Definition wrap32 (z : Z) : Z := (z + 2 ^ 31) mod 2 ^ 32 - 2 ^ 31.
Definition wrap64 (z : Z) : Z := (z + 2 ^ 63) mod 2 ^ 64 - 2 ^ 63.

Definition minus (u v : Z) : Z := wrap32 (u - v).
Definition plus (u v : Z) : Z := wrap32 (u + v).
Definition div (u v : Z) : Z := wrap32 (Z.quot u v).

Definition toDouble (z : Z) : Q := inject_Z z.

(** [Double.toInt()]: toward zero, saturating at the ends of [Int]. *)
Definition toInt (q : Q) : Z :=
  Z.max (- 2 ^ 31) (Z.min (2 ^ 31 - 1) (Z.quot (Qnum q) (Zpos (Qden q)))).

Definition gt (p q : Q) : bool := negb (Qle_bool p q).

(** ** calculateCropRect *)

Record CropRect := mkCropRect { x : Z; y : Z; width : Z; height : Z }.

Definition calculateCropRect (videoWidth videoHeight : Z)
    (targetAspectRatio : Q) (position : string) : CropRect :=
  let videoAspectRatio := (toDouble videoWidth / toDouble videoHeight)%Q in
  let '(cropWidth, cropHeight) :=
    if gt targetAspectRatio videoAspectRatio
    then (videoWidth, toInt (toDouble videoWidth / targetAspectRatio)%Q)
    else (toInt (toDouble videoHeight * targetAspectRatio)%Q, videoHeight) in
  let p := Text.lowercased position in
  let '(cropX, cropY) :=
    if String.eqb p "center" then
      (div (minus videoWidth cropWidth) 2, div (minus videoHeight cropHeight) 2)
    else if String.eqb p "top" then
      (div (minus videoWidth cropWidth) 2, 0)
    else if String.eqb p "bottom" then
      (div (minus videoWidth cropWidth) 2, minus videoHeight cropHeight)
    else if String.eqb p "left" then
      (0, div (minus videoHeight cropHeight) 2)
    else if String.eqb p "right" then
      (minus videoWidth cropWidth, div (minus videoHeight cropHeight) 2)
    else if String.eqb p "top-left" then
      (0, 0)
    else if String.eqb p "top-right" then
      (minus videoWidth cropWidth, 0)
    else if String.eqb p "bottom-left" then
      (0, minus videoHeight cropHeight)
    else if String.eqb p "bottom-right" then
      (minus videoWidth cropWidth, minus videoHeight cropHeight)
    else
      (div (minus videoWidth cropWidth) 2, div (minus videoHeight cropHeight) 2) in
  mkCropRect cropX cropY cropWidth cropHeight.

(** ** The media framework *)

Record MediaFormat :=
  mkFormat {
    KEY_MIME : option string;
    KEY_WIDTH : Z;
    KEY_HEIGHT : Z;
    KEY_MAX_INPUT_SIZE : option Z
  }.

Record BufferInfo :=
  mkInfo { offset : Z; size : Z; presentationTimeUs : Z; flags : Z }.

Definition BUFFER_FLAG_END_OF_STREAM : Z := 4.
Definition INFO_OUTPUT_FORMAT_CHANGED : Z := -2.

Definition endOfStream (info : BufferInfo) : bool :=
  negb (Z.land (flags info) BUFFER_FLAG_END_OF_STREAM =? 0).

(** One compressed sample of the source container. *)
Record Sample :=
  mkSample { trackIndex : Z; data : list Z; time : Z; sflags : Z }.

(** The container: its track formats, and its samples in file order. *)
Record Source := mkSource { trackFormats : list MediaFormat; samples : list Sample }.

(** [MediaExtractor]: reads move through the samples of the selected tracks
    only. *)
Record MediaExtractor :=
  mkExtractor { source : Source; selected : list Z; remaining : list Sample }.

Definition isSelected (ex : MediaExtractor) (s : Sample) : bool :=
  existsb (Z.eqb (trackIndex s)) (selected ex).

Definition current (ex : MediaExtractor) : option Sample :=
  find (isSelected ex) (remaining ex).

Definition readSampleData (ex : MediaExtractor) : Z :=
  match current ex with
  | Some s => Z.of_nat (List.length (data s))
  | None => -1
  end.

Definition sampleTime (ex : MediaExtractor) : Z :=
  match current ex with Some s => time s | None => -1 end.

Definition sampleFlags (ex : MediaExtractor) : Z :=
  match current ex with Some s => sflags s | None => -1 end.

Definition sampleBytes (ex : MediaExtractor) : list Z :=
  match current ex with Some s => data s | None => [] end.

Fixpoint dropThrough (f : Sample -> bool) (l : list Sample) : list Sample :=
  match l with
  | [] => []
  | s :: rest => if f s then rest else dropThrough f rest
  end.

Definition advance (ex : MediaExtractor) : MediaExtractor :=
  mkExtractor (source ex) (selected ex)
              (dropThrough (isSelected ex) (remaining ex)).

Definition selectTrack (i : Z) (ex : MediaExtractor) : MediaExtractor :=
  mkExtractor (source ex) (i :: selected ex) (remaining ex).

(** [seekTo(0, SEEK_TO_CLOSEST_SYNC)] *)
Definition seekToStart (ex : MediaExtractor) : MediaExtractor :=
  mkExtractor (source ex) (selected ex) (samples (source ex)).

(** [MediaMuxer]: tracks are added before [start], samples are written
    after it; a call in the wrong state throws [IllegalStateException]
    ([None] here). [written] is what reaches the output file. *)
Record MediaMuxer :=
  mkMuxer {
    tracks : list MediaFormat;
    started : bool;
    written : list (Z * BufferInfo * list Z)
  }.

Definition newMuxer : MediaMuxer := mkMuxer [] false [].

Definition addTrack (fmt : MediaFormat) (m : MediaMuxer) : option (Z * MediaMuxer) :=
  if started m then None
  else Some (Z.of_nat (List.length (tracks m)),
             mkMuxer (tracks m ++ [fmt]) false (written m)).

Definition start (m : MediaMuxer) : option (unit * MediaMuxer) :=
  if started m then None else Some (tt, mkMuxer (tracks m) true (written m)).

Definition writeSampleData (track : Z) (payload : list Z) (info : BufferInfo)
    (m : MediaMuxer) : option (unit * MediaMuxer) :=
  if started m && (0 <=? track) && (track <? Z.of_nat (List.length (tracks m)))
  then Some (tt, mkMuxer (tracks m) true (written m ++ [(track, info, payload)]))
  else None.

(** What the two codecs and the render surface answer during one turn of
    the loop of processVideoWithGL. *)
Record Tick :=
  mkTick {
    inputBufferId : Z;
    decoderStatus : Z;
    decoderBufferInfo : BufferInfo;
    newImage : bool;
    encoderStatus : Z;
    encoderBufferInfo : BufferInfo;
    outputBuffer : list Z;
    outputFormat : MediaFormat
  }.

(** The answers of the platform that the methods branch on. *)
Record Host :=
  mkHost {
    fileExists : string -> bool;
    toDoubleOrNull : string -> option Q;
    dataSource : string -> option Source;
    codecSetup : bool;
    codecs : list Tick;
    randomUUID : string;
    cacheDir : string
  }.

Inductive TrackKind := videoTrack | audioTrack.

(** The calls a job makes, in order. Muxer calls are logged when made,
    whether or not the muxer accepts them. *)
Inductive Event :=
| Exists (path : string)
| SetDataSource (path : string)
| ConfigureCodecs (cropRect : option CropRect) (outputWidth outputHeight : Z)
| QueueInputBuffer (sampleSize presentationTime : Z)
| QueueEndOfStream
| DrawFrame (rotationDegrees : Z) (presentationTimeNs : Z)
| SignalEndOfInputStream
| AddTrack (k : TrackKind)
| Start
| WriteSampleData (k : TrackKind) (info : BufferInfo)
| Stop
| Release.

(** ** Jobs: the mutable locals of processVideoWithGL and the call log *)

Record Job :=
  mkJob {
    log : list Event;
    extractor : MediaExtractor;
    muxer : option MediaMuxer;
    videoMuxerTrack : Z;
    audioMuxerTrack : Z;
    muxerStarted : bool;
    decoderDone : bool;
    encoderDone : bool
  }.

Definition newJob : Job :=
  mkJob [] (mkExtractor (mkSource [] []) [] []) None (-1) (-1) false false false.

(** A step changes the job and either goes on with a value or leaves the
    method with the promise settled (or left pending). *)
Definition op (A : Type) : Type := Job -> Job * (Promise + A).

Definition ret {A} (v : A) : op A := fun j => (j, inr v).

Definition bind {A B} (m : op A) (k : A -> op B) : op B :=
  fun j => match m j with
           | (j', inl p) => (j', inl p)
           | (j', inr v) => k v j'
           end.

Definition leave {A} (p : Promise) : op A := fun j => (j, inl p).

Definition gets {A} (f : Job -> A) : op A := fun j => (j, inr (f j)).

Definition modify (f : Job -> Job) : op unit := fun j => (f j, inr tt).

Definition emit (e : Event) : op unit :=
  modify (fun j => mkJob (log j ++ [e]) (extractor j) (muxer j)
                     (videoMuxerTrack j) (audioMuxerTrack j) (muxerStarted j)
                     (decoderDone j) (encoderDone j)).

Definition setExtractor (ex : MediaExtractor) : op unit :=
  modify (fun j => mkJob (log j) ex (muxer j)
                     (videoMuxerTrack j) (audioMuxerTrack j) (muxerStarted j)
                     (decoderDone j) (encoderDone j)).

Definition setMuxer (m : option MediaMuxer) : op unit :=
  modify (fun j => mkJob (log j) (extractor j) m
                     (videoMuxerTrack j) (audioMuxerTrack j) (muxerStarted j)
                     (decoderDone j) (encoderDone j)).

Definition setVideoMuxerTrack (i : Z) : op unit :=
  modify (fun j => mkJob (log j) (extractor j) (muxer j)
                     i (audioMuxerTrack j) (muxerStarted j)
                     (decoderDone j) (encoderDone j)).

Definition setMuxerStarted (v : bool) : op unit :=
  modify (fun j => mkJob (log j) (extractor j) (muxer j)
                     (videoMuxerTrack j) (audioMuxerTrack j) v
                     (decoderDone j) (encoderDone j)).

Definition setDecoderDone (v : bool) : op unit :=
  modify (fun j => mkJob (log j) (extractor j) (muxer j)
                     (videoMuxerTrack j) (audioMuxerTrack j) (muxerStarted j)
                     v (encoderDone j)).

Definition setEncoderDone (v : bool) : op unit :=
  modify (fun j => mkJob (log j) (extractor j) (muxer j)
                     (videoMuxerTrack j) (audioMuxerTrack j) (muxerStarted j)
                     (decoderDone j) v).

Declare Scope op_scope.
Delimit Scope op_scope with op.
Notation "x <- m ;; k" := (bind m (fun x => k))
  (at level 61, m at next level, right associativity) : op_scope.
Notation "m ;;; k" := (bind m (fun _ => k))
  (at level 61, right associativity) : op_scope.
Local Open Scope op_scope.

(** An exception inside the [try] of processVideoWithGL: its [catch]
    rejects the promise with PROCESSING_ERROR. *)
Definition throw {A} : op A := leave (Rejected "PROCESSING_ERROR").

Definition orThrow {A} (o : option A) : op A :=
  match o with Some v => ret v | None => throw end.

(** A muxer call: the new muxer state, or the exception. *)
Definition onMuxer {A} (call : MediaMuxer -> option (A * MediaMuxer)) : op A :=
  m <- gets muxer ;;
  r <- orThrow (match m with Some m' => call m' | None => None end) ;;
  setMuxer (Some (snd r)) ;;;
  ret (fst r).

(** ** processVideoWithGL *)

(** "Find video and audio tracks": the last track of each kind wins. *)
Record Tracks :=
  mkTracks {
    videoTrackIndex : Z;
    audioTrackIndex : Z;
    videoFormat : option MediaFormat;
    audioFormat : option MediaFormat
  }.

Fixpoint findTracks (i : Z) (formats : list MediaFormat) (found : Tracks) : Tracks :=
  match formats with
  | [] => found
  | format :: rest =>
      match KEY_MIME format with
      | None => findTracks (i + 1) rest found
      | Some mime =>
          if String.prefix "video/" mime then
            findTracks (i + 1) rest
              (mkTracks i (audioTrackIndex found) (Some format) (audioFormat found))
          else if String.prefix "audio/" mime then
            findTracks (i + 1) rest
              (mkTracks (videoTrackIndex found) i (videoFormat found) (Some format))
          else findTracks (i + 1) rest found
      end
  end.

Definition tracksOf (src : Source) : Tracks :=
  findTracks 0 (trackFormats src) (mkTracks (-1) (-1) None None).

(** "Calculate output dimensions" *)
Definition outputDimensions (videoWidth videoHeight rotationAngle : Z)
    (cropRect : option CropRect) : Z * Z :=
  match cropRect with
  | Some r => (width r, height r)
  | None =>
      if (rotationAngle =? 90) || (rotationAngle =? -90) || (rotationAngle =? 270)
      then (videoHeight, videoWidth)
      else (videoWidth, videoHeight)
  end.

(** The angle handed to [Matrix.rotateM] for a frame. *)
Definition rotationDegrees (rotationAngle : Z) : Z :=
  if rotationAngle =? 0 then 0
  else if rotationAngle =? 90 then 90
  else if (rotationAngle =? -90) || (rotationAngle =? 270) then -90
  else if rotationAngle =? 180 then 180
  else 0.

(** "Feed decoder" *)
Definition feedDecoder (t : Tick) : op unit :=
  done <- gets decoderDone ;;
  if done then ret tt
  else if 0 <=? inputBufferId t then
    ex <- gets extractor ;;
    let sampleSize := readSampleData ex in
    if sampleSize <? 0 then
      emit QueueEndOfStream ;;;
      setDecoderDone true
    else
      let presentationTime := sampleTime ex in
      emit (QueueInputBuffer sampleSize presentationTime) ;;;
      setExtractor (advance ex)
  else ret tt.

(** "Get decoded frame": render it into the encoder's surface. *)
Definition renderDecoded (rotationAngle : Z) (t : Tick) : op unit :=
  if 0 <=? decoderStatus t then
    let doRender := 0 <? size (decoderBufferInfo t) in
    (if doRender then
       (if newImage t then ret tt else throw) ;;;
       emit (DrawFrame (rotationDegrees rotationAngle)
               (wrap64 (presentationTimeUs (decoderBufferInfo t) * 1000)))
     else ret tt) ;;;
    if endOfStream (decoderBufferInfo t) then emit SignalEndOfInputStream
    else ret tt
  else ret tt.

Definition isNull {A} (o : option A) : bool :=
  match o with None => true | Some _ => false end.

(** "Get encoded data" *)
Definition drainEncoder (audioFormat : option MediaFormat) (t : Tick) : op unit :=
  if encoderStatus t =? INFO_OUTPUT_FORMAT_CHANGED then
    let newFormat := outputFormat t in
    emit (AddTrack videoTrack) ;;;
    i <- onMuxer (addTrack newFormat) ;;
    setVideoMuxerTrack i ;;;
    audioMuxerTrack <- gets audioMuxerTrack ;;
    if isNull audioFormat || negb (audioMuxerTrack =? -1) then
      emit Start ;;;
      onMuxer start ;;;
      setMuxerStarted true
    else ret tt
  else if 0 <=? encoderStatus t then
    muxerStarted <- gets muxerStarted ;;
    (if (0 <? size (encoderBufferInfo t)) && muxerStarted then
       videoMuxerTrack <- gets videoMuxerTrack ;;
       emit (WriteSampleData videoTrack (encoderBufferInfo t)) ;;;
       onMuxer (writeSampleData videoMuxerTrack (outputBuffer t)
                  (encoderBufferInfo t))
     else ret tt) ;;;
    if endOfStream (encoderBufferInfo t) then setEncoderDone true else ret tt
  else ret tt.

(** [while (!encoderDone) { ... }], one turn per answer of the codecs. When
    the answers run out before the encoder reports the end of its stream,
    the loop is still polling and the promise is pending. *)
Fixpoint videoLoop (rotationAngle : Z) (audioFormat : option MediaFormat)
    (ticks : list Tick) : op unit :=
  fun j =>
    if encoderDone j then (j, inr tt)
    else match ticks with
         | [] => (j, inl Pending)
         | t :: rest =>
             (feedDecoder t ;;;
              renderDecoded rotationAngle t ;;;
              drainEncoder audioFormat t ;;;
              videoLoop rotationAngle audioFormat rest) j
         end.

(** The [while (true)] of processAudioTrack. Every turn consumes a sample, so
    one more turn than there are samples left is enough. *)
Fixpoint copySamples (turns : nat) (audioMuxerTrack : Z) : op unit :=
  match turns with
  | O => leave Pending
  | S n =>
      ex <- gets extractor ;;
      let sampleSize := readSampleData ex in
      if sampleSize <? 0 then ret tt
      else
        let bufferInfo := mkInfo 0 sampleSize (sampleTime ex) (sampleFlags ex) in
        emit (WriteSampleData audioTrack bufferInfo) ;;;
        onMuxer (writeSampleData audioMuxerTrack (sampleBytes ex) bufferInfo) ;;;
        setExtractor (advance ex) ;;;
        copySamples n audioMuxerTrack
  end.

Definition processAudioTrack (audioTrackIndex : Z) (audioFormat : MediaFormat)
  : op unit :=
  ex <- gets extractor ;;
  setExtractor (seekToStart (selectTrack audioTrackIndex ex)) ;;;
  emit (AddTrack audioTrack) ;;;
  audioMuxerTrack <- onMuxer (addTrack audioFormat) ;;
  maxBufferSize <- orThrow (KEY_MAX_INPUT_SIZE audioFormat) ;;
  ex' <- gets extractor ;;
  copySamples (S (List.length (remaining ex'))) audioMuxerTrack.

(** The [try] block. *)
Definition processVideoWithGL_try (h : Host) (inputPath outputPath : string)
    (rotationAngle : Z) (cropRect : option CropRect) : op Promise :=
  emit (SetDataSource inputPath) ;;;
  src <- orThrow (dataSource h inputPath) ;;
  setExtractor (mkExtractor src [] (samples src)) ;;;
  let found := tracksOf src in
  match videoFormat found with
  | None => leave (Rejected "NO_VIDEO_TRACK")
  | Some videoFormat =>
      (if codecSetup h then ret tt else throw) ;;;
      let videoWidth := KEY_WIDTH videoFormat in
      let videoHeight := KEY_HEIGHT videoFormat in
      let '(outputWidth, outputHeight) :=
        outputDimensions videoWidth videoHeight rotationAngle cropRect in
      emit (ConfigureCodecs cropRect outputWidth outputHeight) ;;;
      setMuxer (Some newMuxer) ;;;
      ex <- gets extractor ;;
      setExtractor (selectTrack (videoTrackIndex found) ex) ;;;
      videoLoop rotationAngle (audioFormat found) (codecs h) ;;;
      match audioFormat found with
      | Some audioFormat =>
          if 0 <=? audioTrackIndex found
          then processAudioTrack (audioTrackIndex found) audioFormat
          else ret tt
      | None => ret tt
      end ;;;
      ret (Resolved outputPath)
  end.

(** The [finally] block: everything is released, the muxer is stopped if it
    was created, and a failure to stop is ignored. *)
Definition processVideoWithGL_finally : op unit :=
  emit Release ;;;
  m <- gets muxer ;;
  if isNull m then ret tt else emit Stop.

Definition processVideoWithGL (h : Host) (inputPath outputPath : string)
    (rotationAngle : Z) (cropRect : option CropRect) : op Promise :=
  fun j =>
    let '(j1, r) := processVideoWithGL_try h inputPath outputPath
                      rotationAngle cropRect j in
    (fst (processVideoWithGL_finally j1), r).

(** ** The React methods *)

Definition normalizedPath (inputPath : string) : string :=
  if String.prefix "file://" inputPath
  then String.substring 7 (String.length inputPath - 7) inputPath
  else inputPath.

Definition outputFile (h : Host) : string :=
  cacheDir h ++ "/" ++ "transformed_" ++ randomUUID h ++ ".mp4".

Definition settled (r : Job * (Promise + Promise)) : Job * Promise :=
  match r with
  | (j, inl p) => (j, p)
  | (j, inr p) => (j, p)
  end.

Definition rotateVideo (h : Host) (inputPath : string) (angle : Z)
  : Job * Promise :=
  settled (
    (let normalizedPath := normalizedPath inputPath in
     emit (Exists normalizedPath) ;;;
     (if fileExists h normalizedPath then ret tt
      else leave (Rejected "INVALID_PATH")) ;;;
     processVideoWithGL h normalizedPath (outputFile h) angle None) newJob).

(** The first track whose MIME type starts with "video/". *)
Definition firstVideoFormat (src : Source) : option MediaFormat :=
  find (fun format =>
          match KEY_MIME format with
          | Some mime => String.prefix "video/" mime
          | None => false
          end) (trackFormats src).

Definition cropVideo (h : Host) (inputPath aspectRatio position : string)
  : Job * Promise :=
  settled (
    (let normalizedPath := normalizedPath inputPath in
     emit (Exists normalizedPath) ;;;
     (if fileExists h normalizedPath then ret tt
      else leave (Rejected "INVALID_PATH")) ;;;
     match Text.splitKeep ":" aspectRatio with
     | [part0; part1] =>
         match toDoubleOrNull h part0, toDoubleOrNull h part1 with
         | Some widthRatio, Some heightRatio =>
             let targetAspectRatio := (widthRatio / heightRatio)%Q in
             emit (SetDataSource normalizedPath) ;;;
             match dataSource h normalizedPath with
             | None => leave (Rejected "CROP_ERROR")
             | Some src =>
                 match firstVideoFormat src with
                 | None => leave (Rejected "NO_VIDEO_TRACK")
                 | Some videoFormat =>
                     let videoWidth := KEY_WIDTH videoFormat in
                     let videoHeight := KEY_HEIGHT videoFormat in
                     let cropRect :=
                       calculateCropRect videoWidth videoHeight
                         targetAspectRatio position in
                     processVideoWithGL h normalizedPath (outputFile h) 0
                       (Some cropRect)
                 end
             end
         | _, _ => leave (Rejected "INVALID_ASPECT_RATIO")
         end
     | _ => leave (Rejected "INVALID_ASPECT_RATIO")
     end) newJob).
(** ** The crop as a transform of texture coordinates *)

(** [Int.toFloat()]; Kotlin [Float] values are rationals, like [Double]. *)
Definition toFloat (z : Z) : Q := inject_Z z.

(** The matrix built by [translateM] then [scaleM] on the identity: a
    texture coordinate [(u, v)] goes to
    [(scaleX * u + translateX, scaleY * v + translateY)]. *)
Record CropMatrix :=
  mkCropMatrix { scaleX : Q; scaleY : Q; translateX : Q; translateY : Q }.

(** "Apply crop transformation via texture coordinates" *)
Definition cropMatrix (videoWidth videoHeight : Z) (cropRect : CropRect)
  : CropMatrix :=
  let left := (toFloat (x cropRect) / toFloat videoWidth)%Q in
  let top := (toFloat (y cropRect) / toFloat videoHeight)%Q in
  let right :=
    (toFloat (plus (x cropRect) (width cropRect)) / toFloat videoWidth)%Q in
  let bottom :=
    (toFloat (plus (y cropRect) (height cropRect)) / toFloat videoHeight)%Q in
  let scaleX := (1 / (right - left))%Q in
  let scaleY := (1 / (bottom - top))%Q in
  let translateX := (- left * scaleX * 2)%Q in
  let translateY := (- top * scaleY * 2)%Q in
  mkCropMatrix scaleX scaleY translateX translateY.

Definition applyCropMatrix (m : CropMatrix) (uv : Q * Q) : Q * Q :=
  (scaleX m * fst uv + translateX m, scaleY m * snd uv + translateY m)%Q.
End Android.

(* ===================================================================== *)
(** * JavaScript: the exported entry points (index.js) *)
(* ===================================================================== *)

Module JS.
Local Open Scope string_scope.

(** The values an argument can be. Numbers are rationals, with the three
    non-finite doubles apart. *)
Inductive Value :=
| Undefined
| Null
| Boolean (v : bool)
| Number (q : Q)
| NaN
| Infinity (negative : bool)
| Str (s : string)
| Object.

(** [!v] *)
Definition falsy (v : Value) : bool :=
  match v with
  | Undefined | Null | NaN => true
  | Boolean t => negb t
  | Number q => Qeq_bool q 0
  | Str s => String.eqb s EmptyString
  | Infinity _ | Object => false
  end.

(** [typeof v !== 'string'] *)
Definition notString (v : Value) : bool :=
  match v with Str _ => false | _ => true end.

(** The comparison of [Array.prototype.includes] against a number. *)
Definition sameNumber (n : Q) (v : Value) : bool :=
  match v with
  | Number q => Qeq_bool q n
  | _ => false
  end.

Definition validAngles : list Q := [90; -90; 180; 270]%Q.

Definition includes (l : list Q) (v : Value) : bool :=
  existsb (fun n => sameNumber n v) l.

Definition quote : string := String (ascii_of_nat 34) EmptyString.

Definition aspectRatioMessage : string :=
  "aspectRatio must be a valid string (e.g., " ++ quote ++ "16:9" ++ quote
  ++ ", " ++ quote ++ "1:1" ++ quote ++ ")".

(** How an [async] function ends. *)
Inductive Outcome :=
| Returns (v : string)
| Throws (message : string).

(** The native module: each method settles with a path or with an error
    that has a message. *)
Record NativeModule :=
  mkNative {
    native_rotateVideo : Value -> Value -> Outcome;
    native_cropVideo : Value -> Value -> Value -> Outcome;
    native_cropAndRotateVideo : Value -> Value -> Value -> Value -> Outcome
  }.

Inductive Call :=
| CallRotateVideo (inputPath angle : Value)
| CallCropVideo (inputPath aspectRatio position : Value)
| CallCropAndRotateVideo (inputPath aspectRatio position angle : Value).

(** [try { return await call } catch (error) { throw new Error(prefix + error.message) }] *)
Definition rethrow (prefix : string) (o : Outcome) : Outcome :=
  match o with
  | Returns v => Returns v
  | Throws message => Throws (prefix ++ message)
  end.

(** The native calls made, and how the function ends. *)
Definition rotateVideo (VideoTransformer : NativeModule) (inputPath angle : Value)
  : list Call * Outcome :=
  if falsy inputPath || notString inputPath then
    ([], Throws "inputPath must be a valid string")
  else if negb (includes validAngles angle) then
    ([], Throws "angle must be one of: 90, -90, 180, 270")
  else
    ([CallRotateVideo inputPath angle],
     rethrow "Failed to rotate video: "
       (native_rotateVideo VideoTransformer inputPath angle)).

Definition rotateVideoClockwise (VideoTransformer : NativeModule) (inputPath : Value) :=
  rotateVideo VideoTransformer inputPath (Number 90).

Definition rotateVideoCounterClockwise (VideoTransformer : NativeModule) (inputPath : Value) :=
  rotateVideo VideoTransformer inputPath (Number (-90)).

Definition rotateVideo180 (VideoTransformer : NativeModule) (inputPath : Value) :=
  rotateVideo VideoTransformer inputPath (Number 180).

(** [options.position || 'center'] *)
Definition positionOf (position : Value) : Value :=
  if falsy position then Str "center" else position.

Definition cropVideo (VideoTransformer : NativeModule)
    (inputPath aspectRatio position : Value) : list Call * Outcome :=
  if falsy inputPath || notString inputPath then
    ([], Throws "inputPath must be a valid string")
  else if falsy aspectRatio || notString aspectRatio then
    ([], Throws aspectRatioMessage)
  else
    let position := positionOf position in
    ([CallCropVideo inputPath aspectRatio position],
     rethrow "Failed to crop video: "
       (native_cropVideo VideoTransformer inputPath aspectRatio position)).

Definition cropAndRotateVideo (VideoTransformer : NativeModule)
    (inputPath aspectRatio angle position : Value) : list Call * Outcome :=
  if falsy inputPath || notString inputPath then
    ([], Throws "inputPath must be a valid string")
  else if falsy aspectRatio || notString aspectRatio then
    ([], Throws aspectRatioMessage)
  else if negb (includes validAngles angle) then
    ([], Throws "angle must be one of: 90, -90, 180, 270")
  else
    let position := positionOf position in
    ([CallCropAndRotateVideo inputPath aspectRatio position angle],
     rethrow "Failed to crop and rotate video: "
       (native_cropAndRotateVideo VideoTransformer inputPath aspectRatio
          position angle)).
(** The presets: [cropVideo] with a fixed aspect ratio. *)
Definition cropToSquare (VideoTransformer : NativeModule)
    (inputPath position : Value) : list Call * Outcome :=
  cropVideo VideoTransformer inputPath (Str "1:1") position.

Definition cropToWidescreen (VideoTransformer : NativeModule)
    (inputPath position : Value) : list Call * Outcome :=
  cropVideo VideoTransformer inputPath (Str "16:9") position.

Definition cropToStory (VideoTransformer : NativeModule)
    (inputPath position : Value) : list Call * Outcome :=
  cropVideo VideoTransformer inputPath (Str "9:16") position.

Definition cropTo4x3 (VideoTransformer : NativeModule)
    (inputPath position : Value) : list Call * Outcome :=
  cropVideo VideoTransformer inputPath (Str "4:3") position.
End JS.

(* ===================================================================== *)
(** * Android: the texture renderer (TextureRenderer.kt) *)
(* ===================================================================== *)

Module GLES.
Local Open Scope string_scope.
Local Open Scope list_scope.
Local Open Scope Z_scope.

Inductive ShaderType := GL_VERTEX_SHADER | GL_FRAGMENT_SHADER.

(** The number of a shader type, as [checkGlError] prints it. *)
Definition typeNumber (shaderType : ShaderType) : string :=
  match shaderType with
  | GL_VERTEX_SHADER => "35633"
  | GL_FRAGMENT_SHADER => "35632"
  end.

Definition GL_NO_ERROR : Z := 0.
Definition GL_TRUE : Z := 1.

(** The calls of the renderer that create, look up or delete an object; a
    creating call is logged with the name it returned. *)
Inductive Call :=
| glCreateShader (shaderType : ShaderType) (shader : Z)
| glShaderSource (shader : Z)
| glCompileShader (shader : Z)
| glDeleteShader (shader : Z)
| glCreateProgram (program : Z)
| glAttachShader (program shader : Z)
| glLinkProgram (program : Z)
| glDeleteProgram (program : Z)
| glGetAttribLocation (program : Z) (name : string)
| glGetUniformLocation (program : Z) (name : string)
| glGenTextures (texture : Z)
| glBindTexture (texture : Z)
| glTexParameter
| glDeleteTextures (texture : Z).

(** A [RuntimeException]: the one of [checkGlError], with the operation and
    the error code, or one with a message. *)
Inductive Thrown :=
| GlError (op : string) (error : Z)
| RuntimeException (message : string).

(** What OpenGL answers. [glGetError] is asked once per label. *)
Record Host :=
  mkHost {
    createShader : ShaderType -> Z;
    compileStatus : Z -> Z;
    createProgramName : Z;
    linkStatus : Z -> Z;
    attribLocation : Z -> string -> Z;
    uniformLocation : Z -> string -> Z;
    genTextures : Z;
    glGetError : string -> Z
  }.

(** The fields of a renderer, and the calls it has made. *)
Record TextureRenderer :=
  mkRenderer {
    calls : list Call;
    program : Z;
    textureID : Z;
    mvpMatrixHandle : Z;
    stMatrixHandle : Z;
    positionHandle : Z;
    textureHandle : Z
  }.

Definition fresh : TextureRenderer := mkRenderer [] 0 (-1) 0 0 0 0.

(** A step changes the renderer and returns a value or throws. *)
Definition step (A : Type) : Type :=
  TextureRenderer -> TextureRenderer * (Thrown + A).

Definition ret {A} (v : A) : step A := fun r => (r, inr v).

Definition bind {A B} (m : step A) (k : A -> step B) : step B :=
  fun r => match m r with
           | (r', inl e) => (r', inl e)
           | (r', inr v) => k v r'
           end.

Definition throw {A} (e : Thrown) : step A := fun r => (r, inl e).

Definition modify (f : TextureRenderer -> TextureRenderer) : step unit :=
  fun r => (f r, inr tt).

Definition gets {A} (f : TextureRenderer -> A) : step A := fun r => (r, inr (f r)).

Definition call (c : Call) : step unit :=
  modify (fun r => mkRenderer (calls r ++ [c]) (program r) (textureID r)
                     (mvpMatrixHandle r) (stMatrixHandle r) (positionHandle r)
                     (textureHandle r)).

Definition setProgram (v : Z) : step unit :=
  modify (fun r => mkRenderer (calls r) v (textureID r)
                     (mvpMatrixHandle r) (stMatrixHandle r) (positionHandle r)
                     (textureHandle r)).

Definition setTextureID (v : Z) : step unit :=
  modify (fun r => mkRenderer (calls r) (program r) v
                     (mvpMatrixHandle r) (stMatrixHandle r) (positionHandle r)
                     (textureHandle r)).

Definition setMvpMatrixHandle (v : Z) : step unit :=
  modify (fun r => mkRenderer (calls r) (program r) (textureID r)
                     v (stMatrixHandle r) (positionHandle r) (textureHandle r)).

Definition setStMatrixHandle (v : Z) : step unit :=
  modify (fun r => mkRenderer (calls r) (program r) (textureID r)
                     (mvpMatrixHandle r) v (positionHandle r) (textureHandle r)).

Definition setPositionHandle (v : Z) : step unit :=
  modify (fun r => mkRenderer (calls r) (program r) (textureID r)
                     (mvpMatrixHandle r) (stMatrixHandle r) v (textureHandle r)).

Definition setTextureHandle (v : Z) : step unit :=
  modify (fun r => mkRenderer (calls r) (program r) (textureID r)
                     (mvpMatrixHandle r) (stMatrixHandle r) (positionHandle r) v).

Declare Scope gl_scope.
Delimit Scope gl_scope with gl.
Notation "x <- m ;; k" := (bind m (fun x => k))
  (at level 61, m at next level, right associativity) : gl_scope.
Notation "m ;;; k" := (bind m (fun _ => k))
  (at level 61, right associativity) : gl_scope.
Local Open Scope gl_scope.

Definition checkGlError (h : Host) (op : string) : step unit :=
  let error := glGetError h op in
  if error =? GL_NO_ERROR then ret tt else throw (GlError op error).

Definition loadShader (h : Host) (shaderType : ShaderType) : step Z :=
  let shader := createShader h shaderType in
  call (glCreateShader shaderType shader) ;;;
  checkGlError h ("glCreateShader type=" ++ typeNumber shaderType) ;;;
  call (glShaderSource shader) ;;;
  call (glCompileShader shader) ;;;
  if compileStatus h shader =? 0 then
    call (glDeleteShader shader) ;;;
    ret 0
  else ret shader.

Definition createProgram (h : Host) : step Z :=
  vertexShader <- loadShader h GL_VERTEX_SHADER ;;
  if vertexShader =? 0 then ret 0
  else
    fragmentShader <- loadShader h GL_FRAGMENT_SHADER ;;
    if fragmentShader =? 0 then ret 0
    else
      let program := createProgramName h in
      call (glCreateProgram program) ;;;
      checkGlError h "glCreateProgram" ;;;
      if program =? 0 then ret 0
      else
        call (glAttachShader program vertexShader) ;;;
        checkGlError h "glAttachShader vertexShader" ;;;
        call (glAttachShader program fragmentShader) ;;;
        checkGlError h "glAttachShader fragmentShader" ;;;
        call (glLinkProgram program) ;;;
        if negb (linkStatus h program =? GL_TRUE) then
          call (glDeleteProgram program) ;;;
          ret 0
        else ret program.

Definition surfaceCreated (h : Host) : step unit :=
  created <- createProgram h ;;
  setProgram created ;;;
  (if created =? 0 then throw (RuntimeException "Failed to create program")
   else ret tt) ;;;
  let position := attribLocation h created "aPosition" in
  call (glGetAttribLocation created "aPosition") ;;;
  setPositionHandle position ;;;
  checkGlError h "glGetAttribLocation aPosition" ;;;
  (if position =? -1
   then throw (RuntimeException "Could not get attrib location for aPosition")
   else ret tt) ;;;
  let texture := attribLocation h created "aTextureCoord" in
  call (glGetAttribLocation created "aTextureCoord") ;;;
  setTextureHandle texture ;;;
  checkGlError h "glGetAttribLocation aTextureCoord" ;;;
  (if texture =? -1
   then throw (RuntimeException
                 "Could not get attrib location for aTextureCoord")
   else ret tt) ;;;
  let mvp := uniformLocation h created "uMVPMatrix" in
  call (glGetUniformLocation created "uMVPMatrix") ;;;
  setMvpMatrixHandle mvp ;;;
  checkGlError h "glGetUniformLocation uMVPMatrix" ;;;
  (if mvp =? -1
   then throw (RuntimeException
                 "Could not get uniform location for uMVPMatrix")
   else ret tt) ;;;
  let st := uniformLocation h created "uSTMatrix" in
  call (glGetUniformLocation created "uSTMatrix") ;;;
  setStMatrixHandle st ;;;
  checkGlError h "glGetUniformLocation uSTMatrix" ;;;
  (if st =? -1
   then throw (RuntimeException "Could not get uniform location for uSTMatrix")
   else ret tt) ;;;
  let textures0 := genTextures h in
  call (glGenTextures textures0) ;;;
  setTextureID textures0 ;;;
  call (glBindTexture textures0) ;;;
  checkGlError h "glBindTexture textureID" ;;;
  call glTexParameter ;;;
  call glTexParameter ;;;
  call glTexParameter ;;;
  call glTexParameter ;;;
  checkGlError h "glTexParameter".

Definition getTextureId (r : TextureRenderer) : Z := textureID r.

Definition release : step unit :=
  program <- gets program ;;
  (if negb (program =? 0) then
     call (glDeleteProgram program) ;;;
     setProgram 0
   else ret tt) ;;;
  textureID <- gets textureID ;;
  if negb (textureID =? -1) then
    call (glDeleteTextures textureID) ;;;
    setTextureID (-1)
  else ret tt.
End GLES.

(* ===================================================================== *)
(** * The rules of the specification *)
(* ===================================================================== *)

Module Spec.
Import CG.

(** The rotation-only rule in the words of the specification: one row per
    legal angle, and the identity for everything else. *)
Inductive RotationOnly (W H : R) : Z -> CGAffineTransform * CGSize -> Prop :=
| Rot90 :
    RotationOnly W H 90 (rotated (translation H 0) (PI / 2), mkSize H W)
| RotMinus90 :
    RotationOnly W H (-90) (rotated (translation 0 W) (- (PI / 2)), mkSize H W)
| Rot270 :
    RotationOnly W H 270 (rotated (translation 0 W) (- (PI / 2)), mkSize H W)
| Rot180 :
    RotationOnly W H 180 (rotated (translation W H) PI, mkSize W H)
| RotOther : forall angle,
    angle <> 90%Z -> angle <> (-90)%Z -> angle <> 270%Z -> angle <> 180%Z ->
    RotationOnly W H angle (identity, mkSize W H).

(** "The pre-existing transform is a +-90 degree rotation": its rotation
    angle is within 0.01 radians of +-90 degrees. *)
Definition quarterTurn (t : CGAffineTransform) : Prop :=
  (Rabs (atan2 (b t) (a t) - PI / 2) < 1 / 100
   \/ Rabs (atan2 (b t) (a t) + PI / 2) < 1 / 100)%R.

(** The crop-only size rule in the words of the specification, over any
    carrier of numbers with a division, a product and a comparison. *)
Section CropRule.
Variable F : Type.
Variables (divF mulF : F -> F -> F) (gtF : F -> F -> bool).



End CropRule.


(** An aspect-ratio string that a platform takes: it splits into exactly
    two parts and both read as numbers. *)
Definition twoNumbers {N : Type} (split : string -> list string)
    (number : string -> option N) (s : string) : Prop :=
  exists part0 part1 widthRatio heightRatio,
    split s = [part0; part1]
    /\ number part0 = Some widthRatio /\ number part1 = Some heightRatio.

(** "Exactly two positive-number parts separated by the delimiter", on
    plain decimal numerals. *)
Definition twoPositiveNumbers (s : string) : bool :=
  match Text.splitKeep ":" s with
  | [part0; part1] =>
      match Text.decimal part0, Text.decimal part1 with
      | Some widthRatio, Some heightRatio =>
          negb (Qle_bool widthRatio 0) && negb (Qle_bool heightRatio 0)
      | _, _ => false
      end
  | _ => false
  end.

(** The legal angles, as JavaScript values. *)
Definition legalAngle (v : JS.Value) : Prop :=
  exists q, v = JS.Number q /\ (q == 90 \/ q == -90 \/ q == 180 \/ q == 270)%Q.
(** ** The order of the muxer calls *)

(** What a log has shown of the muxer so far. *)
Record Seen :=
  mkSeen { videoAdded : bool; audioAdded : bool; startCalled : bool }.

Definition nothingSeen : Seen := mkSeen false false false.

(** One call, checked against what was seen before it: the muxer may be
    started only once the video track has been added and, when the source
    has an audio track, the audio track too; a video sample may be written
    only once the muxer has been started. *)
Definition observe (hasAudio : bool) (s : Seen) (e : Android.Event) : option Seen :=
  match e with
  | Android.AddTrack Android.videoTrack =>
      Some (mkSeen true (audioAdded s) (startCalled s))
  | Android.AddTrack Android.audioTrack =>
      Some (mkSeen (videoAdded s) true (startCalled s))
  | Android.Start =>
      if videoAdded s && (negb hasAudio || audioAdded s)
      then Some (mkSeen (videoAdded s) (audioAdded s) true)
      else None
  | Android.WriteSampleData Android.videoTrack _ =>
      if startCalled s then Some s else None
  | _ => Some s
  end.

Fixpoint observeAll (hasAudio : bool) (s : Seen) (log : list Android.Event)
  : option Seen :=
  match log with
  | [] => Some s
  | e :: rest =>
      match observe hasAudio s e with
      | Some s' => observeAll hasAudio s' rest
      | None => None
      end
  end.

Definition disciplined (hasAudio : bool) (log : list Android.Event) : bool :=
  match observeAll hasAudio nothingSeen log with
  | Some _ => true
  | None => false
  end.

(** The source has an audio track, as processVideoWithGL finds it. *)
Definition hasAudioTrack (src : Android.Source) : bool :=
  negb (Android.isNull (Android.audioFormat (Android.tracksOf src))).

Definition hasAudioAt (h : Android.Host) (path : string) : bool :=
  match Android.dataSource h path with
  | Some src => hasAudioTrack src
  | None => false
  end.

(** The samples of the audio track, in the order of the file. *)
Definition audioSamples (src : Android.Source) : list Android.Sample :=
  filter (fun s => Z.eqb (Android.trackIndex s)
                     (Android.audioTrackIndex (Android.tracksOf src)))
         (Android.samples src).
(** ** Rotations in sequence *)

(** The transform and render size of a frame that is rotated by [first] and
    whose result is rotated by [second]. *)
Definition rotateTwice (first second : Z) (W H : R)
  : CGAffineTransform * CGSize :=
  let there := IOS.rotateVideo_transform first W H in
  let again := IOS.rotateVideo_transform second (width (snd there))
                 (height (snd there)) in
  (concatenating (fst there) (fst again), snd again).

(** ** Anchors, error codes, hosts *)

(** The nine position names. *)
Definition anchors : list string :=
  ["center"; "top"; "bottom"; "left"; "right"; "top-left"; "top-right";
   "bottom-left"; "bottom-right"]%string.

(** The error codes of the iOS methods. *)
Definition iosCodes : list string :=
  ["INVALID_PATH"; "NO_VIDEO_TRACK"; "INVALID_ASPECT_RATIO";
   "COMPOSITION_ERROR"; "INSERT_ERROR"; "EXPORT_ERROR"; "EXPORT_FAILED";
   "EXPORT_CANCELLED"]%string.

(** The error codes that the Android methods reach. *)
Definition androidCodes : list string :=
  ["INVALID_PATH"; "INVALID_ASPECT_RATIO"; "CROP_ERROR"; "NO_VIDEO_TRACK";
   "PROCESSING_ERROR"]%string.

(** Two iOS hosts that answer alike on everything but the audio track. *)
Definition sameButAudio (h h' : IOS.Host) : Prop :=
  (forall s, IOS.URL h s = IOS.URL h' s)
  /\ (forall u, IOS.videoTracks (IOS.AVAsset_url h u)
                = IOS.videoTracks (IOS.AVAsset_url h' u))
  /\ (forall s, IOS.Double h s = IOS.Double h' s)
  /\ IOS.addMutableTrack h IOS.video = IOS.addMutableTrack h' IOS.video
  /\ IOS.insertTimeRange h IOS.video = IOS.insertTimeRange h' IOS.video
  /\ IOS.exportSession h = IOS.exportSession h'
  /\ IOS.exportStatus h = IOS.exportStatus h'
  /\ IOS.UUID h = IOS.UUID h'
  /\ IOS.temporaryDirectory h = IOS.temporaryDirectory h'.

(** The [Export] events of a log. *)
Definition exports (log : list IOS.Event)
  : list (IOS.VideoComposition * string) :=
  flat_map (fun e => match e with
                     | IOS.Export vc out => [(vc, out)]
                     | _ => []
                     end) log.

(** A path that the JavaScript entry points take: a non-empty string. *)
Definition validPath (v : JS.Value) : Prop :=
  exists s, v = JS.Str s /\ s <> EmptyString.

(** ** What the encoder's answers put into the output *)

(** The samples that a source without audio track gets into its output, from
    the answers of the encoder alone: the buffers that come before the
    encoder announces its format are dropped, the later non-empty ones are
    kept in order on track 0, up to the buffer that carries the end of
    stream. [started] tells whether the format has been announced. *)
Fixpoint encodedSamples (started : bool) (ticks : list Android.Tick)
  : list (Z * Android.BufferInfo * list Z) :=
  match ticks with
  | [] => []
  | t :: rest =>
      let info := Android.encoderBufferInfo t in
      if (Android.encoderStatus t =? Android.INFO_OUTPUT_FORMAT_CHANGED)%Z
      then encodedSamples true rest
      else if (0 <=? Android.encoderStatus t)%Z then
        (if (0 <? Android.size info)%Z && started
         then [(0%Z, info, Android.outputBuffer t)] else [])
        ++ (if Android.endOfStream info then []
            else encodedSamples started rest)
      else encodedSamples started rest
  end.
(** ** How a run of an iOS method may end *)

(** Resolved with the output file in the temporary directory after one
    export that completed; or rejected with one of the eight codes, and then
    nothing was exported or the export did not complete. *)
Definition settledRun (h : IOS.Host) (run : list IOS.Event * Flow.Promise)
  : Prop :=
  let out := (IOS.temporaryDirectory h ++ "/" ++ "transformed_"
              ++ IOS.UUID h ++ ".mp4")%string in
  match snd run with
  | Flow.Resolved path =>
      path = out /\ IOS.exportStatus h = IOS.completed
      /\ exists vc, exports (fst run) = [(vc, out)]
  | Flow.Rejected code =>
      In code iosCodes
      /\ (exports (fst run) = [] \/ IOS.exportStatus h <> IOS.completed)
  | Flow.Pending => False
  end.

(** Two runs that settle alike and export alike. *)
Definition sameOutcome (r r' : list IOS.Event * Flow.Promise) : Prop :=
  snd r = snd r' /\ exports (fst r) = exports (fst r').

(** ** What the decoder is fed *)

Definition isFeed (e : Android.Event) : bool :=
  match e with
  | Android.QueueInputBuffer _ _ | Android.QueueEndOfStream => true
  | _ => false
  end.

(** The samples of the video track that processVideoWithGL selects, in the
    order of the file. *)
Definition videoSamples (src : Android.Source) : list Android.Sample :=
  filter (fun s => existsb (Z.eqb (Android.trackIndex s))
                     [Android.videoTrackIndex (Android.tracksOf src)])
         (Android.samples src).

Definition queueOf (s : Android.Sample) : Android.Event :=
  Android.QueueInputBuffer (Z.of_nat (List.length (Android.data s)))
    (Android.time s).

(** Every sample of the video track once, in file order, then the end of
    the stream. *)
Definition feedScript (src : Android.Source) : list Android.Event :=
  (map queueOf (videoSamples src) ++ [Android.QueueEndOfStream])%list.

(** The script of the source at a path; nothing when it does not open. *)
Definition scriptAt (h : Android.Host) (path : string) : list Android.Event :=
  match Android.dataSource h path with
  | Some src => feedScript src
  | None => []
  end.

Definition prefixOf {A} (l script : list A) : Prop :=
  exists rest, script = (l ++ rest)%list.

(** What the decoder has been fed in a job. *)
Definition feeds (j : Android.Job) : list Android.Event :=
  filter isFeed (Android.log j).

(** ** What the entry points let through *)

(** A native call whose arguments have passed the checks: paths and aspect
    ratios are non-empty strings, the position is not falsy, the angle is
    legal. *)
Definition validCall (c : JS.Call) : Prop :=
  match c with
  | JS.CallRotateVideo p a => validPath p /\ legalAngle a
  | JS.CallCropVideo p r pos =>
      validPath p /\ validPath r /\ JS.falsy pos = false
  | JS.CallCropAndRotateVideo p r pos a =>
      validPath p /\ validPath r /\ JS.falsy pos = false /\ legalAngle a
  end.

(** An entry point either throws without calling the native module, or makes
    the one valid [call] and ends as the native method ends, the message of
    an error prefixed. *)
Definition guarded (run : list JS.Call * JS.Outcome) (call : JS.Call)
    (prefix : string) (answer : JS.Outcome) : Prop :=
  (fst run = [] /\ exists message, snd run = JS.Throws message)
  \/ (fst run = [call] /\ validCall call /\ snd run = JS.rethrow prefix answer).

(** ** The objects of the texture renderer *)

(** The programs and textures that a log of calls has created (a program
    named 0 was not created), the ones it has deleted, and the shaders it
    has deleted. *)
Definition programsCreated (l : list GLES.Call) : list Z :=
  flat_map (fun c => match c with
                     | GLES.glCreateProgram p => if (p =? 0)%Z then [] else [p]
                     | _ => []
                     end) l.

Definition programsDeleted (l : list GLES.Call) : list Z :=
  flat_map (fun c => match c with
                     | GLES.glDeleteProgram p => [p]
                     | _ => []
                     end) l.

Definition texturesCreated (l : list GLES.Call) : list Z :=
  flat_map (fun c => match c with
                     | GLES.glGenTextures t => [t]
                     | _ => []
                     end) l.

Definition texturesDeleted (l : list GLES.Call) : list Z :=
  flat_map (fun c => match c with
                     | GLES.glDeleteTextures t => [t]
                     | _ => []
                     end) l.

Definition shadersDeleted (l : list GLES.Call) : list Z :=
  flat_map (fun c => match c with
                     | GLES.glDeleteShader s => [s]
                     | _ => []
                     end) l.
End Spec.

(* ===================================================================== *)
(** * Reasoning about jobs *)
(* ===================================================================== *)

Module Logic.
Import Android.

(** [hoare I P m Q]: from a job that satisfies [P], the step [m] either goes
    on with a value and a job related by [Q], or leaves the method in a job
    that satisfies [I]. *)
Definition hoare {A} (I P : Job -> Prop) (m : op A) (Q : A -> Job -> Prop)
  : Prop :=
  forall j, P j ->
    match m j with
    | (j', inl _) => I j'
    | (j', inr v) => Q v j'
    end.

(** The step keeps [I], however it ends. *)
Definition keeps {A} (I : Job -> Prop) (m : op A) : Prop :=
  hoare I I m (fun _ => I).

(** What every job of processVideoWithGL satisfies: its local
    [audioMuxerTrack] is never assigned; its calls on the muxer are in order
    and the flag [muxerStarted] is only set after a call of [start]; and when
    the source has an audio track the muxer is not started and nothing has
    been written. *)
Definition invariant (hasAudio : bool) (j : Job) : Prop :=
  audioMuxerTrack j = (-1)%Z
  /\ (exists s,
        Spec.observeAll hasAudio Spec.nothingSeen (log j) = Some s
        /\ (muxerStarted j = true -> Spec.startCalled s = true))
  /\ (hasAudio = true ->
      muxerStarted j = false
      /\ forall m, muxer j = Some m -> started m = false /\ written m = []).

(** The invariant, in a job whose log has the video track added. *)
Definition videoSeen (hasAudio : bool) (j : Job) : Prop :=
  invariant hasAudio j
  /\ exists s,
       Spec.observeAll hasAudio Spec.nothingSeen (log j) = Some s
       /\ Spec.videoAdded s = true.

(** A job whose log has the call of [start]. *)
Definition startSeen (hasAudio : bool) (j : Job) : Prop :=
  audioMuxerTrack j = (-1)%Z
  /\ exists s,
       Spec.observeAll hasAudio Spec.nothingSeen (log j) = Some s
       /\ Spec.startCalled s = true.
(** [frames F m]: the step [m] never changes the part [F] of the job,
    however it ends. *)
Definition frames {X A} (F : Job -> X) (m : op A) : Prop :=
  forall j, F (fst (m j)) = F j.

(** [throws m]: when the step [m] leaves the method, it is by an exception
    that the [catch] of processVideoWithGL turns into PROCESSING_ERROR. *)
Definition throws {A} (m : op A) : Prop :=
  forall j, match snd (m j) with
            | inl p => p = Flow.Rejected "PROCESSING_ERROR"
            | inr _ => True
            end.

(** The locals that only "Get encoded data" assigns. *)
Definition muxerSide (j : Job)
  : option MediaMuxer * Z * Z * bool * bool :=
  (muxer j, videoMuxerTrack j, audioMuxerTrack j, muxerStarted j, encoderDone j).

(** What "Feed decoder" reads and assigns. *)
Definition feedSide (j : Job) : list Event * MediaExtractor * bool :=
  (Spec.feeds j, extractor j, decoderDone j).



(** How the [try] block ends: with an exception when the source does not
    open, with NO_VIDEO_TRACK when it has no video track; otherwise resolved
    with the output path once the encoder has reported the end of its
    stream, or with an exception, or still polling an encoder that has
    not. *)
Definition tryOutcome (h : Host) (inputPath outputPath : string)
    (r : Job * (Flow.Promise + Flow.Promise)) : Prop :=
  match dataSource h inputPath with
  | None => snd r = inl (Flow.Rejected "PROCESSING_ERROR")
  | Some src =>
      match videoFormat (tracksOf src) with
      | None => snd r = inl (Flow.Rejected "NO_VIDEO_TRACK")
      | Some _ =>
          match snd r with
          | inl p =>
              p = Flow.Rejected "PROCESSING_ERROR"
              \/ (p = Flow.Pending /\ encoderDone (fst r) = false)
          | inr p => p = Flow.Resolved outputPath /\ encoderDone (fst r) = true
          end
      end
  end.

(** The muxer of a job on a source without audio track, and the locals
    that follow it: the flag [muxerStarted] tells whether the muxer has been
    started, and then its only track is the video track, number 0. *)
Definition coherent (j : Job) (m : MediaMuxer) : Prop :=
  muxer j = Some m
  /\ started m = muxerStarted j
  /\ (if muxerStarted j
      then videoMuxerTrack j = 0%Z /\ List.length (tracks m) = 1%nat
      else tracks m = []).

(** While the loop of processVideoWithGL runs on [src]: what has been fed,
    followed by the samples that the extractor has yet to read and by the
    end of the stream, is the script. *)
Definition feeding (src : Source) (j : Job) : Prop :=
  let ex := extractor j in
  selected ex = [videoTrackIndex (tracksOf src)]
  /\ if decoderDone j then Spec.feeds j = Spec.feedScript src
     else Spec.feedScript src
          = (Spec.feeds j
             ++ map Spec.queueOf (filter (isSelected ex) (remaining ex))
             ++ [QueueEndOfStream])%list.
End Logic.

(* ===================================================================== *)
(** * Concrete sources and platforms *)
(* ===================================================================== *)

Module Samples.
Import CG.
Local Open Scope string_scope.

(** A 1920x1080 track with no orientation metadata, and the same frame
    recorded in portrait (a 90 degree preferred transform). *)
Definition landscape : IOS.AVAssetTrack :=
  IOS.mkTrack (mkSize 1920 1080) identity.

Definition portrait : IOS.AVAssetTrack :=
  IOS.mkTrack (mkSize 1920 1080) (mkT 0 1 (-1) 0 1080 0).

Definition swiftDouble (s : string) : option R :=
  option_map Q2R (Text.decimal s).

(** An iOS host where every step succeeds, serving one video track. *)
Definition iosHost (track : IOS.AVAssetTrack) : IOS.Host :=
  IOS.mkHost (fun s => Some s)
             (fun _ => IOS.mkAsset [track] [])
             swiftDouble
             (fun _ => true) (fun _ => true) true IOS.completed
             "0000" "/tmp".

(** The same source, with another orientation in its metadata. *)
Definition withPreferredTransform (t : CGAffineTransform) (h : IOS.Host)
  : IOS.Host :=
  IOS.mkHost (IOS.URL h)
             (fun u =>
                let asset := IOS.AVAsset_url h u in
                IOS.mkAsset
                  (map (fun track => IOS.mkTrack (IOS.naturalSize track) t)
                       (IOS.videoTracks asset))
                  (IOS.audioTracks asset))
             (IOS.Double h)
             (IOS.addMutableTrack h) (IOS.insertTimeRange h)
             (IOS.exportSession h) (IOS.exportStatus h)
             (IOS.UUID h) (IOS.temporaryDirectory h).

Definition avc : Android.MediaFormat :=
  Android.mkFormat (Some "video/avc") 1000 1000 None.

Definition aac : Android.MediaFormat :=
  Android.mkFormat (Some "audio/mp4a-latm") 0 0 (Some 4096%Z).

Definition frame (t : Z) : Android.Sample := Android.mkSample 0 [1; 2; 3]%Z t 1.
Definition sound (t : Z) : Android.Sample := Android.mkSample 1 [7; 8]%Z t 1.

(** A clip with one video track and one audio track, two samples each. *)
Definition clip : Android.Source :=
  Android.mkSource [avc; aac] [frame 0; sound 0; frame 33333; sound 23220].

(** The same clip without its audio track. *)
Definition silentClip : Android.Source :=
  Android.mkSource [avc] [frame 0; frame 33333].

Definition noInfo : Android.BufferInfo := Android.mkInfo 0 0 0 0.

(** A run of the codecs: the encoder announces its format, delivers one
    encoded frame, and then its end of stream. *)
Definition encoderFormat : Android.Tick :=
  Android.mkTick 0 0 (Android.mkInfo 0 3 0 0) true
                 Android.INFO_OUTPUT_FORMAT_CHANGED noInfo [] avc.

Definition encodedFrame : Android.Tick :=
  Android.mkTick 0 0 (Android.mkInfo 0 3 33333 0) true
                 0 (Android.mkInfo 0 5 0 1) [9; 9; 9; 9; 9]%Z avc.

Definition encoderEnd : Android.Tick :=
  Android.mkTick 0 0 (Android.mkInfo 0 0 0 4) true
                 0 (Android.mkInfo 0 0 0 4) [] avc.

Definition androidHost (src : Android.Source) : Android.Host :=
  Android.mkHost (fun _ => true) Text.decimal (fun _ => Some src) true
                 [encoderFormat; encodedFrame; encoderEnd] "0000" "/cache".
(** An iOS host that serves [track] with an audio track beside it, and on
    which the audio track cannot be added to the composition. *)
Definition iosHostBrokenAudio (track : IOS.AVAssetTrack) : IOS.Host :=
  IOS.mkHost (fun s => Some s)
             (fun _ => IOS.mkAsset [track] [track])
             swiftDouble
             (fun m => match m with IOS.video => true | IOS.audio => false end)
             (fun _ => true) true IOS.completed
             "0000" "/tmp".

(** A JavaScript native module that always answers with a path. *)
Definition answering : JS.NativeModule :=
  JS.mkNative (fun _ _ => JS.Returns "out") (fun _ _ _ => JS.Returns "out")
              (fun _ _ _ _ => JS.Returns "out").
(** An OpenGL on which every call succeeds: shaders 1 and 2, program 3,
    texture 4; and the same with an error reported at one check. *)
Definition glHost : GLES.Host :=
  GLES.mkHost (fun shaderType =>
                 match shaderType with
                 | GLES.GL_VERTEX_SHADER => 1
                 | GLES.GL_FRAGMENT_SHADER => 2
                 end%Z)
              (fun _ => 1%Z) 3%Z (fun _ => 1%Z)
              (fun _ _ => 0%Z) (fun _ _ => 0%Z) 4%Z (fun _ => 0%Z).

Definition glHostWithError (op : string) : GLES.Host :=
  GLES.mkHost (GLES.createShader glHost) (GLES.compileStatus glHost)
              (GLES.createProgramName glHost) (GLES.linkStatus glHost)
              (GLES.attribLocation glHost) (GLES.uniformLocation glHost)
              (GLES.genTextures glHost)
              (fun label => if String.eqb label op then 1280%Z else 0%Z).
End Samples.

(* ===================================================================== *)
(** * Properties *)
(* ===================================================================== *)

Section RotationFacts.
Import CG.
Local Open Scope R_scope.

Lemma neg_half_pi : - PI / 2 = - (PI / 2).
Proof. lra. Qed.

Lemma rotated_quarter x0 y0 :
  rotated (translation x0 y0) (PI / 2) = mkT 0 1 (-1) 0 x0 y0.
Proof.
  unfold rotated, concatenating, rotation, translation; simpl.
  rewrite cos_PI2, sin_PI2. f_equal; lra.
Qed.

Lemma rotated_minus_quarter x0 y0 :
  rotated (translation x0 y0) (- (PI / 2)) = mkT 0 (-1) 1 0 x0 y0.
Proof.
  unfold rotated, concatenating, rotation, translation; simpl.
  rewrite cos_neg, sin_neg, cos_PI2, sin_PI2. f_equal; lra.
Qed.

Lemma rotated_half x0 y0 :
  rotated (translation x0 y0) PI = mkT (-1) 0 0 (-1) x0 y0.
Proof.
  unfold rotated, concatenating, rotation, translation; simpl.
  rewrite cos_PI, sin_PI. f_equal; lra.
Qed.

(** X2. Why the translations are there: whatever the angle, the transform
    of [rotateVideo] sends every point of the natural frame into the render
    rectangle. *)
Lemma rotateVideo_transform_covers (angle : Z) (W H px py : R) :
  0 <= px <= W -> 0 <= py <= H ->
  let r := IOS.rotateVideo_transform angle W H in
  let q := applying (px, py) (fst r) in
  0 <= fst q <= width (snd r) /\ 0 <= snd q <= height (snd r).
Proof.
  intros Hx Hy. unfold IOS.rotateVideo_transform.
  destruct (angle =? 90)%Z; [|destruct ((angle =? -90) || (angle =? 270))%Z;
                              [|destruct (angle =? 180)%Z]]; cbv zeta.
  - rewrite rotated_quarter. unfold applying; simpl. lra.
  - rewrite neg_half_pi, rotated_minus_quarter. unfold applying; simpl. lra.
  - rewrite rotated_half. unfold applying; simpl. lra.
  - unfold applying, identity; simpl. lra.
Qed.
End RotationFacts.

(** C1. For every natural size (W,H) the rotation-only calculation of
    [rotateVideo] returns the row of the specification's table for its angle:
    translate by (H,0) then rotate +90 degrees with render size (H,W) for 90;
    translate by (0,W) then rotate -90 degrees with render size (H,W) for -90
    and 270; translate by (W,H) then rotate 180 degrees with render size
    (W,H) for 180; the identity with render size (W,H) for any other angle. *)
Theorem rotateVideo_transform_table (angle : Z) (W H : R) :
  Spec.RotationOnly W H angle (IOS.rotateVideo_transform angle W H).
Proof.
  unfold IOS.rotateVideo_transform.
  destruct (Z.eqb_spec angle 90) as [->|n90]; [constructor|].
  destruct (Z.eqb_spec angle (-90)) as [->|nm90]; simpl.
  { rewrite neg_half_pi. constructor. }
  destruct (Z.eqb_spec angle 270) as [->|n270]; simpl.
  { rewrite neg_half_pi. constructor. }
  destruct (Z.eqb_spec angle 180) as [->|n180]; constructor; assumption.
Qed.

Section CropFacts.
Import CG IOS.
Local Open Scope R_scope.

Lemma cropDisplayDimensions_fits (t dW dH : R) :
  0 < dW -> 0 < dH -> 0 < t ->
  let cd := cropDisplayDimensions t dW dH in
  0 < fst cd <= dW /\ 0 < snd cd <= dH /\ fst cd / snd cd = t.
Proof.
  intros HW HH Ht. unfold cropDisplayDimensions.
  destruct (Rgt_dec t (dW / dH)) as [Hgt|Hle]; simpl.
  - assert (Hq : dW / t * t = dW) by (field; lra).
    assert (Hr : dW / dH * dH = dW) by (field; lra).
    assert (0 < dW / t) by (apply Rdiv_lt_0_compat; assumption).
    repeat split; try lra; try nra; try (field; lra).
  - assert (Hr : dW / dH * dH = dW) by (field; lra).
    assert (0 < dH * t) by nra.
    repeat split; try lra; try nra; try (field; lra).
Qed.



End CropFacts.

Section OrientationFacts.
Import CG IOS.
Local Open Scope R_scope.

Lemma Rltb_true (u v : R) : Rltb u v = true <-> u < v.
Proof.
  unfold Rltb. destruct (Rlt_dec u v); split; intros; try assumption;
    try reflexivity; try discriminate; contradiction.
Qed.

Lemma isRotated_quarterTurn (t : CGAffineTransform) :
  isRotated t = true <-> Spec.quarterTurn t.
Proof.
  unfold isRotated, Spec.quarterTurn.
  rewrite orb_true_iff, !Rltb_true. reflexivity.
Qed.

Lemma atan2_east : atan2 0 1 = 0.
Proof.
  unfold atan2. destruct (Rlt_dec 0 1) as [_|n]; [|lra].
  replace (0 / 1) with 0 by field. apply atan_0.
Qed.

Lemma atan2_north : atan2 1 0 = PI / 2.
Proof.
  unfold atan2.
  destruct (Rlt_dec 0 0) as [n|_]; [lra|].
  destruct (Rlt_dec 0 1) as [_|n]; [reflexivity|lra].
Qed.

Lemma isRotated_identity : isRotated identity = false.
Proof.
  unfold isRotated, identity; simpl. rewrite atan2_east.
  pose proof PI2_1 as Hpi.
  unfold Rltb.
  destruct (Rlt_dec (Rabs (0 - PI / 2)) (1 / 100)) as [H1|_].
  { exfalso. rewrite Rabs_left in H1 by lra. lra. }
  destruct (Rlt_dec (Rabs (0 + PI / 2)) (1 / 100)) as [H2|_].
  { exfalso. rewrite Rabs_right in H2 by lra. lra. }
  reflexivity.
Qed.

Lemma isRotated_quarter (x0 y0 : R) : isRotated (mkT 0 1 (-1) 0 x0 y0) = true.
Proof.
  apply isRotated_quarterTurn. left; simpl. rewrite atan2_north.
  replace (PI / 2 - PI / 2) with 0 by lra. rewrite Rabs_R0. lra.
Qed.
End OrientationFacts.

Section IOSRuns.
Import CG IOS Flow.
Local Open Scope R_scope.

(** The composition of rotateVideo reads the natural size of the track and
    nothing else. *)
Lemma rotateVideo_composition_natural (track : AVAssetTrack) (t : CGAffineTransform)
    (angle : Z) :
  rotateVideo_composition (mkTrack (naturalSize track) t) angle
  = rotateVideo_composition track angle.
Proof. reflexivity. Qed.

Lemma rotateVideo_composition_fields (track : AVAssetTrack) (angle : Z) :
  let r := rotateVideo_transform angle (width (naturalSize track))
             (height (naturalSize track)) in
  rotateVideo_composition track angle = mkComposition (fst r) None (snd r) (1, 30)%Z.
Proof.
  unfold rotateVideo_composition; simpl.
  destruct (rotateVideo_transform angle _ _); reflexivity.
Qed.

(** Whatever is exported is the composition that was handed over. *)
Lemma composeAndExport_export (h : Host) (asset : AVAsset)
    (vc vc' : VideoComposition) (out : string) :
  In (Export vc' out) (fst (composeAndExport h asset vc)) -> vc' = vc.
Proof.
  unfold composeAndExport, createComposition, export, bind, require, emit,
    ret, settle.
  destruct (addMutableTrack h video), (insertTimeRange h video),
    (hd_error (audioTracks asset)), (addMutableTrack h audio),
    (exportSession h); simpl; intros Hin;
    repeat (destruct Hin as [Hin|Hin]; try discriminate; try contradiction);
    injection Hin as <- _; reflexivity.
Qed.

(** The three methods open the source the same way. *)
Lemma openVideoTrack_cases (h : Host) (inputPath : string) :
  openVideoTrack h inputPath =
  match URL h (fileURL inputPath) with
  | None => ([], inl (Rejected "INVALID_PATH"))
  | Some url =>
      match hd_error (videoTracks (AVAsset_url h url)) with
      | None => ([OpenAsset url; ReadTracks video], inl (Rejected "NO_VIDEO_TRACK"))
      | Some track =>
          ([OpenAsset url; ReadTracks video], inr (AVAsset_url h url, track))
      end
  end.
Proof.
  unfold openVideoTrack, bind, orReject, emit, ret, settle.
  destruct (URL h (fileURL inputPath)) as [url|]; simpl; [|reflexivity].
  destruct (hd_error (videoTracks (AVAsset_url h url))); reflexivity.
Qed.

Lemma rotateVideo_export (h : Host) (inputPath : string) (angle : Z)
    (vc : VideoComposition) (out : string) :
  In (Export vc out) (fst (rotateVideo h inputPath angle)) ->
  exists url track,
    URL h (fileURL inputPath) = Some url /\
    hd_error (videoTracks (AVAsset_url h url)) = Some track /\
    vc = rotateVideo_composition track angle.
Proof.
  unfold rotateVideo, bind. rewrite openVideoTrack_cases.
  destruct (URL h (fileURL inputPath)) as [url|] eqn:Hurl; simpl; [|tauto].
  destruct (hd_error (videoTracks (AVAsset_url h url))) as [track|] eqn:Htrack;
    simpl.
  2:{ intros [H|[H|[]]]; discriminate. }
  intros Hin. exists url, track. split; [reflexivity|]. split; [assumption|].
  pose proof (composeAndExport_export h (AVAsset_url h url)
                (rotateVideo_composition track angle) vc out) as Hexp.
  destruct (composeAndExport h (AVAsset_url h url)
              (rotateVideo_composition track angle)) as [log r].
  apply Hexp. simpl.
  destruct r; simpl in Hin;
    repeat (destruct Hin as [Hin|Hin]; try discriminate); assumption.
Qed.

Lemma hd_error_map {A B} (f : A -> B) (l : list A) :
  hd_error (map f l) = option_map f (hd_error l).
Proof. destruct l; reflexivity. Qed.
End IOSRuns.

(** C10. In a rotation-only operation the transform set on the layer
    instruction is exactly the freshly computed rotation matrix of the
    natural frame: the track's preferred transform takes no part in it, so
    that replacing the orientation metadata of the source by any other
    transform changes nothing in what rotateVideo does. *)
Theorem rotateVideo_discards_preferredTransform
    (h : IOS.Host) (inputPath : string) (angle : Z) :
  (forall t : CG.CGAffineTransform,
     IOS.rotateVideo (Samples.withPreferredTransform t h) inputPath angle
     = IOS.rotateVideo h inputPath angle)
  /\ (forall vc out,
        In (IOS.Export vc out) (fst (IOS.rotateVideo h inputPath angle)) ->
        exists url track,
          IOS.URL h (IOS.fileURL inputPath) = Some url /\
          hd_error (IOS.videoTracks (IOS.AVAsset_url h url)) = Some track /\
          let r := IOS.rotateVideo_transform angle
                     (CG.width (IOS.naturalSize track))
                     (CG.height (IOS.naturalSize track)) in
          IOS.layerTransform vc = fst r /\
          IOS.cropRectangle vc = None /\
          IOS.renderSize vc = snd r).
Proof.
  split.
  - intros t.
    unfold IOS.rotateVideo, Flow.bind. rewrite !openVideoTrack_cases; simpl.
    destruct (IOS.URL h (IOS.fileURL inputPath)) as [url|]; simpl; [|reflexivity].
    rewrite hd_error_map.
    destruct (hd_error (IOS.videoTracks (IOS.AVAsset_url h url))) as [track|];
      simpl; [|reflexivity].
    rewrite rotateVideo_composition_natural. reflexivity.
  - intros vc out Hin.
    destruct (rotateVideo_export _ _ _ _ _ Hin) as (url & track & Hu & Ht & ->).
    exists url, track. split; [assumption|]. split; [assumption|].
    rewrite rotateVideo_composition_fields. simpl. auto.
Qed.

(** The witness of C10: a 1920x1080 track recorded in portrait (a 90 degree
    preferred transform), rotated by 90. The exported transform is the
    rotation of the natural frame and the render size is 1080x1920, as for a
    track with no orientation metadata. *)
Lemma rotateVideo_discards_preferredTransform_witness :
  exists vc out,
    In (IOS.Export vc out)
       (fst (IOS.rotateVideo (Samples.iosHost Samples.portrait) "/video.mp4" 90))
    /\ IOS.layerTransform vc = fst (IOS.rotateVideo_transform 90 1920 1080)
    /\ IOS.cropRectangle vc = None
    /\ IOS.renderSize vc = CG.mkSize 1080 1920.
Proof.
  assert (Hin : In (IOS.Export (IOS.rotateVideo_composition Samples.portrait 90)
                      "/tmp/transformed_0000.mp4")
                   (fst (IOS.rotateVideo (Samples.iosHost Samples.portrait)
                           "/video.mp4" 90))).
  { unfold IOS.rotateVideo, Flow.bind. rewrite openVideoTrack_cases.
    simpl. do 5 right. left. reflexivity. }
  eexists. eexists. split; [exact Hin|].
  destruct (proj2 (rotateVideo_discards_preferredTransform
                     (Samples.iosHost Samples.portrait) "/video.mp4" 90)
              _ _ Hin) as (url & track & _ & Htrack & Hl & Hc & Hr).
  simpl in Htrack. injection Htrack as <-.
  split; [exact Hl|]. split; [exact Hc|]. exact Hr.
Defined.

Section AndroidCropFacts.
Import Android.
Local Open Scope Z_scope.

Lemma wrap32_small (z : Z) : - 2 ^ 31 <= z < 2 ^ 31 -> wrap32 z = z.
Proof.
  intros Hz. unfold wrap32. rewrite Z.mod_small; lia.
Qed.

Lemma half_bounds (z : Z) : 0 <= z -> 0 <= Z.quot z 2 <= z.
Proof.
  intros Hz. rewrite Z.quot_div_nonneg by lia. split.
  - apply Z.div_pos; lia.
  - apply Z.div_le_upper_bound; lia.
Qed.

Lemma minus_small (u v : Z) :
  0 <= v <= u -> u < 2 ^ 31 -> minus u v = u - v.
Proof. intros Hv Hu. unfold minus. apply wrap32_small. lia. Qed.

Lemma div_half_small (z : Z) :
  0 <= z < 2 ^ 31 -> div z 2 = Z.quot z 2 /\ 0 <= Z.quot z 2 <= z.
Proof.
  intros Hz. pose proof (half_bounds (z := z) (proj1 Hz)) as Hh.
  split; [|assumption]. unfold div. apply wrap32_small. lia.
Qed.

(** On a non-negative value within [Int], [toInt] is the floor. *)
Lemma toInt_floor (q : Q) :
  (0 <= q)%Q -> Qfloor q < 2 ^ 31 -> toInt q = Qfloor q /\ 0 <= Qfloor q.
Proof.
  intros Hq Hlt.
  assert (Hn : 0 <= Qnum q).
  { unfold Qle in Hq; simpl in Hq. lia. }
  assert (Hf : Z.quot (Qnum q) (Zpos (Qden q)) = Qfloor q).
  { destruct q as [n dq]; simpl in *. apply Z.quot_div_nonneg; lia. }
  assert (H0 : 0 <= Qfloor q).
  { destruct q as [n dq]; simpl in *. apply Z.div_pos; lia. }
  split; [|assumption]. unfold toInt. rewrite Hf. lia.
Qed.

Lemma Qdiv_lt_swap (u v w : Q) :
  (0 < v -> 0 < w -> u / v < w -> u / w < v)%Q.
Proof.
  intros Hv Hw H.
  apply Qlt_shift_div_r; [assumption|].
  assert (E : (u == u / v * v)%Q) by (field; lra).
  rewrite E. rewrite (Qmult_comm v w). apply Qmult_lt_compat_r; assumption.
Qed.

Lemma Qdiv_le_swap (u v w : Q) :
  (0 < v -> 0 < w -> w <= u / v -> v * w <= u)%Q.
Proof.
  intros Hv Hw H.
  assert (E : (u == u / v * v)%Q) by (field; lra).
  rewrite E. rewrite (Qmult_comm v w). apply Qmult_le_compat_r; lra.
Qed.

Lemma gt_true (p q : Q) : gt p q = true <-> (q < p)%Q.
Proof.
  unfold gt. rewrite negb_true_iff. split.
  - intros H. apply Qnot_le_lt. intros Hle.
    apply Qle_bool_iff in Hle. congruence.
  - intros H. destruct (Qle_bool p q) eqn:E; [|reflexivity].
    apply Qle_bool_iff in E. lra.
Qed.

Lemma gt_false (p q : Q) : gt p q = false <-> (p <= q)%Q.
Proof.
  unfold gt. rewrite negb_false_iff. apply Qle_bool_iff.
Qed.

(** The crop size of calculateCropRect, for a frame and a ratio that are
    positive: one side is the full side of the frame, the other is the floor
    of the exact value and fits in the frame. *)
Lemma calculateCropRect_size (W H : Z) (target : Q) (position : string) :
  0 < W < 2 ^ 31 -> 0 < H < 2 ^ 31 -> (0 < target)%Q ->
  let r := calculateCropRect W H target position in
  0 <= width r <= W /\ 0 <= height r <= H /\
  ((width r = W /\ height r = Qfloor (inject_Z W / target)
    /\ (inject_Z W / inject_Z H < target)%Q)
   \/ (height r = H /\ width r = Qfloor (inject_Z H * target)
       /\ (target <= inject_Z W / inject_Z H)%Q)).
Proof.
  intros HW HH Ht.
  assert (HWq : (0 < inject_Z W)%Q) by (unfold Qlt; simpl; lia).
  assert (HHq : (0 < inject_Z H)%Q) by (unfold Qlt; simpl; lia).
  unfold calculateCropRect, toDouble.
  destruct (gt target (inject_Z W / inject_Z H)) eqn:Hgt.
  - apply gt_true in Hgt.
    assert (Hlt : (inject_Z W / target < inject_Z H)%Q)
      by (apply Qdiv_lt_swap; assumption).
    assert (Hpos : (0 <= inject_Z W / target)%Q).
    { apply Qle_shift_div_l; [assumption|]. lra. }
    assert (Hfl : Qfloor (inject_Z W / target) < H).
    { rewrite Zlt_Qlt. eapply Qle_lt_trans; [apply Qfloor_le|assumption]. }
    destruct (toInt_floor Hpos) as [Hti H0]; [lia|].
    rewrite Hti.
    repeat match goal with
           | |- context [String.eqb ?u ?v] => destruct (String.eqb u v)
           end; cbv beta iota zeta delta [width height];
      (split; [lia|]); (split; [lia|]); left; auto.
  - apply gt_false in Hgt.
    assert (Hle : (inject_Z H * target <= inject_Z W)%Q)
      by (apply Qdiv_le_swap; assumption).
    assert (Hpos : (0 <= inject_Z H * target)%Q).
    { apply Qmult_le_0_compat; lra. }
    assert (Hfl : Qfloor (inject_Z H * target) <= W).
    { rewrite Zle_Qle. eapply Qle_trans; [apply Qfloor_le|assumption]. }
    destruct (toInt_floor Hpos) as [Hti H0]; [lia|].
    rewrite Hti.
    repeat match goal with
           | |- context [String.eqb ?u ?v] => destruct (String.eqb u v)
           end; cbv beta iota zeta delta [width height];
      (split; [lia|]); (split; [lia|]); right; auto.
Qed.

(** The origin of calculateCropRect in terms of the crop size. *)
Lemma calculateCropRect_origin (W H : Z) (target : Q) (position : string) :
  let r := calculateCropRect W H target position in
  let p := Text.lowercased position in
  let cx := div (minus W (width r)) 2 in
  let cy := div (minus H (height r)) 2 in
  let rx := minus W (width r) in
  let ry := minus H (height r) in
  (x r, y r) =
  if String.eqb p "center" then (cx, cy)
  else if String.eqb p "top" then (cx, 0)
  else if String.eqb p "bottom" then (cx, ry)
  else if String.eqb p "left" then (0, cy)
  else if String.eqb p "right" then (rx, cy)
  else if String.eqb p "top-left" then (0, 0)
  else if String.eqb p "top-right" then (rx, 0)
  else if String.eqb p "bottom-left" then (0, ry)
  else if String.eqb p "bottom-right" then (rx, ry)
  else (cx, cy).
Proof.
  unfold calculateCropRect.
  destruct (gt target (toDouble W / toDouble H));
    repeat match goal with
           | |- context [String.eqb ?u ?v] => destruct (String.eqb u v)
           end; reflexivity.
Qed.

Lemma calculateCropRect_inside (W H : Z) (target : Q) (position : string) :
  0 < W < 2 ^ 31 -> 0 < H < 2 ^ 31 -> (0 < target)%Q ->
  let r := calculateCropRect W H target position in
  0 <= x r /\ x r + width r <= W /\ 0 <= y r /\ y r + height r <= H.
Proof.
  intros HW HH Ht r.
  destruct (calculateCropRect_size position HW HH Ht) as (Hw & Hh & _).
  fold r in Hw, Hh.
  pose proof (calculateCropRect_origin W H target position) as Ho.
  cbv zeta in Ho. fold r in Ho.
  rewrite !minus_small in Ho by lia.
  destruct (div_half_small (z := W - width r)) as [Ex Bx]; [lia|].
  destruct (div_half_small (z := H - height r)) as [Ey By]; [lia|].
  rewrite Ex, Ey in Ho.
  repeat match type of Ho with
         | context [String.eqb ?u ?v] => destruct (String.eqb u v)
         end; injection Ho as -> ->; lia.
Qed.
End AndroidCropFacts.

Section IOSCropRuns.
Import CG IOS Flow.
Local Open Scope R_scope.


(** The geometry of a frame without orientation metadata, for a target
    that is not wider than the frame. *)
Lemma cropGeometry_upright origin (W H : R) (pt : CGAffineTransform)
    (target : R) (p : string) :
  isRotated pt = false -> ~ target > W / H ->
  cropGeometry origin (mkTrack (mkSize W H) pt) target p
  = (mkRect (fst (origin p (mkSize W H) (H * target) H))
            (snd (origin p (mkSize W H) (H * target) H))
            (H * target) H,
     mkSize (H * target) H).
Proof.
  intros Hrot Hgt.
  unfold cropGeometry, displayDimensions, cropDisplayDimensions,
    cropNaturalDimensions; simpl.
  rewrite Hrot; simpl.
  destruct (Rgt_dec target (W / H)); [contradiction|]; simpl.
  destruct (origin p _ _ _); reflexivity.
Qed.




End IOSCropRuns.







Section AnchorFacts.
Import CG IOS.
Local Open Scope R_scope.

(** The anchors of cropVideo on iOS: the three of the specification. *)
Lemma cropVideo_origin_anchors (W H cw ch : R) :
  cropVideo_origin "top-left" (mkSize W H) cw ch = (0, 0)
  /\ cropVideo_origin "bottom-right" (mkSize W H) cw ch = (W - cw, H - ch)
  /\ cropVideo_origin "center" (mkSize W H) cw ch = ((W - cw) / 2, (H - ch) / 2).
Proof. repeat split; reflexivity. Qed.

(** The anchors of calculateCropRect on Android. *)
Lemma calculateCropRect_anchors (W H : Z) (target : Q) :
  let tl := Android.calculateCropRect W H target "top-left" in
  let br := Android.calculateCropRect W H target "bottom-right" in
  let ce := Android.calculateCropRect W H target "center" in
  (Android.x tl = 0 /\ Android.y tl = 0)%Z
  /\ (Android.x br = Android.minus W (Android.width br)
      /\ Android.y br = Android.minus H (Android.height br))
  /\ (Android.x ce = Android.div (Android.minus W (Android.width ce)) 2
      /\ Android.y ce = Android.div (Android.minus H (Android.height ce)) 2).
Proof.
  unfold Android.calculateCropRect.
  destruct (Android.gt target (Android.toDouble W / Android.toDouble H));
    simpl; repeat split; reflexivity.
Qed.

(** In cropAndRotateVideo every anchor but top and bottom is the centre. *)
Lemma cropAndRotateVideo_origin_corners (size : CGSize) (cw ch : R) :
  cropAndRotateVideo_origin "top-left" size cw ch
  = cropAndRotateVideo_origin "center" size cw ch
  /\ cropAndRotateVideo_origin "bottom-right" size cw ch
     = cropAndRotateVideo_origin "center" size cw ch.
Proof. split; reflexivity. Qed.

Lemma landscape_not_wider : ~ 1 > 1920 / 1080.
Proof. lra. Qed.
End AnchorFacts.

(** C4, at the failing input: a 1920x1080 track cropped to 1:1. cropVideo
    puts the anchors top-left and bottom-right at x = 0 and x = 840;
    cropAndRotateVideo, whose switch has no case for them, puts both at the
    centre, x = 420. *)
Theorem cropAndRotateVideo_corner_anchors_centered :
  let corner p := CG.x (fst (IOS.cropVideo_geometry Samples.landscape 1 p)) in
  let both p := CG.x (fst (IOS.cropAndRotateVideo_geometry Samples.landscape 1 p)) in
  (corner "top-left"%string = 0 /\ corner "bottom-right"%string = 840
   /\ both "top-left"%string = 420 /\ both "bottom-right"%string = 420)%R.
Proof.
  unfold IOS.cropVideo_geometry, IOS.cropAndRotateVideo_geometry,
    Samples.landscape.
  rewrite !(cropGeometry_upright _ _ _ isRotated_identity landscape_not_wider).
  simpl. repeat split; lra.
Qed.

Section SquareCrop.
Import CG IOS.
Local Open Scope R_scope.



End SquareCrop.


Section EntryPointFacts.
Import JS.

Lemma includes_legal (angle : Value) :
  includes validAngles angle = true <-> Spec.legalAngle angle.
Proof.
  unfold includes, validAngles, Spec.legalAngle; simpl.
  rewrite orb_false_r, !orb_true_iff. split.
  - destruct angle; simpl; try (intuition discriminate).
    rewrite !Qeq_bool_iff. intros H. exists q. split; [reflexivity|]. tauto.
  - intros (q & -> & H). simpl. rewrite !Qeq_bool_iff. tauto.
Qed.

Lemma includes_illegal (angle : Value) :
  ~ Spec.legalAngle angle -> includes validAngles angle = false.
Proof.
  intros H. destruct (includes validAngles angle) eqn:E; [|reflexivity].
  apply includes_legal in E. contradiction.
Qed.
End EntryPointFacts.

(** C8. A rotation request (rotateVideo, and cropAndRotateVideo likewise)
    whose angle is not one of 90, -90, 180, 270 is rejected: the entry point
    throws before the native module is called, so nothing is produced; when
    the path argument is in order the error is the one that lists the legal
    angles. *)
Theorem illegal_angle_rejected (VideoTransformer : JS.NativeModule)
    (inputPath aspectRatio position angle : JS.Value) :
  ~ Spec.legalAngle angle ->
  (exists message,
     JS.rotateVideo VideoTransformer inputPath angle = ([], JS.Throws message)
     /\ (JS.falsy inputPath || JS.notString inputPath = false ->
         message = "angle must be one of: 90, -90, 180, 270"%string))
  /\ (exists message,
        JS.cropAndRotateVideo VideoTransformer inputPath aspectRatio angle position
        = ([], JS.Throws message)).
Proof.
  intros Hangle. apply includes_illegal in Hangle.
  unfold JS.rotateVideo, JS.cropAndRotateVideo. rewrite Hangle; simpl. split.
  - destruct (JS.falsy inputPath || JS.notString inputPath);
      eexists; (split; [reflexivity|]); intros; congruence.
  - destruct (JS.falsy inputPath || JS.notString inputPath);
      [|destruct (JS.falsy aspectRatio || JS.notString aspectRatio)];
      eexists; reflexivity.
Qed.

(** The witness of C8: the angle 45, on a native module that would have
    answered. *)
Lemma illegal_angle_rejected_witness :
  ~ Spec.legalAngle (JS.Number 45)
  /\ JS.rotateVideo
       (JS.mkNative (fun _ _ => JS.Returns "out") (fun _ _ _ => JS.Returns "out")
                    (fun _ _ _ _ => JS.Returns "out"))
       (JS.Str "/video.mp4") (JS.Number 45)
     = ([], JS.Throws "angle must be one of: 90, -90, 180, 270").
Proof.
  assert (H45 : ~ Spec.legalAngle (JS.Number 45)).
  { intros (q & E & H). injection E as <-. unfold Qeq in H; simpl in H. lia. }
  split; [exact H45|].
  destruct (illegal_angle_rejected
              (JS.mkNative (fun _ _ => JS.Returns "out")
                           (fun _ _ _ => JS.Returns "out")
                           (fun _ _ _ _ => JS.Returns "out"))
              (JS.Str "/video.mp4") (JS.Str "1:1") JS.Undefined
              H45) as [(message & Hrun & Hmsg) _].
  rewrite Hrun. rewrite (Hmsg eq_refl). reflexivity.
Defined.

Section AspectRatioFacts.
Import Flow.


(** A run of cropVideo in which every step of the host succeeds. *)
Lemma cropVideo_succeeds (h : IOS.Host) (inputPath aspectRatio position : string)
    (url : string) (track : IOS.AVAssetTrack) (wr hr : R) :
  IOS.URL h (IOS.fileURL inputPath) = Some url ->
  hd_error (IOS.videoTracks (IOS.AVAsset_url h url)) = Some track ->
  IOS.parseAspectRatio h aspectRatio = Some (wr, hr) ->
  IOS.addMutableTrack h IOS.video = true ->
  IOS.insertTimeRange h IOS.video = true ->
  IOS.exportSession h = true -> IOS.exportStatus h = IOS.completed ->
  exists log out,
    IOS.cropVideo h inputPath aspectRatio position = (log, Resolved out)
    /\ In (IOS.Export (IOS.cropVideo_composition track (wr / hr) position) out) log.
Proof.
  intros Hu Ht Hp Ha Hi He Hs.
  unfold IOS.cropVideo, bind. rewrite openVideoTrack_cases, Hu, Ht, Hp.
  unfold IOS.composeAndExport, IOS.createComposition, IOS.export, orReject,
    bind, require, emit, ret, settle, run.
  rewrite Ha, Hi, He, Hs.
  destruct (hd_error (IOS.audioTracks (IOS.AVAsset_url h url)));
    [destruct (IOS.addMutableTrack h IOS.audio)|]; simpl;
    eexists; eexists; (split; [reflexivity|]); simpl; intuition.
Qed.


End AspectRatioFacts.




Section JobLogic.
Import Android Logic.
Variable I : Job -> Prop.

Lemma hoare_ret {A} (P : Job -> Prop) (v : A) : hoare I P (ret v) (fun _ => P).
Proof. intros j Hj. exact Hj. Qed.

Lemma hoare_leave {A} (P : Job -> Prop) (p : Flow.Promise) (Q : A -> Job -> Prop) :
  (forall j, P j -> I j) -> hoare I P (leave p) Q.
Proof. intros HP j Hj. apply HP, Hj. Qed.

Lemma hoare_gets {A} (P : Job -> Prop) (f : Job -> A) :
  hoare I P (gets f) (fun v j => v = f j /\ P j).
Proof. intros j Hj. simpl. auto. Qed.

Lemma hoare_modify (P Q : Job -> Prop) (f : Job -> Job) :
  (forall j, P j -> Q (f j)) -> hoare I P (modify f) (fun _ => Q).
Proof. intros HP j Hj. apply HP, Hj. Qed.

Lemma hoare_bind {A B} (P : Job -> Prop) (m : op A) (Q : A -> Job -> Prop)
    (k : A -> op B) (R : B -> Job -> Prop) :
  hoare I P m Q -> (forall v, hoare I (Q v) (k v) R) -> hoare I P (bind m k) R.
Proof.
  intros Hm Hk j Hj. unfold bind. specialize (Hm j Hj).
  destruct (m j) as [j' [p|v]]; [exact Hm|]. apply (Hk v j' Hm).
Qed.

Lemma hoare_weaken {A} (P P' : Job -> Prop) (m : op A) (Q Q' : A -> Job -> Prop) :
  hoare I P' m Q' -> (forall j, P j -> P' j) -> (forall v j, Q' v j -> Q v j) ->
  hoare I P m Q.
Proof.
  intros Hm HP HQ j Hj. specialize (Hm j (HP j Hj)).
  destruct (m j) as [j' [p|v]]; [exact Hm|]. apply HQ, Hm.
Qed.

Lemma hoare_orThrow {A} (P : Job -> Prop) (o : option A) :
  (forall j, P j -> I j) -> hoare I P (orThrow o) (fun v j => o = Some v /\ P j).
Proof.
  intros HP j Hj. destruct o; simpl; [auto|]. apply HP, Hj.
Qed.

(** A muxer call from a job that satisfies [P]: when the muxer refuses, the
    job is left as it is; when it accepts, only the muxer changes. *)
Lemma hoare_onMuxer {A} (P Q : Job -> Prop)
    (call : MediaMuxer -> option (A * MediaMuxer)) :
  (forall j, P j -> I j) ->
  (forall j m v m', P j -> muxer j = Some m -> call m = Some (v, m') ->
     Q (mkJob (log j) (extractor j) (Some m') (videoMuxerTrack j)
          (audioMuxerTrack j) (muxerStarted j) (decoderDone j) (encoderDone j))) ->
  hoare I P (onMuxer call) (fun _ => Q).
Proof.
  intros HP HQ j Hj. unfold onMuxer, bind, gets, orThrow, setMuxer, modify,
    throw, leave, ret; simpl.
  destruct (muxer j) as [m|] eqn:Hm; [|apply HP, Hj].
  destruct (call m) as [[v m']|] eqn:Hc; [|apply HP, Hj].
  simpl. apply (HQ j m v m' Hj Hm Hc).
Qed.

Lemma keeps_ret {A} (v : A) : keeps I (ret v).
Proof. apply hoare_ret. Qed.

Lemma keeps_leave {A} (p : Flow.Promise) : keeps I (@leave A p).
Proof. apply hoare_leave. auto. Qed.

Lemma keeps_gets {A} (f : Job -> A) : keeps I (gets f).
Proof. intros j Hj. exact Hj. Qed.

Lemma keeps_bind {A B} (m : op A) (k : A -> op B) :
  keeps I m -> (forall v, keeps I (k v)) -> keeps I (bind m k).
Proof. intros Hm Hk. eapply hoare_bind; [exact Hm|exact Hk]. Qed.

Lemma keeps_orThrow {A} (o : option A) : keeps I (orThrow o).
Proof.
  eapply hoare_weaken; [apply (hoare_orThrow I o)| |]; simpl; auto.
  intros v j [_ H]; exact H.
Qed.
End JobLogic.

Section PipelineFacts.
Import Android Logic.
Variable hasAudio : bool.

Lemma observeAll_app (s : Spec.Seen) (l1 l2 : list Event) :
  Spec.observeAll hasAudio s (l1 ++ l2) =
  match Spec.observeAll hasAudio s l1 with
  | Some s' => Spec.observeAll hasAudio s' l2
  | None => None
  end.
Proof.
  revert s. induction l1 as [|e l1 IH]; intros s; simpl; [reflexivity|].
  destruct (Spec.observe hasAudio s e); [apply IH|reflexivity].
Qed.

(** An event that the order of the muxer calls always allows. *)
Lemma invariant_emit (e : Event) :
  (forall s, exists s',
     Spec.observe hasAudio s e = Some s'
     /\ (Spec.startCalled s = true -> Spec.startCalled s' = true)) ->
  keeps (invariant hasAudio) (emit e).
Proof.
  intros Hq. unfold emit. apply hoare_modify.
  intros j (Ha & (s & Hs & Hst) & Hm). unfold invariant; simpl.
  split; [exact Ha|]. split; [|exact Hm].
  destruct (Hq s) as (s' & Ho & Hmono). exists s'.
  rewrite observeAll_app, Hs. simpl. rewrite Ho. split; auto.
Qed.

(** An assignment to a local that the invariant does not mention. *)
Lemma invariant_modify (f : Job -> Job) :
  (forall j, log (f j) = log j /\ audioMuxerTrack (f j) = audioMuxerTrack j
             /\ muxerStarted (f j) = muxerStarted j /\ muxer (f j) = muxer j) ->
  keeps (invariant hasAudio) (modify f).
Proof.
  intros Hf. apply hoare_modify. intros j Hj.
  destruct (Hf j) as (Hl & Ha & Hs & Hm).
  unfold invariant. rewrite Hl, Ha, Hs, Hm. exact Hj.
Qed.

(** A muxer call that, on a source with audio, leaves the muxer stopped and
    empty. *)
Lemma invariant_onMuxer {A} (call : MediaMuxer -> option (A * MediaMuxer)) :
  (hasAudio = true -> forall m v m',
     started m = false -> written m = [] -> call m = Some (v, m') ->
     started m' = false /\ written m' = []) ->
  keeps (invariant hasAudio) (onMuxer call).
Proof.
  intros Hcall. apply hoare_onMuxer; [auto|].
  intros j m v m' (Ha & Hlog & Hmux) Hm Hc. unfold invariant; simpl.
  split; [exact Ha|]. split; [exact Hlog|].
  intros Haudio. destruct (Hmux Haudio) as [Hst Hw]. split; [exact Hst|].
  intros m0 [= <-]. destruct (Hw m Hm) as [H1 H2].
  apply (Hcall Haudio m v m' H1 H2 Hc).
Qed.

Lemma addTrack_calm (fmt : MediaFormat) (m : MediaMuxer) (v : Z) (m' : MediaMuxer) :
  started m = false -> written m = [] -> addTrack fmt m = Some (v, m') ->
  started m' = false /\ written m' = [].
Proof.
  intros Hs Hw. unfold addTrack. rewrite Hs. intros [= _ <-]. simpl. auto.
Qed.

Lemma writeSampleData_calm (track : Z) (payload : list Z) (info : BufferInfo)
    (m : MediaMuxer) (v : unit) (m' : MediaMuxer) :
  started m = false -> written m = [] ->
  writeSampleData track payload info m = Some (v, m') ->
  started m' = false /\ written m' = [].
Proof.
  intros Hs Hw. unfold writeSampleData. rewrite Hs. simpl. discriminate.
Qed.

Ltac quiet :=
  let s := fresh "s" in
  intros s; eexists; split; [reflexivity|]; simpl; auto.

Ltac untouched :=
  let j := fresh "j" in intros j; simpl; auto.

Ltac keep :=
  repeat match goal with
    | |- hoare ?I ?I ?m (fun _ => ?I) => change (keeps I m)
    | |- keeps _ (ret _) => apply keeps_ret
    | |- keeps _ (leave _) => apply keeps_leave
    | |- keeps _ throw => apply keeps_leave
    | |- keeps _ (gets _) => apply keeps_gets
    | |- keeps _ (orThrow _) => apply keeps_orThrow
    | |- keeps _ (emit _) => apply invariant_emit; quiet
    | |- keeps _ (modify _) => apply invariant_modify; untouched
    | |- keeps _ (onMuxer (addTrack _)) =>
        apply invariant_onMuxer; intros _ ? ? ?; apply addTrack_calm
    | |- keeps _ (onMuxer (writeSampleData _ _ _)) =>
        apply invariant_onMuxer; intros _ ? ? ?; apply writeSampleData_calm
    | |- keeps _ (bind _ _) => apply keeps_bind; [|intros ?]
    | |- keeps _ (if ?c then _ else _) => destruct c
    | |- keeps _ (match ?o with _ => _ end) => destruct o
    end.

Lemma feedDecoder_keeps (t : Tick) : keeps (invariant hasAudio) (feedDecoder t).
Proof. unfold feedDecoder, setDecoderDone, setExtractor. keep. Qed.

Lemma renderDecoded_keeps (rotationAngle : Z) (t : Tick) :
  keeps (invariant hasAudio) (renderDecoded rotationAngle t).
Proof. unfold renderDecoded, throw. keep. Qed.
(** The job after a call that only extends the log. *)
Lemma invariant_log (j : Job) (e : Event) (s s' : Spec.Seen) :
  invariant hasAudio j ->
  Spec.observeAll hasAudio Spec.nothingSeen (log j) = Some s ->
  Spec.observe hasAudio s e = Some s' ->
  (Spec.startCalled s = true -> Spec.startCalled s' = true) ->
  invariant hasAudio (fst (emit e j))
  /\ Spec.observeAll hasAudio Spec.nothingSeen (log (fst (emit e j))) = Some s'.
Proof.
  intros (Ha & (s0 & Hs0 & Hst) & Hm) Hs Ho Hmono.
  rewrite Hs in Hs0. injection Hs0 as <-.
  assert (Hlog : Spec.observeAll hasAudio Spec.nothingSeen (log j ++ [e]) = Some s').
  { rewrite observeAll_app, Hs. simpl. rewrite Ho. reflexivity. }
  split; [|exact Hlog].
  unfold invariant; simpl. split; [exact Ha|]. split; [|exact Hm].
  exists s'. split; [exact Hlog|]. auto.
Qed.

(** The call of [start] and what follows it, on a source without audio. *)
Lemma startMuxer_hoare :
  hasAudio = false ->
  hoare (invariant hasAudio) (videoSeen hasAudio)
    (bind (emit Start) (fun _ => bind (onMuxer start) (fun _ => setMuxerStarted true)))
    (fun _ => invariant hasAudio).
Proof.
  intros Hno.
  assert (Hweak : forall j, startSeen hasAudio j -> invariant hasAudio j).
  { intros j (Ha & s & Hs & Hseen). unfold invariant.
    split; [exact Ha|]. split; [eauto|]. intros Htrue; congruence. }
  apply hoare_bind with (Q := fun _ => startSeen hasAudio).
  - unfold emit. apply hoare_modify.
    intros j ((Ha & _ & _) & s & Hs & Hv). split; [exact Ha|]. simpl.
    exists (Spec.mkSeen (Spec.videoAdded s) (Spec.audioAdded s) true).
    split; [|reflexivity].
    rewrite observeAll_app, Hs. simpl. rewrite Hv, Hno. reflexivity.
  - intros ?. apply hoare_bind with (Q := fun _ => startSeen hasAudio).
    + apply hoare_onMuxer; [exact Hweak|].
      intros j m w m' Hj _ _. exact Hj.
    + intros ?. unfold setMuxerStarted. apply hoare_modify.
      intros j (Ha & s & Hs & Hseen). unfold invariant; simpl.
      split; [exact Ha|]. split; [eauto|]. intros Htrue; congruence.
Qed.

(** "Get encoded data" keeps the invariant: the muxer is started only when
    the source has no audio track, right after the video track was added,
    and a video sample is written only under the flag [muxerStarted]. *)
Lemma drainEncoder_keeps (audioFormat : option MediaFormat) (t : Tick) :
  hasAudio = negb (isNull audioFormat) ->
  keeps (invariant hasAudio) (drainEncoder audioFormat t).
Proof.
  intros Haudio. unfold drainEncoder.
  assert (Hweak : forall j, videoSeen hasAudio j -> invariant hasAudio j)
    by (intros j [Hj _]; exact Hj).
  destruct (encoderStatus t =? INFO_OUTPUT_FORMAT_CHANGED)%Z.
  - (* the output format is known: add the video track, maybe start *)
    apply hoare_bind with (Q := fun _ => videoSeen hasAudio).
    { unfold emit. apply hoare_modify.
      intros j Hj. pose proof Hj as (_ & (s & Hs & _) & _).
      destruct (invariant_log (AddTrack videoTrack)
                  (s' := Spec.mkSeen true (Spec.audioAdded s) (Spec.startCalled s))
                  Hj Hs eq_refl (fun H => H)) as [Hj1 Hs1].
      split; [exact Hj1|]. eexists. split; [exact Hs1|reflexivity]. }
    intros ?. apply hoare_bind with (Q := fun _ => videoSeen hasAudio).
    { apply hoare_onMuxer; [exact Hweak|].
      intros j m w m' [Hj Hseen] Hm Hc. split; [|exact Hseen].
      assert (Hk : keeps (invariant hasAudio) (onMuxer (addTrack (outputFormat t))))
        by keep.
      specialize (Hk j Hj). unfold onMuxer, bind, gets, orThrow, setMuxer,
        modify, ret in Hk. simpl in Hk. rewrite Hm, Hc in Hk. exact Hk. }
    intros i. apply hoare_bind with (Q := fun _ => videoSeen hasAudio).
    { unfold setVideoMuxerTrack. apply hoare_modify. intros j Hj. exact Hj. }
    intros ?. eapply hoare_bind; [apply hoare_gets|].
    intros track j [Htrack Hj].
    assert (Hminus : track = (-1)%Z).
    { destruct Hj as [(Ha & _) _]. congruence. }
    rewrite Hminus. clear Htrack Hminus.
    destruct audioFormat as [fmt|]; simpl in *.
    + apply Hweak, Hj.
    + apply (startMuxer_hoare Haudio Hj).
  - destruct (0 <=? encoderStatus t)%Z; [|keep].
    eapply hoare_bind; [apply hoare_gets|]. intros flag.
    apply hoare_bind with (Q := fun _ => invariant hasAudio);
      [|intros ?; unfold setEncoderDone; keep].
    destruct ((0 <? size (encoderBufferInfo t))%Z && flag) eqn:Hcond;
      [|intros j [_ Hj]; exact Hj].
    apply andb_true_iff in Hcond. destruct Hcond as [_ ->].
    eapply hoare_bind; [apply hoare_gets|]. intros track.
    apply hoare_bind with (Q := fun _ => invariant hasAudio); [|intros ?; keep].
    unfold emit. apply hoare_modify.
    intros j (_ & Hflag & Hj).
    pose proof Hj as (_ & (s & Hs & Hst) & _).
    assert (Hseen : Spec.startCalled s = true) by auto.
    destruct (invariant_log (WriteSampleData videoTrack (encoderBufferInfo t))
                (s' := s) Hj Hs) as [Hj1 _];
      [simpl; rewrite Hseen; reflexivity|auto|exact Hj1].
Qed.

(** The loop of processVideoWithGL keeps the invariant, however the codecs
    answer and whether it ends or not. *)
Lemma videoLoop_keeps (rotationAngle : Z) (audioFormat : option MediaFormat)
    (ticks : list Tick) :
  hasAudio = negb (isNull audioFormat) ->
  keeps (invariant hasAudio) (videoLoop rotationAngle audioFormat ticks).
Proof.
  intros Haudio. induction ticks as [|t rest IH]; intros j Hj; simpl.
  - destruct (encoderDone j); exact Hj.
  - destruct (encoderDone j); [exact Hj|].
    revert j Hj. change (keeps (invariant hasAudio)
      (bind (feedDecoder t) (fun _ =>
         bind (renderDecoded rotationAngle t) (fun _ =>
           bind (drainEncoder audioFormat t) (fun _ =>
             videoLoop rotationAngle audioFormat rest))))).
    apply keeps_bind; [apply feedDecoder_keeps|intros ?].
    apply keeps_bind; [apply renderDecoded_keeps|intros ?].
    apply keeps_bind; [apply drainEncoder_keeps; exact Haudio|intros ?].
    exact IH.
Qed.

Lemma copySamples_keeps (turns : nat) (audioMuxerTrack : Z) :
  keeps (invariant hasAudio) (copySamples turns audioMuxerTrack).
Proof.
  induction turns as [|n IH]; simpl; [keep|].
  apply keeps_bind; [keep|intros ex].
  destruct (readSampleData ex <? 0)%Z; [keep|].
  apply keeps_bind; [keep|intros ?].
  apply keeps_bind; [keep|intros ?].
  apply keeps_bind; [unfold setExtractor; keep|intros ?].
  exact IH.
Qed.

Lemma processAudioTrack_keeps (audioTrackIndex : Z) (audioFormat : MediaFormat) :
  keeps (invariant hasAudio) (processAudioTrack audioTrackIndex audioFormat).
Proof.
  unfold processAudioTrack, setExtractor.
  apply keeps_bind; [keep|intros ex].
  apply keeps_bind; [keep|intros ?].
  apply keeps_bind; [keep|intros ?].
  apply keeps_bind; [keep|intros track].
  apply keeps_bind; [keep|intros ?].
  apply keeps_bind; [keep|intros ex'].
  apply copySamples_keeps.
Qed.

Lemma processVideoWithGL_finally_keeps :
  keeps (invariant hasAudio) processVideoWithGL_finally.
Proof. unfold processVideoWithGL_finally. keep. Qed.
Lemma keeps_fst {A} (m : op A) :
  keeps (invariant hasAudio) m <->
  forall j, invariant hasAudio j -> invariant hasAudio (fst (m j)).
Proof.
  split; intros H j Hj; specialize (H j Hj);
    destruct (m j) as [j' [p|v]]; exact H.
Qed.

Lemma setMuxer_new_keeps : keeps (invariant hasAudio) (setMuxer (Some newMuxer)).
Proof.
  unfold setMuxer. apply hoare_modify.
  intros j (Ha & Hlog & Hm). unfold invariant; simpl.
  split; [exact Ha|]. split; [exact Hlog|].
  intros Htrue. destruct (Hm Htrue) as [Hflag _]. split; [exact Hflag|].
  intros m [= <-]. simpl. auto.
Qed.

Ltac keep_all :=
  repeat (keep;
          match goal with
          | |- keeps _ (videoLoop _ _ _) => apply videoLoop_keeps; assumption
          | |- keeps _ (processAudioTrack _ _) => apply processAudioTrack_keeps
          | |- keeps _ (setMuxer (Some newMuxer)) => apply setMuxer_new_keeps
          | |- keeps _ (setExtractor _) => unfold setExtractor
          end).

Lemma processVideoWithGL_try_keeps (h : Host) (inputPath outputPath : string)
    (rotationAngle : Z) (cropRect : option CropRect) :
  hasAudio = Spec.hasAudioAt h inputPath ->
  keeps (invariant hasAudio)
    (processVideoWithGL_try h inputPath outputPath rotationAngle cropRect).
Proof.
  intros Ha. unfold processVideoWithGL_try.
  apply keeps_bind; [keep|intros ?].
  eapply hoare_bind; [apply hoare_orThrow; auto|].
  intros src j [Hsrc Hj]. revert j Hj.
  unfold Spec.hasAudioAt in Ha. rewrite Hsrc in Ha.
  unfold Spec.hasAudioTrack in Ha.
  match goal with
  | |- forall j, invariant _ j -> match ?m j with _ => _ end =>
      change (keeps (invariant hasAudio) m)
  end.
  cbv zeta. keep_all.
Qed.

Lemma processVideoWithGL_keeps (h : Host) (inputPath outputPath : string)
    (rotationAngle : Z) (cropRect : option CropRect) :
  hasAudio = Spec.hasAudioAt h inputPath ->
  keeps (invariant hasAudio)
    (processVideoWithGL h inputPath outputPath rotationAngle cropRect).
Proof.
  intros Ha. apply keeps_fst. intros j Hj. unfold processVideoWithGL.
  pose proof (proj1 (keeps_fst _)
                (processVideoWithGL_try_keeps h inputPath outputPath
                   rotationAngle cropRect Ha) j Hj) as Htry.
  destruct (processVideoWithGL_try h inputPath outputPath rotationAngle
              cropRect j) as [j1 r]; simpl in *.
  apply (proj1 (keeps_fst _) processVideoWithGL_finally_keeps j1 Htry).
Qed.

Lemma newJob_invariant : invariant hasAudio newJob.
Proof.
  unfold invariant; simpl. split; [reflexivity|]. split.
  - exists Spec.nothingSeen. split; [reflexivity|discriminate].
  - intros _. split; [reflexivity|]. discriminate.
Qed.

Lemma rotateVideo_invariant (h : Host) (inputPath : string) (angle : Z) :
  hasAudio = Spec.hasAudioAt h (normalizedPath inputPath) ->
  invariant hasAudio (fst (rotateVideo h inputPath angle)).
Proof.
  intros Ha. unfold rotateVideo.
  match goal with
  | |- invariant _ (fst (settled (?m newJob))) =>
      assert (Hk : keeps (invariant hasAudio) m)
  end.
  { cbv zeta. keep. apply processVideoWithGL_keeps, Ha. }
  specialize (Hk newJob newJob_invariant).
  match goal with
  | |- invariant _ (fst (settled ?r)) => destruct r as [j [p|p]]
  end; exact Hk.
Qed.

Lemma cropVideo_invariant (h : Host) (inputPath aspectRatio position : string) :
  hasAudio = Spec.hasAudioAt h (normalizedPath inputPath) ->
  invariant hasAudio (fst (cropVideo h inputPath aspectRatio position)).
Proof.
  intros Ha. unfold cropVideo.
  match goal with
  | |- invariant _ (fst (settled (?m newJob))) =>
      assert (Hk : keeps (invariant hasAudio) m)
  end.
  { cbv zeta. keep; apply processVideoWithGL_keeps, Ha. }
  specialize (Hk newJob newJob_invariant).
  match goal with
  | |- invariant _ (fst (settled ?r)) => destruct r as [j [p|p]]
  end; exact Hk.
Qed.
End PipelineFacts.

Section MonitorFacts.
Import Android.

(** The check refuses the three orders that the specification excludes. *)
Example start_before_video_refused :
  Spec.disciplined false [Start; AddTrack videoTrack] = false.
Proof. reflexivity. Qed.

Example start_before_audio_refused :
  Spec.disciplined true [AddTrack videoTrack; Start; AddTrack audioTrack] = false.
Proof. reflexivity. Qed.

Example write_before_start_refused :
  Spec.disciplined false
    [AddTrack videoTrack; WriteSampleData videoTrack Samples.noInfo; Start] = false.
Proof. reflexivity. Qed.

(** Without an audio track the muxer is started, and the encoded frame is
    written after that. *)
Example silent_clip_is_muxed :
  let j := fst (rotateVideo (Samples.androidHost Samples.silentClip) "/video.mp4" 90) in
  snd (rotateVideo (Samples.androidHost Samples.silentClip) "/video.mp4" 90)
  = Flow.Resolved "/cache/transformed_0000.mp4"
  /\ filter (fun e => match e with
                      | AddTrack _ | Start | WriteSampleData _ _ => true
                      | _ => false
                      end) (log j)
     = [AddTrack videoTrack; Start;
        WriteSampleData videoTrack (mkInfo 0 5 0 1)]
  /\ option_map written (muxer j)
     = Some [(0%Z, mkInfo 0 5 0 1, [9; 9; 9; 9; 9]%Z)].
Proof. vm_compute. repeat split; reflexivity. Qed.
End MonitorFacts.

(** C6. In every run of the decode/render/encode pipeline (rotateVideo and
    cropVideo on Android, whatever the codecs answer) the muxer calls are in
    order: a video sample is handed to the muxer only after the muxer was
    started, the muxer is started only after the encoder's output format was
    added as the video track, and, when the source has an audio track, only
    after the audio track was added too. *)
Theorem muxer_calls_in_order (h : Android.Host)
    (inputPath aspectRatio position : string) (angle : Z) :
  let hasAudio := Spec.hasAudioAt h (Android.normalizedPath inputPath) in
  Spec.disciplined hasAudio
    (Android.log (fst (Android.rotateVideo h inputPath angle))) = true
  /\ Spec.disciplined hasAudio
       (Android.log (fst (Android.cropVideo h inputPath aspectRatio position)))
     = true.
Proof.
  intros hasAudio. split.
  - destruct (rotateVideo_invariant (hasAudio := hasAudio) h inputPath angle eq_refl)
      as (_ & (s & Hs & _) & _).
    unfold Spec.disciplined. rewrite Hs. reflexivity.
  - destruct (cropVideo_invariant (hasAudio := hasAudio) h inputPath aspectRatio
                position eq_refl) as (_ & (s & Hs & _) & _).
    unfold Spec.disciplined. rewrite Hs. reflexivity.
Qed.

(** C9, against the code: when the source has an audio track the job never
    starts the muxer, because the local [audioMuxerTrack] that the start
    waits for is never assigned; so nothing is ever written to the output,
    and no audio sample is copied. *)
Theorem audio_samples_never_written (h : Android.Host)
    (inputPath aspectRatio position : string) (angle : Z) :
  Spec.hasAudioAt h (Android.normalizedPath inputPath) = true ->
  forall j,
    j = fst (Android.rotateVideo h inputPath angle)
    \/ j = fst (Android.cropVideo h inputPath aspectRatio position) ->
    Android.muxerStarted j = false
    /\ forall m, Android.muxer j = Some m ->
         Android.started m = false /\ Android.written m = [].
Proof.
  intros Haudio j [-> | ->].
  - destruct (rotateVideo_invariant (hasAudio := true) h inputPath angle
                (eq_sym Haudio)) as (_ & _ & Hm).
    apply Hm. reflexivity.
  - destruct (cropVideo_invariant (hasAudio := true) h inputPath aspectRatio
                position (eq_sym Haudio)) as (_ & _ & Hm).
    apply Hm. reflexivity.
Qed.

(** The witness of C9, which is also its failing input: a clip with two
    audio samples. The rotation is rejected with PROCESSING_ERROR and the
    muxer has written nothing. *)
Lemma audio_samples_never_written_witness :
  Spec.hasAudioAt (Samples.androidHost Samples.clip)
    (Android.normalizedPath "/video.mp4") = true
  /\ List.length (Spec.audioSamples Samples.clip) = 2%nat
  /\ snd (Android.rotateVideo (Samples.androidHost Samples.clip) "/video.mp4" 90)
     = Flow.Rejected "PROCESSING_ERROR"
  /\ forall m,
       Android.muxer
         (fst (Android.rotateVideo (Samples.androidHost Samples.clip)
                 "/video.mp4" 90)) = Some m ->
       Android.started m = false /\ Android.written m = [].
Proof.
  split; [reflexivity|]. split; [reflexivity|]. split; [reflexivity|].
  apply (audio_samples_never_written (Samples.androidHost Samples.clip)
           "/video.mp4" "1:1" "center" 90 eq_refl).
  left. reflexivity.
Defined.

Section LoopFacts.
Import Android.

Lemma dropThrough_shorter (f : Sample -> bool) (l : list Sample) (s : Sample) :
  find f l = Some s -> (List.length (dropThrough f l) < List.length l)%nat.
Proof.
  induction l as [|u rest IH]; simpl; [discriminate|].
  destruct (f u); intros Hfind; [lia|].
  specialize (IH Hfind). lia.
Qed.

(** The turns given to the loop of processAudioTrack are enough: it is never
    cut short, it ends at the end of the samples or on an exception. *)
Lemma copySamples_ends (turns : nat) (audioMuxerTrack : Z) (j : Job) :
  (List.length (remaining (extractor j)) < turns)%nat ->
  snd (copySamples turns audioMuxerTrack j) <> inl Flow.Pending.
Proof.
  revert j. induction turns as [|n IH]; intros j Hlen; [lia|].
  simpl. unfold bind at 1, gets at 1.
  unfold readSampleData, sampleBytes, sampleTime, sampleFlags.
  destruct (current (extractor j)) as [s|] eqn:Hcur; simpl; [|discriminate].
  replace (Z.of_nat (List.length (data s)) <? 0)%Z with false
    by (symmetry; apply Z.ltb_ge; lia).
  unfold bind, emit, onMuxer, bind, gets, orThrow, setMuxer, setExtractor,
    modify, throw, leave, ret; simpl.
  destruct (muxer j) as [m|]; simpl; [|discriminate].
  destruct (writeSampleData audioMuxerTrack (data s) _ m) as [[u m']|]; simpl;
    [|discriminate].
  apply IH. simpl.
  pose proof (dropThrough_shorter _ _ Hcur) as Hshort. lia.
Qed.
Lemma find_filter (f : Sample -> bool) (l : list Sample) :
  match find f l with
  | Some s => filter f l = s :: filter f (dropThrough f l)
  | None => filter f l = []
  end.
Proof.
  induction l as [|u rest IH]; simpl; [reflexivity|].
  destruct (f u); [reflexivity|exact IH].
Qed.

(** The loop of processAudioTrack on a muxer that has been started: every
    sample of the selected tracks is written to the given track, in the
    order of the file, with its size, time and flags. *)
Lemma copySamples_copies (turns : nat) (track : Z) (j : Job) (m : MediaMuxer) :
  muxer j = Some m -> started m = true ->
  (0 <= track < Z.of_nat (List.length (tracks m)))%Z ->
  (List.length (remaining (extractor j)) < turns)%nat ->
  exists j' m',
    copySamples turns track j = (j', inr tt)
    /\ muxer j' = Some m'
    /\ written m' =
       written m
       ++ map (fun s => (track,
                         mkInfo 0 (Z.of_nat (List.length (data s))) (time s) (sflags s),
                         data s))
              (filter (isSelected (extractor j)) (remaining (extractor j))).
Proof.
  revert j m. induction turns as [|n IH]; intros j m Hm Hst Htrack Hlen; [lia|].
  simpl. unfold bind at 1, gets at 1.
  pose proof (find_filter (isSelected (extractor j)) (remaining (extractor j)))
    as Hff.
  unfold readSampleData, sampleBytes, sampleTime, sampleFlags.
  unfold current. 
  destruct (find (isSelected (extractor j)) (remaining (extractor j)))
    as [s|] eqn:Hcur; simpl.
  - replace (Z.of_nat (List.length (data s)) <? 0)%Z with false
      by (symmetry; apply Z.ltb_ge; lia).
    unfold bind, emit, onMuxer, bind, gets, orThrow, setMuxer, setExtractor,
      modify, throw, leave, ret; simpl.
    rewrite Hm. unfold writeSampleData. rewrite Hst.
    replace ((0 <=? track)%Z) with true by (symmetry; apply Z.leb_le; lia).
    replace ((track <? Z.of_nat (List.length (tracks m)))%Z) with true
      by (symmetry; apply Z.ltb_lt; lia).
    simpl.
    match goal with
    | |- exists j' m', copySamples n track ?j1 = _ /\ _ =>
        destruct (IH j1 (mkMuxer (tracks m) true
                           (written m ++
                            [(track,
                              mkInfo 0 (Z.of_nat (List.length (data s)))
                                (time s) (sflags s), data s)])))
          as (j' & m' & Hrun & Hm' & Hw)
    end; simpl; try reflexivity; try assumption.
    { pose proof (dropThrough_shorter _ _ Hcur). lia. }
    exists j', m'. split; [exact Hrun|]. split; [exact Hm'|].
    rewrite Hw. simpl. rewrite Hff. simpl. rewrite <- app_assoc. reflexivity.
  - exists j, m. split; [reflexivity|]. split; [exact Hm|].
    rewrite Hff. simpl. rewrite app_nil_r. reflexivity.
Qed.
End LoopFacts.

(* ===================================================================== *)
(** * Further properties of the code *)
(* ===================================================================== *)

(** ** Geometry of the iOS compositions, and of the Android crop *)

Section RotationSequences.
Import CG IOS.
Local Open Scope R_scope.

(** X1. Rotations of [rotateVideo] compose as the rotations of a rectangle
    do: a quarter turn followed by the opposite quarter turn, and a half turn
    followed by a half turn, give back the frame as it was (identity
    transform, original render size); two quarter turns in the same
    direction are the half turn. On Android the output dimensions follow the
    same rule. *)
Theorem rotateVideo_transform_sequences (W H : R) (w h : Z) :
  Spec.rotateTwice 90 (-90) W H = (identity, mkSize W H)
  /\ Spec.rotateTwice 90 270 W H = (identity, mkSize W H)
  /\ Spec.rotateTwice (-90) 90 W H = (identity, mkSize W H)
  /\ Spec.rotateTwice 270 90 W H = (identity, mkSize W H)
  /\ Spec.rotateTwice 180 180 W H = (identity, mkSize W H)
  /\ Spec.rotateTwice 90 90 W H = rotateVideo_transform 180 W H
  /\ Spec.rotateTwice (-90) (-90) W H = rotateVideo_transform 180 W H
  /\ (forall angle,
        let there := Android.outputDimensions w h angle None in
        Android.outputDimensions (fst there) (snd there) angle None = (w, h))
  /\ (let there := Android.outputDimensions w h 90 None in
      Android.outputDimensions (fst there) (snd there) (-90) None = (w, h)).
Proof.
  unfold Spec.rotateTwice, rotateVideo_transform; simpl.
  rewrite !neg_half_pi, !rotated_quarter, !rotated_minus_quarter, !rotated_half.
  unfold concatenating, identity; simpl.
  repeat match goal with |- _ /\ _ => split end;
    try (f_equal; f_equal; lra); try reflexivity.
  intros angle. unfold Android.outputDimensions.
  destruct ((angle =? 90)%Z || (angle =? -90)%Z || (angle =? 270)%Z) eqn:Hq;
    simpl; try rewrite Hq; reflexivity.
Qed.

(** A frame of 1920x1080 turned by 90 degrees: the point (100, 50) lands in
    the render rectangle of 1080x1920. *)
Lemma rotateVideo_transform_covers_witness :
  0 <= 100 <= 1920 /\ 0 <= 50 <= 1080 /\
  let r := IOS.rotateVideo_transform 90 1920 1080 in
  let q := applying (100, 50) (fst r) in
  0 <= fst q <= width (snd r) /\ 0 <= snd q <= height (snd r).
Proof.
  split; [lra|]. split; [lra|].
  apply (@rotateVideo_transform_covers 90 1920 1080 100 50); lra.
Defined.
End RotationSequences.

Section CropTransforms.
Import CG IOS.
Local Open Scope R_scope.

Lemma cropTransform_matrix (u v sx sy : R) :
  scaledBy (translatedBy identity u v) sx sy = mkT sx 0 0 sy u v.
Proof.
  unfold scaledBy, translatedBy, concatenating, scale, translation, identity;
    simpl. f_equal; lra.
Qed.

(** X3. [cropVideo] on a source whose preferred transform is not a quarter
    turn: the render size is the size of the crop rectangle, and the layer
    transform sends a point of the source to its place under the preferred
    transform, shifted by the origin of the crop rectangle (no scaling). *)
Theorem cropVideo_upright_translates (track : AVAssetTrack) (target : R)
    (position : string) :
  0 < width (naturalSize track) -> 0 < height (naturalSize track) ->
  0 < target -> isRotated (preferredTransform track) = false ->
  let rect := fst (cropVideo_geometry track target position) in
  let vc := cropVideo_composition track target position in
  renderSize vc = mkSize (rwidth rect) (rheight rect)
  /\ forall p,
       applying p (layerTransform vc)
       = (fst (applying p (preferredTransform track)) - x rect,
          snd (applying p (preferredTransform track)) - y rect).
Proof.
  intros HW HH Ht Hrot.
  destruct track as [[W H] pt]; simpl in *.
  unfold cropVideo_composition, cropVideo_geometry, cropGeometry,
    displayDimensions, cropNaturalDimensions; simpl.
  rewrite Hrot; simpl.
  pose proof (cropDisplayDimensions_fits HW HH Ht) as Hfit.
  destruct (cropDisplayDimensions target W H) as [cdw cdh]; simpl in *.
  destruct (cropVideo_origin position (mkSize W H) cdw cdh) as [ox oy]; simpl.
  rewrite cropTransform_matrix.
  destruct Hfit as (Hw & Hh & _).
  split; [reflexivity|].
  intros p. unfold applying, concatenating; simpl. f_equal; field; lra.
Qed.

Lemma cropVideo_upright_translates_witness :
  let rect := fst (cropVideo_geometry Samples.landscape 1 "center") in
  let vc := cropVideo_composition Samples.landscape 1 "center" in
  renderSize vc = mkSize (rwidth rect) (rheight rect)
  /\ forall p,
       applying p (layerTransform vc)
       = (fst (applying p identity) - x rect, snd (applying p identity) - y rect).
Proof.
  apply (@cropVideo_upright_translates Samples.landscape 1 "center");
    simpl; try lra. apply isRotated_identity.
Defined.

(** X4. [cropVideo] on a source whose preferred transform is a quarter turn:
    the render size has the target ratio and is the size of the crop
    rectangle with its sides swapped, and the layer transform, after the
    preferred transform, multiplies the horizontal coordinate by the target
    ratio and divides the vertical one by it before it shifts by the origin of
    the crop rectangle: the picture keeps its proportions only when the
    target is 1. *)
Theorem cropVideo_quarter_turn_stretches (track : AVAssetTrack) (target : R)
    (position : string) :
  0 < width (naturalSize track) -> 0 < height (naturalSize track) ->
  0 < target -> isRotated (preferredTransform track) = true ->
  let rect := fst (cropVideo_geometry track target position) in
  let vc := cropVideo_composition track target position in
  renderSize vc = mkSize (rheight rect) (rwidth rect)
  /\ width (renderSize vc) / height (renderSize vc) = target
  /\ forall p,
       applying p (layerTransform vc)
       = (target * fst (applying p (preferredTransform track)) - x rect,
          snd (applying p (preferredTransform track)) / target - y rect).
Proof.
  intros HW HH Ht Hrot.
  destruct track as [[W H] pt]; simpl in *.
  unfold cropVideo_composition, cropVideo_geometry, cropGeometry,
    displayDimensions, cropNaturalDimensions; simpl.
  rewrite Hrot; simpl.
  pose proof (cropDisplayDimensions_fits HH HW Ht) as Hfit.
  destruct (cropDisplayDimensions target H W) as [cdw cdh]; simpl in *.
  destruct (cropVideo_origin position (mkSize W H) cdh cdw) as [ox oy]; simpl.
  rewrite cropTransform_matrix.
  destruct Hfit as (Hw & Hh & Hr).
  split; [reflexivity|]. split; [assumption|].
  intros p. unfold applying, concatenating; simpl.
  rewrite <- Hr. f_equal; field; lra.
Qed.

Lemma cropVideo_quarter_turn_stretches_witness :
  let rect := fst (cropVideo_geometry Samples.portrait (1 / 2) "center") in
  let vc := cropVideo_composition Samples.portrait (1 / 2) "center" in
  renderSize vc = mkSize (rheight rect) (rwidth rect)
  /\ width (renderSize vc) / height (renderSize vc) = 1 / 2
  /\ forall p,
       applying p (layerTransform vc)
       = (1 / 2 * fst (applying p (mkT 0 1 (-1) 0 1080 0)) - x rect,
          snd (applying p (mkT 0 1 (-1) 0 1080 0)) / (1 / 2) - y rect).
Proof.
  apply (@cropVideo_quarter_turn_stretches Samples.portrait (1 / 2) "center");
    simpl; try lra. apply isRotated_quarter.
Defined.
End CropTransforms.

Section OwnRatio.
Import CG IOS.
Local Open Scope R_scope.



End OwnRatio.

Section AndroidOwnRatio.
Import Android.
Local Open Scope Z_scope.

End AndroidOwnRatio.



Section PositionNames.
Local Open Scope string_scope.

Lemma not_anchor (p : string) :
  ~ In p Spec.anchors ->
  String.eqb p "center" = false /\ String.eqb p "top" = false
  /\ String.eqb p "bottom" = false /\ String.eqb p "left" = false
  /\ String.eqb p "right" = false /\ String.eqb p "top-left" = false
  /\ String.eqb p "top-right" = false /\ String.eqb p "bottom-left" = false
  /\ String.eqb p "bottom-right" = false.
Proof.
  intros Hnot. unfold Spec.anchors in Hnot. simpl in Hnot.
  repeat split; apply String.eqb_neq; intros ->; apply Hnot; tauto.
Qed.
End PositionNames.

(** X6. A position that is none of the nine names, compared without regard
    to case, is treated as "center" by every anchor switch: the one of
    [cropVideo] and the one of [cropAndRotateVideo] on iOS, and
    [calculateCropRect] on Android. *)
Theorem unknown_position_is_center (position : string) :
  ~ In (Text.lowercased position) Spec.anchors ->
  (forall size cw ch,
      IOS.cropVideo_origin position size cw ch
      = IOS.cropVideo_origin "center" size cw ch)
  /\ (forall size cw ch,
        IOS.cropAndRotateVideo_origin position size cw ch
        = IOS.cropAndRotateVideo_origin "center" size cw ch)
  /\ (forall W H target,
        Android.calculateCropRect W H target position
        = Android.calculateCropRect W H target "center").
Proof.
  intros Hnot.
  destruct (not_anchor Hnot) as (E1 & E2 & E3 & E4 & E5 & E6 & E7 & E8 & E9).
  split; [|split]; intros.
  - unfold IOS.cropVideo_origin.
    cbv zeta. rewrite E1, E2, E3, E4, E5, E6, E7, E8, E9. reflexivity.
  - unfold IOS.cropAndRotateVideo_origin.
    cbv zeta. rewrite E1, E2, E3. reflexivity.
  - unfold Android.calculateCropRect.
    cbv zeta. rewrite E1, E2, E3, E4, E5, E6, E7, E8, E9. reflexivity.
Qed.

Lemma unknown_position_is_center_witness :
  (forall size cw ch,
      IOS.cropVideo_origin "Middle" size cw ch
      = IOS.cropVideo_origin "center" size cw ch)
  /\ (forall size cw ch,
        IOS.cropAndRotateVideo_origin "Middle" size cw ch
        = IOS.cropAndRotateVideo_origin "center" size cw ch)
  /\ (forall W H target,
        Android.calculateCropRect W H target "Middle"
        = Android.calculateCropRect W H target "center").
Proof.
  apply (@unknown_position_is_center "Middle").
  simpl. intros H.
  repeat (destruct H as [H|H]; [discriminate|]). exact H.
Defined.

Section Orientations.
Import CG IOS.
Local Open Scope R_scope.

Lemma atan2_up (s : R) : 0 < s -> atan2 s 0 = PI / 2.
Proof.
  intros Hs. unfold atan2.
  destruct (Rlt_dec 0 0) as [n|_]; [lra|].
  destruct (Rlt_dec 0 s) as [_|n]; [reflexivity|lra].
Qed.

Lemma atan2_down (s : R) : 0 < s -> atan2 (- s) 0 = - PI / 2.
Proof.
  intros Hs. unfold atan2.
  destruct (Rlt_dec 0 0) as [n|_]; [lra|].
  destruct (Rlt_dec 0 (- s)) as [n|_]; [lra|].
  destruct (Rlt_dec (- s) 0) as [_|n]; [reflexivity|lra].
Qed.

Lemma atan2_right (s : R) : 0 < s -> atan2 0 s = 0.
Proof.
  intros Hs. unfold atan2.
  destruct (Rlt_dec 0 s) as [_|n]; [|lra].
  replace (0 / s) with 0 by (field; lra). apply atan_0.
Qed.

Lemma atan2_left (s : R) : 0 < s -> atan2 0 (- s) = PI.
Proof.
  intros Hs. unfold atan2.
  destruct (Rlt_dec 0 (- s)) as [n|_]; [lra|].
  destruct (Rlt_dec (- s) 0) as [_|n]; [|lra].
  destruct (Rle_dec 0 0) as [_|n]; [|lra].
  replace (0 / - s) with 0 by (field; lra). rewrite atan_0. lra.
Qed.

Lemma Rltb_false (u v : R) : v <= u -> Rltb u v = false.
Proof.
  intros H. unfold Rltb. destruct (Rlt_dec u v); [lra|reflexivity].
Qed.

(** X7. The orientation test of the crop methods on the four orientations
    that a recording device writes, whatever the scale [s] and the
    translation of the preferred transform: a quarter turn either way is
    "rotated" (display width and height are swapped), no turn and a half
    turn are not. *)
Theorem isRotated_orientations (s c0 d0 x0 y0 : R) (size : CGSize) :
  0 < s ->
  isRotated (mkT 0 s c0 d0 x0 y0) = true
  /\ isRotated (mkT 0 (- s) c0 d0 x0 y0) = true
  /\ isRotated (mkT s 0 c0 d0 x0 y0) = false
  /\ isRotated (mkT (- s) 0 c0 d0 x0 y0) = false
  /\ displayDimensions size (isRotated (mkT 0 s c0 d0 x0 y0))
     = (height size, width size)
  /\ displayDimensions size (isRotated (mkT (- s) 0 c0 d0 x0 y0))
     = (width size, height size).
Proof.
  intros Hs. pose proof PI2_1 as Hpi.
  assert (Hq : isRotated (mkT 0 s c0 d0 x0 y0) = true).
  { apply isRotated_quarterTurn. left; simpl. rewrite atan2_up by assumption.
    replace (PI / 2 - PI / 2) with 0 by lra. rewrite Rabs_R0. lra. }
  assert (Hh : isRotated (mkT (- s) 0 c0 d0 x0 y0) = false).
  { unfold isRotated; simpl. rewrite atan2_left by assumption.
    rewrite !Rltb_false; [reflexivity| |];
      rewrite Rabs_right by lra; lra. }
  split; [assumption|]. split.
  { apply isRotated_quarterTurn. right; simpl. rewrite atan2_down by assumption.
    replace (- PI / 2 + PI / 2) with 0 by lra. rewrite Rabs_R0. lra. }
  split.
  { unfold isRotated; simpl. rewrite atan2_right by assumption.
    rewrite !Rltb_false; [reflexivity| |].
    - rewrite Rabs_right by lra. lra.
    - rewrite Rabs_left by lra. lra. }
  split; [assumption|]. split.
  - rewrite Hq. reflexivity.
  - rewrite Hh. reflexivity.
Qed.

Lemma isRotated_orientations_witness :
  isRotated (mkT 0 1 (-1) 0 1080 0) = true
  /\ isRotated (mkT 0 (- 1) 1 0 0 1920) = true
  /\ isRotated (mkT 1 0 0 1 0 0) = false
  /\ isRotated (mkT (- 1) 0 0 (-1) 1920 1080) = false.
Proof.
  pose proof (@isRotated_orientations 1 (-1) 0 1080 0 (mkSize 1920 1080)) as H1.
  pose proof (@isRotated_orientations 1 1 0 0 1920 (mkSize 1920 1080)) as H2.
  pose proof (@isRotated_orientations 1 0 1 0 0 (mkSize 1920 1080)) as H3.
  pose proof (@isRotated_orientations 1 0 (-1) 1920 1080 (mkSize 1920 1080)) as H4.
  split; [apply H1; lra|]. split; [apply H2; lra|].
  split; [apply H3; lra|]. apply H4; lra.
Defined.
End Orientations.

Section NonEmptyCrop.
Import Android.
Local Open Scope Z_scope.

Lemma floor_positive (q : Q) : 1 <= Qfloor q <-> (1 <= q)%Q.
Proof.
  split; intros Hq.
  - eapply Qle_trans; [|apply Qfloor_le]. unfold Qle; simpl; lia.
  - change 1 with (Qfloor 1). apply Qfloor_resp_le. assumption.
Qed.

(** A target ratio within the two bounds gives a crop that is not empty. *)
Lemma calculateCropRect_positive (W H : Z) (target : Q) (position : string) :
  0 < W < 2 ^ 31 -> 0 < H < 2 ^ 31 -> (0 < target)%Q ->
  (target <= inject_Z W)%Q -> (1 <= inject_Z H * target)%Q ->
  let r := calculateCropRect W H target position in
  0 < width r /\ 0 < height r.
Proof.
  intros HW HH Ht Hmax Hmin r.
  destruct (calculateCropRect_size position HW HH Ht) as (_ & _ & Hsize).
  fold r in Hsize.
  assert (Ew : (inject_Z W / target * target == inject_Z W)%Q) by (field; lra).
  set (qw := (inject_Z W / target)%Q) in *.
  destruct Hsize as [(Hw & Hh & _)|(Hh & Hw & _)]; rewrite Hw, Hh.
  - split; [lia|].
    assert (H1 : (1 <= qw)%Q) by nra.
    apply floor_positive in H1. lia.
  - split; [|lia]. apply floor_positive in Hmin. lia.
Qed.


End NonEmptyCrop.

(** ** How the iOS methods end *)

Section IOSOutcomes.
Import CG IOS Flow.
Local Open Scope string_scope.

Lemma composeAndExport_settled (h : Host) (asset : AVAsset)
    (vc : VideoComposition) (prefix : list Event) :
  Spec.exports prefix = [] ->
  Spec.settledRun h (run (bind (prefix, inr tt)
                       (fun _ => composeAndExport h asset vc))).
Proof.
  intros Hprefix.
  unfold Spec.settledRun, composeAndExport, createComposition, export, bind,
    require, emit, ret, settle, run.
  destruct (addMutableTrack h video), (insertTimeRange h video),
    (hd_error (audioTracks asset)), (addMutableTrack h audio),
    (exportSession h), (exportStatus h) eqn:Hstatus; simpl;
    unfold Spec.exports in *; rewrite ?flat_map_app, ?Hprefix; simpl;
    try (split; [reflexivity|split; [reflexivity|eexists; reflexivity]]);
    try (split; [tauto|]; first [left; reflexivity | right; discriminate]).
Qed.

Lemma bind_ret_left {A B} (v : A) (k : A -> flow Event B) :
  bind (ret v) k = k v.
Proof. unfold bind, ret. destruct (k v); reflexivity. Qed.

(** X9. Every run of the three iOS methods settles its promise, whatever
    the host answers: it is resolved with the file
    [<temporary directory>/transformed_<UUID>.mp4], and then exactly one
    export was made, to that file, and it completed; or it is rejected with
    one of the eight error codes, and then nothing was exported or the
    export did not complete. *)
Theorem ios_promise_settled (h : Host) (inputPath aspectRatio position : string)
    (angle : Z) :
  Spec.settledRun h (rotateVideo h inputPath angle)
  /\ Spec.settledRun h (cropVideo h inputPath aspectRatio position)
  /\ Spec.settledRun h (cropAndRotateVideo h inputPath aspectRatio position angle).
Proof.
  unfold rotateVideo, cropVideo, cropAndRotateVideo.
  rewrite openVideoTrack_cases.
  destruct (URL h (fileURL inputPath)) as [url|].
  2:{ unfold Spec.settledRun, Spec.iosCodes; simpl. tauto. }
  destruct (hd_error (videoTracks (AVAsset_url h url))) as [track|].
  2:{ unfold Spec.settledRun, Spec.iosCodes; simpl. tauto. }
  split; [|split].
  - exact (composeAndExport_settled h (AVAsset_url h url)
             (rotateVideo_composition track angle)
             [OpenAsset url; ReadTracks video] eq_refl).
  - destruct (parseAspectRatio h aspectRatio) as [[wr hr]|] eqn:Hparse.
    + unfold orReject. unfold bind at 1. cbv beta iota. rewrite bind_ret_left.
      exact (composeAndExport_settled h (AVAsset_url h url)
               (cropVideo_composition track (wr / hr) position)
               [OpenAsset url; ReadTracks video] eq_refl).
    + unfold Spec.settledRun, Spec.iosCodes; simpl. tauto.
  - destruct (parseAspectRatio h aspectRatio) as [[wr hr]|] eqn:Hparse.
    + unfold orReject. unfold bind at 1. cbv beta iota. rewrite bind_ret_left.
      exact (composeAndExport_settled h (AVAsset_url h url)
               (cropAndRotateVideo_composition track (wr / hr) position angle)
               [OpenAsset url; ReadTracks video] eq_refl).
    + unfold Spec.settledRun, Spec.iosCodes; simpl. tauto.
Qed.

Lemma composeAndExport_audio (h h' : Host) (asset asset' : AVAsset)
    (vc : VideoComposition) (prefix : list Event) :
  Spec.sameButAudio h h' ->
  Spec.sameOutcome
    (run (bind (prefix, inr tt) (fun _ => composeAndExport h asset vc)))
    (run (bind (prefix, inr tt) (fun _ => composeAndExport h' asset' vc))).
Proof.
  intros (_ & _ & _ & Ha & Hi & He & Hs & Hu & Ht).
  unfold Spec.sameOutcome, composeAndExport, createComposition, export, bind,
    require, emit, ret, settle, run.
  rewrite Ha, Hi, He, Hs, Hu, Ht.
  destruct (addMutableTrack h' video), (insertTimeRange h' video),
    (exportSession h'), (exportStatus h'),
    (hd_error (audioTracks asset)), (addMutableTrack h audio),
    (hd_error (audioTracks asset')), (addMutableTrack h' audio); simpl;
    unfold Spec.exports; rewrite ?flat_map_app; simpl; split; reflexivity.
Qed.

Lemma parseAspectRatio_same (h h' : Host) (aspectRatio : string) :
  (forall s, Double h s = Double h' s) ->
  parseAspectRatio h aspectRatio = parseAspectRatio h' aspectRatio.
Proof.
  intros Hd. unfold parseAspectRatio.
  destruct (Text.splitOmit ":" aspectRatio) as [|c0 [|c1 [|c2 l]]];
    try reflexivity.
  rewrite !Hd. reflexivity.
Qed.

(** X10. The audio track never decides how an iOS method ends: on two
    hosts that differ only in the audio side (whether the asset has an audio
    track, whether it can be added to the composition and inserted), each of
    the three methods settles its promise the same way and exports the same
    video composition to the same file. *)
Theorem ios_audio_failures_ignored (h h' : Host)
    (inputPath aspectRatio position : string) (angle : Z) :
  Spec.sameButAudio h h' ->
  Spec.sameOutcome (rotateVideo h inputPath angle) (rotateVideo h' inputPath angle)
  /\ Spec.sameOutcome (cropVideo h inputPath aspectRatio position)
                 (cropVideo h' inputPath aspectRatio position)
  /\ Spec.sameOutcome (cropAndRotateVideo h inputPath aspectRatio position angle)
                 (cropAndRotateVideo h' inputPath aspectRatio position angle).
Proof.
  intros Hsame. pose proof Hsame as (Hurl & Hv & Hd & _).
  unfold rotateVideo, cropVideo, cropAndRotateVideo.
  rewrite !openVideoTrack_cases, Hurl, (@parseAspectRatio_same h h' aspectRatio Hd).
  destruct (URL h' (fileURL inputPath)) as [url|].
  2:{ unfold Spec.sameOutcome; simpl. tauto. }
  rewrite Hv.
  destruct (hd_error (videoTracks (AVAsset_url h' url))) as [track|].
  2:{ unfold Spec.sameOutcome; simpl. tauto. }
  split; [|split].
  - exact (composeAndExport_audio (AVAsset_url h url) (AVAsset_url h' url)
             (rotateVideo_composition track angle)
             [OpenAsset url; ReadTracks video] Hsame).
  - destruct (parseAspectRatio h' aspectRatio) as [[wr hr]|].
    + unfold orReject. unfold bind at 1 3. cbv beta iota.
      rewrite !bind_ret_left.
      exact (composeAndExport_audio (AVAsset_url h url) (AVAsset_url h' url)
               (cropVideo_composition track (wr / hr) position)
               [OpenAsset url; ReadTracks video] Hsame).
    + unfold Spec.sameOutcome; simpl. tauto.
  - destruct (parseAspectRatio h' aspectRatio) as [[wr hr]|].
    + unfold orReject. unfold bind at 1 3. cbv beta iota.
      rewrite !bind_ret_left.
      exact (composeAndExport_audio (AVAsset_url h url) (AVAsset_url h' url)
               (cropAndRotateVideo_composition track (wr / hr) position angle)
               [OpenAsset url; ReadTracks video] Hsame).
    + unfold Spec.sameOutcome; simpl. tauto.
Qed.

(** A source with an audio track that cannot be added to the composition,
    against the same source without audio. *)
Lemma ios_audio_failures_ignored_witness :
  Spec.sameOutcome
    (rotateVideo (Samples.iosHost Samples.landscape) "/video.mp4" 90)
    (rotateVideo (Samples.iosHostBrokenAudio Samples.landscape) "/video.mp4" 90)
  /\ Spec.sameOutcome
       (cropVideo (Samples.iosHost Samples.landscape) "/video.mp4" "1:1" "top")
       (cropVideo (Samples.iosHostBrokenAudio Samples.landscape)
          "/video.mp4" "1:1" "top")
  /\ Spec.sameOutcome
       (cropAndRotateVideo (Samples.iosHost Samples.landscape)
          "/video.mp4" "1:1" "top" 90)
       (cropAndRotateVideo (Samples.iosHostBrokenAudio Samples.landscape)
          "/video.mp4" "1:1" "top" 90).
Proof.
  apply (@ios_audio_failures_ignored (Samples.iosHost Samples.landscape)
           (Samples.iosHostBrokenAudio Samples.landscape)
           "/video.mp4" "1:1" "top" 90).
  unfold Spec.sameButAudio; simpl.
  split; [reflexivity|]. split; [reflexivity|]. split; [reflexivity|].
  split; [reflexivity|]. split; [reflexivity|]. split; [reflexivity|].
  split; [reflexivity|]. split; reflexivity.
Defined.
End IOSOutcomes.

(** ** How the Android methods end *)

Section FrameLogic.
Import Android Logic.
Context {X : Type}.
Variable F : Job -> X.

Lemma frames_ret {A} (v : A) : frames F (ret v).
Proof. intros j. reflexivity. Qed.

Lemma frames_leave {A} (p : Flow.Promise) : frames F (@leave A p).
Proof. intros j. reflexivity. Qed.

Lemma frames_gets {A} (f : Job -> A) : frames F (gets f).
Proof. intros j. reflexivity. Qed.

Lemma frames_orThrow {A} (o : option A) : frames F (orThrow o).
Proof. intros j. destruct o; reflexivity. Qed.

Lemma frames_modify (f : Job -> Job) :
  (forall j, F (f j) = F j) -> frames F (modify f).
Proof. intros Hf j. apply Hf. Qed.

Lemma frames_bind {A B} (m : op A) (k : A -> op B) :
  frames F m -> (forall v, frames F (k v)) -> frames F (bind m k).
Proof.
  intros Hm Hk j. unfold bind. specialize (Hm j).
  destruct (m j) as [j' [p|v]]; simpl in *; [exact Hm|].
  rewrite Hk. exact Hm.
Qed.

(** A muxer call, for a part of the job that does not read the muxer. *)
Lemma frames_onMuxer {A} (call : MediaMuxer -> option (A * MediaMuxer)) :
  (forall j m,
     F (mkJob (log j) (extractor j) m (videoMuxerTrack j)
          (audioMuxerTrack j) (muxerStarted j) (decoderDone j) (encoderDone j))
     = F j) ->
  frames F (onMuxer call).
Proof.
  intros HF j. unfold onMuxer, bind, gets, orThrow, setMuxer, modify, throw,
    leave, ret; simpl.
  destruct (muxer j) as [m|]; [|reflexivity].
  destruct (call m) as [[v m']|]; [|reflexivity].
  simpl. apply HF.
Qed.
End FrameLogic.

Section ThrowLogic.
Import Android Logic.

Lemma throws_ret {A} (v : A) : throws (ret v).
Proof. intros j. exact I. Qed.

Lemma throws_throw {A} : throws (@throw A).
Proof. intros j. reflexivity. Qed.

Lemma throws_gets {A} (f : Job -> A) : throws (gets f).
Proof. intros j. exact I. Qed.

Lemma throws_modify (f : Job -> Job) : throws (modify f).
Proof. intros j. exact I. Qed.

Lemma throws_orThrow {A} (o : option A) : throws (orThrow o).
Proof. intros j. destruct o; simpl; auto. Qed.

Lemma throws_onMuxer {A} (call : MediaMuxer -> option (A * MediaMuxer)) :
  throws (onMuxer call).
Proof.
  intros j. unfold onMuxer, bind, gets, orThrow, setMuxer, modify, throw,
    leave, ret; simpl.
  destruct (muxer j) as [m|]; [|reflexivity].
  destruct (call m) as [[v m']|]; [exact I|reflexivity].
Qed.

Lemma throws_bind {A B} (m : op A) (k : A -> op B) :
  throws m -> (forall v, throws (k v)) -> throws (bind m k).
Proof.
  intros Hm Hk j. unfold bind. specialize (Hm j).
  destruct (m j) as [j' [p|v]]; simpl in *; [exact Hm|]. apply Hk.
Qed.
End ThrowLogic.

Ltac frame :=
  repeat match goal with
    | |- Logic.frames _ (Android.ret _) => apply frames_ret
    | |- Logic.frames _ (Android.leave _) => apply frames_leave
    | |- Logic.frames _ Android.throw => apply frames_leave
    | |- Logic.frames _ (Android.gets _) => apply frames_gets
    | |- Logic.frames _ (Android.orThrow _) => apply frames_orThrow
    | |- Logic.frames _ (Android.emit _) =>
        apply frames_modify; intros ?; simpl; rewrite ?filter_app; simpl;
        rewrite ?app_nil_r; reflexivity
    | |- Logic.frames _ (Android.modify _) =>
        apply frames_modify; intros ?; reflexivity
    | |- Logic.frames _ (Android.onMuxer _) =>
        apply frames_onMuxer; intros ? ?; reflexivity
    | |- Logic.frames _ (Android.bind _ _) => apply frames_bind; [|intros ?]
    | |- Logic.frames _ (if ?c then _ else _) => destruct c
    | |- Logic.frames _ (match ?o with _ => _ end) => destruct o
    end.

Ltac thrown :=
  repeat match goal with
    | |- Logic.throws (Android.ret _) => apply throws_ret
    | |- Logic.throws Android.throw => apply throws_throw
    | |- Logic.throws (Android.gets _) => apply throws_gets
    | |- Logic.throws (Android.orThrow _) => apply throws_orThrow
    | |- Logic.throws (Android.emit _) => apply throws_modify
    | |- Logic.throws (Android.modify _) => apply throws_modify
    | |- Logic.throws (Android.onMuxer _) => apply throws_onMuxer
    | |- Logic.throws (Android.bind _ _) => apply throws_bind; [|intros ?]
    | |- Logic.throws (if ?c then _ else _) => destruct c
    | |- Logic.throws (match ?o with _ => _ end) => destruct o
    end.

Section StepFacts.
Import Android Logic.

Lemma feedDecoder_throws (t : Tick) : throws (feedDecoder t).
Proof. unfold feedDecoder, setDecoderDone, setExtractor. thrown. Qed.

Lemma renderDecoded_throws (angle : Z) (t : Tick) : throws (renderDecoded angle t).
Proof. unfold renderDecoded. thrown. Qed.

Lemma drainEncoder_throws (af : option MediaFormat) (t : Tick) :
  throws (drainEncoder af t).
Proof.
  unfold drainEncoder, setVideoMuxerTrack, setMuxerStarted, setEncoderDone.
  thrown.
Qed.

Lemma feedDecoder_muxerSide (t : Tick) : frames muxerSide (feedDecoder t).
Proof. unfold feedDecoder, setDecoderDone, setExtractor. frame. Qed.

Lemma renderDecoded_muxerSide (angle : Z) (t : Tick) :
  frames muxerSide (renderDecoded angle t).
Proof. unfold renderDecoded. frame. Qed.
End StepFacts.

Section Outcomes.
Import Flow Android Logic.
Local Open Scope string_scope.

Lemma videoLoop_outcome (angle : Z) (af : option MediaFormat) (ticks : list Tick)
    (j : Job) :
  match videoLoop angle af ticks j with
  | (j', inl p) =>
      p = Rejected "PROCESSING_ERROR" \/ (p = Pending /\ encoderDone j' = false)
  | (j', inr _) => encoderDone j' = true
  end.
Proof.
  revert j. induction ticks as [|t rest IH]; intros j; simpl.
  - destruct (encoderDone j) eqn:Hdone; simpl; [exact Hdone|]. right. auto.
  - destruct (encoderDone j) eqn:Hdone; simpl; [exact Hdone|].
    unfold bind.
    pose proof (feedDecoder_throws t j) as H1.
    destruct (feedDecoder t j) as [j1 [p|u]]; simpl in H1; [left; exact H1|].
    pose proof (renderDecoded_throws angle t j1) as H2.
    destruct (renderDecoded angle t j1) as [j2 [p|u2]]; simpl in H2;
      [left; exact H2|].
    pose proof (drainEncoder_throws af t j2) as H3.
    destruct (drainEncoder af t j2) as [j3 [p|u3]]; simpl in H3;
      [left; exact H3|].
    apply IH.
Qed.

Lemma copySamples_exits (turns : nat) (track : Z) (j : Job) :
  match snd (copySamples turns track j) with
  | inl p => p = Rejected "PROCESSING_ERROR" \/ p = Pending
  | inr _ => True
  end.
Proof.
  revert j. induction turns as [|n IH]; intros j; simpl; [right; reflexivity|].
  unfold bind at 1, gets at 1.
  destruct (readSampleData (extractor j) <? 0)%Z; [exact I|].
  unfold bind at 1, emit at 1, modify at 1.
  unfold bind at 1.
  match goal with
  | |- context [onMuxer ?c ?j0] =>
      pose proof (throws_onMuxer c j0) as Hm; destruct (onMuxer c j0) as [j1 [p|u]]
  end; simpl in Hm; [left; exact Hm|].
  unfold bind at 1, setExtractor at 1, modify at 1.
  apply IH.
Qed.

Lemma copySamples_throws (turns : nat) (track : Z) (j : Job) :
  (List.length (remaining (extractor j)) < turns)%nat ->
  match snd (copySamples turns track j) with
  | inl p => p = Rejected "PROCESSING_ERROR"
  | inr _ => True
  end.
Proof.
  intros Hlen.
  pose proof (copySamples_exits turns track j) as Hexit.
  pose proof (@copySamples_ends turns track j Hlen) as Hends.
  destruct (snd (copySamples turns track j)) as [p|u]; [|exact I].
  destruct Hexit as [Hp|Hp]; [exact Hp|]. subst p. contradiction.
Qed.

Lemma processAudioTrack_throws (i : Z) (fmt : MediaFormat) :
  throws (processAudioTrack i fmt).
Proof.
  unfold processAudioTrack, setExtractor.
  apply throws_bind; [thrown|intros ex].
  apply throws_bind; [thrown|intros ?].
  apply throws_bind; [thrown|intros ?].
  apply throws_bind; [thrown|intros track].
  apply throws_bind; [thrown|intros ?].
  intros j. unfold bind, gets. apply copySamples_throws. lia.
Qed.

Lemma copySamples_encoderDone (turns : nat) (track : Z) :
  frames encoderDone (copySamples turns track).
Proof.
  induction turns as [|n IH]; simpl; [frame|].
  apply frames_bind; [frame|intros ex].
  destruct (readSampleData ex <? 0)%Z; [frame|].
  apply frames_bind; [frame|intros ?].
  apply frames_bind; [frame|intros ?].
  apply frames_bind; [unfold setExtractor; frame|intros ?].
  exact IH.
Qed.

Lemma processAudioTrack_encoderDone (i : Z) (fmt : MediaFormat) :
  frames encoderDone (processAudioTrack i fmt).
Proof.
  unfold processAudioTrack, setExtractor.
  apply frames_bind; [frame|intros ex].
  apply frames_bind; [frame|intros ?].
  apply frames_bind; [frame|intros ?].
  apply frames_bind; [frame|intros track].
  apply frames_bind; [frame|intros ?].
  apply frames_bind; [frame|intros ex'].
  apply copySamples_encoderDone.
Qed.

Lemma processVideoWithGL_try_outcome (h : Host) (inputPath outputPath : string)
    (angle : Z) (cropRect : option CropRect) (j : Job) :
  tryOutcome h inputPath outputPath
    (processVideoWithGL_try h inputPath outputPath angle cropRect j).
Proof.
  unfold tryOutcome.
  remember (processVideoWithGL_try h inputPath outputPath angle cropRect j)
    as r eqn:Hr.
  unfold processVideoWithGL_try in Hr.
  unfold bind at 1, emit at 1, modify at 1 in Hr.
  destruct (dataSource h inputPath) as [src|]; [|subst r; reflexivity].
  unfold orThrow, ret in Hr. unfold bind at 1 in Hr. unfold bind at 1 in Hr.
  unfold setExtractor at 1, modify at 1 in Hr.
  destruct (videoFormat (tracksOf src)) as [vf|]; [|subst r; reflexivity].
  unfold bind at 1 in Hr.
  destruct (codecSetup h); [|subst r; simpl; left; reflexivity].
  destruct (outputDimensions (KEY_WIDTH vf) (KEY_HEIGHT vf) angle cropRect)
    as [ow oh].
  unfold bind at 1, emit at 1, modify at 1 in Hr.
  unfold bind at 1, setMuxer at 1, modify at 1 in Hr.
  unfold bind at 1, gets at 1 in Hr.
  unfold bind at 1, setExtractor at 1, modify at 1 in Hr.
  unfold bind at 1 in Hr.
  match type of Hr with
  | context [videoLoop ?a ?f ?t ?j0] =>
      pose proof (videoLoop_outcome a f t j0) as Hloop;
      destruct (videoLoop a f t j0) as [j1 [p|u]]
  end; [subst r; exact Hloop|].
  unfold bind at 1 in Hr.
  match type of Hr with
  | context [match ?m j1 with _ => _ end] =>
      assert (Hth : throws m);
      [|assert (Hfr : frames encoderDone m);
        [|specialize (Hth j1); specialize (Hfr j1);
          destruct (m j1) as [j2 [p|u2]]]]
  end.
  - destruct (audioFormat (tracksOf src)); [|intros ?; exact I].
    destruct (0 <=? audioTrackIndex (tracksOf src))%Z; [|intros ?; exact I].
    apply processAudioTrack_throws.
  - destruct (audioFormat (tracksOf src)); [|intros ?; reflexivity].
    destruct (0 <=? audioTrackIndex (tracksOf src))%Z; [|intros ?; reflexivity].
    apply processAudioTrack_encoderDone.
  - subst r. simpl in *. left. exact Hth.
  - subst r. simpl in *. split; [reflexivity|]. congruence.
Qed.

Lemma processVideoWithGL_finally_encoderDone :
  frames encoderDone processVideoWithGL_finally.
Proof. unfold processVideoWithGL_finally. frame. Qed.

Lemma processVideoWithGL_outcome (h : Host) (inputPath outputPath : string)
    (angle : Z) (cropRect : option CropRect) (j : Job) :
  tryOutcome h inputPath outputPath
    (processVideoWithGL h inputPath outputPath angle cropRect j).
Proof.
  pose proof (processVideoWithGL_try_outcome h inputPath outputPath angle
                cropRect j) as Htry.
  unfold processVideoWithGL.
  destruct (processVideoWithGL_try h inputPath outputPath angle cropRect j)
    as [j1 r].
  unfold tryOutcome in *. simpl in *.
  rewrite processVideoWithGL_finally_encoderDone. exact Htry.
Qed.

Lemma findTracks_videoFormat (formats : list MediaFormat) (i : Z) (found : Tracks) :
  videoFormat (findTracks i formats found) = None <->
  videoFormat found = None
  /\ find (fun format =>
             match KEY_MIME format with
             | Some mime => String.prefix "video/" mime
             | None => false
             end) formats = None.
Proof.
  revert i found. induction formats as [|format rest IH]; intros i found; simpl.
  - tauto.
  - destruct (KEY_MIME format) as [mime|]; [|apply IH].
    destruct (String.prefix "video/" mime).
    + rewrite IH. simpl. split; [intros [H _]; discriminate|intros [_ H]; discriminate].
    + destruct (String.prefix "audio/" mime); rewrite IH; simpl; tauto.
Qed.

Lemma firstVideoFormat_none (src : Source) :
  firstVideoFormat src = None <-> videoFormat (tracksOf src) = None.
Proof.
  unfold firstVideoFormat, tracksOf. rewrite findTracks_videoFormat. simpl.
  tauto.
Qed.
End Outcomes.

Section Runs.
Import Flow Android Logic.
Local Open Scope string_scope.

(** X11. How rotateVideo of the Android module ends. It is rejected with
    INVALID_PATH exactly when the normalized path names no file, and with
    NO_VIDEO_TRACK exactly when the file exists and opens as a source without
    video track. It is resolved only with the output file in the cache
    directory and only after the encoder has reported the end of its
    stream; the only other code is PROCESSING_ERROR; and the promise is left
    pending only while the encoder has not reported the end of its
    stream. *)
Theorem android_rotateVideo_outcome (h : Host) (inputPath : string) (angle : Z) :
  let path := normalizedPath inputPath in
  let run := rotateVideo h inputPath angle in
  (snd run = Rejected "INVALID_PATH" <-> fileExists h path = false)
  /\ (snd run = Rejected "NO_VIDEO_TRACK" <->
      fileExists h path = true
      /\ exists src,
           dataSource h path = Some src /\ videoFormat (tracksOf src) = None)
  /\ match snd run with
     | Resolved out => out = outputFile h /\ encoderDone (fst run) = true
     | Rejected code =>
         In code ["INVALID_PATH"; "NO_VIDEO_TRACK"; "PROCESSING_ERROR"]
     | Pending => encoderDone (fst run) = false
     end.
Proof.
  intros path run.
  assert (Hr : run = rotateVideo h inputPath angle) by reflexivity.
  clearbody run. unfold rotateVideo in Hr. fold path in Hr.
  unfold bind at 1, emit at 1, modify at 1 in Hr. unfold bind at 1 in Hr.
  destruct (fileExists h path) eqn:Hexists.
  2:{ subst run. simpl. split; [tauto|]. split; [|tauto].
      split; [discriminate|]. intros [H _]; discriminate. }
  unfold ret at 1 in Hr.
  match type of Hr with
  | context [processVideoWithGL ?a ?b ?c ?d ?e ?j0] =>
      pose proof (processVideoWithGL_outcome a b c d e j0) as Hout;
      destruct (processVideoWithGL a b c d e j0) as [j' [p|p]]
  end; unfold tryOutcome in Hout; subst run; simpl in *.
  - destruct (dataSource h path) as [src|].
    + destruct (videoFormat (tracksOf src)) eqn:Hvf.
      * destruct Hout as [->|[-> Hdone]].
        -- split; [split; discriminate|]. split; [|tauto].
           split; [discriminate|]. intros [_ (src' & [= <-] & Hnone)]. congruence.
        -- split; [split; discriminate|]. split; [|exact Hdone].
           split; [discriminate|]. intros [_ (src' & [= <-] & Hnone)]. congruence.
      * injection Hout as ->. split; [split; discriminate|]. split; [|tauto].
        split; [intros _|reflexivity]. split; [reflexivity|]. eauto.
    + injection Hout as ->. split; [split; discriminate|]. split; [|tauto].
      split; [discriminate|]. intros [_ (src' & Hsrc & _)]. discriminate.
  - destruct (dataSource h path) as [src|]; [|discriminate].
    destruct (videoFormat (tracksOf src)) eqn:Hvf; [|discriminate].
    destruct Hout as [-> Hdone].
    split; [split; discriminate|]. split; [|auto].
    split; [discriminate|]. intros [_ (src' & [= <-] & Hnone)]. congruence.
Qed.

Ltac decided :=
  repeat match goal with
         | |- _ /\ _ => split
         | |- _ <-> _ => split
         end;
  intros;
  repeat match goal with
         | H : _ /\ _ |- _ => destruct H
         | H : exists _, _ |- _ => destruct H
         end;
  try discriminate; try congruence; try contradiction;
  try (simpl; tauto); eauto.

(** X12. How cropVideo of the Android module ends, check by check: rejected
    with INVALID_PATH exactly when the normalized path names no file; with
    INVALID_ASPECT_RATIO exactly when the file exists and the aspect ratio
    does not split at ":" into two parts that read as numbers; with
    CROP_ERROR exactly when these two checks pass and the source does not
    open; with NO_VIDEO_TRACK exactly when it opens and has no video track.
    It is resolved only with the output file in the cache directory, after
    the encoder has reported the end of its stream; the only other code is
    PROCESSING_ERROR; and the promise is left pending only while the encoder
    has not reported it. *)
Theorem android_cropVideo_outcome (h : Host)
    (inputPath aspectRatio position : string) :
  let path := normalizedPath inputPath in
  let run := cropVideo h inputPath aspectRatio position in
  let wellFormed :=
    Spec.twoNumbers (Text.splitKeep ":") (toDoubleOrNull h) aspectRatio in
  (snd run = Rejected "INVALID_PATH" <-> fileExists h path = false)
  /\ (snd run = Rejected "INVALID_ASPECT_RATIO" <->
      fileExists h path = true /\ ~ wellFormed)
  /\ (snd run = Rejected "CROP_ERROR" <->
      fileExists h path = true /\ wellFormed /\ dataSource h path = None)
  /\ (snd run = Rejected "NO_VIDEO_TRACK" <->
      fileExists h path = true /\ wellFormed
      /\ exists src,
           dataSource h path = Some src /\ videoFormat (tracksOf src) = None)
  /\ match snd run with
     | Resolved out => out = outputFile h /\ encoderDone (fst run) = true
     | Rejected code => In code Spec.androidCodes
     | Pending => encoderDone (fst run) = false
     end.
Proof.
  intros path run wellFormed.
  assert (Hr : run = cropVideo h inputPath aspectRatio position) by reflexivity.
  clearbody run. unfold cropVideo in Hr. fold path in Hr.
  unfold bind at 1, emit at 1, modify at 1 in Hr. unfold bind at 1 in Hr.
  destruct (fileExists h path) eqn:Hexists.
  2:{ subst run. unfold Spec.androidCodes. simpl. decided. }
  unfold ret at 1 in Hr.
  assert (Hparse :
    match Text.splitKeep ":" aspectRatio with
    | [part0; part1] =>
        match toDoubleOrNull h part0, toDoubleOrNull h part1 with
        | Some _, Some _ => wellFormed
        | _, _ => ~ wellFormed
        end
    | _ => ~ wellFormed
    end).
  { unfold wellFormed, Spec.twoNumbers.
    destruct (Text.splitKeep ":" aspectRatio) as [|p0 [|p1 [|p2 l]]];
      try (intros (a & b & c & d & E & _); discriminate).
    destruct (toDoubleOrNull h p0) as [wr|] eqn:E0,
             (toDoubleOrNull h p1) as [hr|] eqn:E1;
      try (intros (a & b & c & d & [= <- <-] & Ea & Eb); congruence).
    exists p0, p1, wr, hr. auto. }
  destruct (Text.splitKeep ":" aspectRatio) as [|p0 [|p1 [|p2 l]]];
    try (subst run; unfold Spec.androidCodes; simpl; decided; fail).
  destruct (toDoubleOrNull h p0) as [wr|], (toDoubleOrNull h p1) as [hr|];
    try (subst run; unfold Spec.androidCodes; simpl; decided; fail).
  unfold bind at 1, emit at 1, modify at 1 in Hr.
  destruct (dataSource h path) as [src|] eqn:Hsrc.
  2:{ subst run. unfold Spec.androidCodes. simpl. decided. }
  pose proof (firstVideoFormat_none src) as Hfirst.
  destruct (firstVideoFormat src) as [vf|].
  2:{ subst run. unfold Spec.androidCodes. simpl.
      assert (videoFormat (tracksOf src) = None) by (apply Hfirst; reflexivity).
      decided. }
  assert (Hvideo : videoFormat (tracksOf src) <> None).
  { intros Hnone. apply Hfirst in Hnone. discriminate. }
  match type of Hr with
  | context [processVideoWithGL ?a ?b ?c ?d ?e ?j0] =>
      pose proof (processVideoWithGL_outcome a b c d e j0) as Hout;
      destruct (processVideoWithGL a b c d e j0) as [j' [p|p]]
  end; unfold tryOutcome in Hout; rewrite Hsrc in Hout;
    destruct (videoFormat (tracksOf src)) eqn:Hvf; try contradiction;
    subst run; unfold Spec.androidCodes; simpl in *.
  - destruct Hout as [->|[-> Hdone]]; decided.
  - destruct Hout as [-> Hdone]. decided.
Qed.
End Runs.

(** ** What the Android pipeline writes, feeds and releases *)

Section AudioCopy.
Import Flow Android.
Local Open Scope string_scope.

(** X13. processAudioTrack never gets a sample into the output, whatever
    the state of the muxer it is given: what the muxer has written is what it
    had written before. A muxer that has been started refuses the new
    track, and one that has not refuses the first sample; so the call ends
    with an exception (PROCESSING_ERROR) unless the selected tracks hold no
    sample at all. *)
Theorem processAudioTrack_never_writes (audioTrackIndex : Z)
    (audioFormat : MediaFormat) (j : Job) :
  let r := processAudioTrack audioTrackIndex audioFormat j in
  option_map written (muxer (fst r)) = option_map written (muxer j)
  /\ match snd r with
     | inr _ =>
         current (seekToStart (selectTrack audioTrackIndex (extractor j))) = None
     | inl p => p = Rejected "PROCESSING_ERROR"
     end.
Proof.
  intros r.
  assert (Hr : r = processAudioTrack audioTrackIndex audioFormat j)
    by reflexivity.
  clearbody r. unfold processAudioTrack in Hr.
  unfold bind at 1, gets at 1 in Hr.
  unfold bind at 1, setExtractor at 1, modify at 1 in Hr.
  unfold bind at 1, emit at 1, modify at 1 in Hr.
  unfold bind at 1, onMuxer at 1 in Hr.
  unfold bind at 1, gets at 1 in Hr. cbn [muxer] in Hr.
  destruct (muxer j) as [m|] eqn:Hm; [|subst r; simpl; rewrite ?Hm; auto].
  unfold addTrack in Hr. destruct (started m) eqn:Hstarted;
    [subst r; simpl; rewrite ?Hm; auto|].
  unfold orThrow at 1, ret at 1 in Hr. unfold bind at 1 in Hr.
  unfold bind at 1, setMuxer at 1, modify at 1 in Hr. unfold ret at 1 in Hr.
  cbn [snd fst] in Hr.
  destruct (KEY_MAX_INPUT_SIZE audioFormat) as [maxBufferSize|];
    [|subst r; simpl; rewrite ?Hm; auto].
  unfold orThrow at 1, ret at 1 in Hr. unfold bind at 1 in Hr.
  unfold bind at 1, gets at 1 in Hr. cbn [extractor] in Hr.
  cbn [copySamples] in Hr.
  unfold bind at 1, gets at 1 in Hr. cbn [extractor] in Hr.
  unfold readSampleData, sampleBytes, sampleTime, sampleFlags in Hr.
  destruct (current (seekToStart (selectTrack audioTrackIndex (extractor j))))
    as [s|] eqn:Hcur.
  - replace (Z.of_nat (List.length (data s)) <? 0)%Z with false in Hr
      by (symmetry; apply Z.ltb_ge; lia).
    unfold bind at 1, emit at 1, modify at 1 in Hr.
    unfold bind at 1, onMuxer at 1 in Hr.
    unfold bind at 1, gets at 1 in Hr. cbn [muxer] in Hr.
    unfold writeSampleData in Hr. cbn [started andb] in Hr.
    unfold orThrow at 1 in Hr. subst r. simpl. rewrite ?Hm. auto.
  - subst r. simpl. rewrite ?Hm. auto.
Qed.
End AudioCopy.

Section SilentSource.
Import Flow Android Logic.
Local Open Scope string_scope.
Local Open Scope list_scope.
Local Open Scope Z_scope.

Lemma coherent_muxerSide (j j' : Job) (m : MediaMuxer) :
  muxerSide j' = muxerSide j -> coherent j m -> coherent j' m.
Proof.
  unfold muxerSide, coherent. intros [= -> -> _ -> _]. auto.
Qed.

Lemma drainEncoder_silent (t : Tick) (j : Job) (m : MediaMuxer) :
  coherent j m -> encoderDone j = false ->
  match drainEncoder None t j with
  | (j', inr _) =>
      exists m',
        coherent j' m'
        /\ forall rest,
             written m ++ Spec.encodedSamples (muxerStarted j) (t :: rest)
             = written m' ++ (if encoderDone j' then []
                              else Spec.encodedSamples (muxerStarted j') rest)
  | (_, inl _) => True
  end.
Proof.
  intros (Hm & Hstarted & Htracks) Hdone.
  unfold drainEncoder. cbn [Spec.encodedSamples].
  destruct (encoderStatus t =? INFO_OUTPUT_FORMAT_CHANGED) eqn:Hfc.
  - (* the encoder announces its format *)
    unfold bind, emit, onMuxer, bind, gets, orThrow, setMuxer,
      setVideoMuxerTrack, setMuxerStarted, modify, throw, leave, ret, isNull;
      simpl.
    rewrite Hm. unfold addTrack. rewrite Hstarted.
    destruct (muxerStarted j) eqn:Hflag; simpl; [exact I|].
    rewrite Htracks. simpl.
    eexists. split; [unfold coherent; simpl; auto|].
    intros rest0. simpl. rewrite Hdone. reflexivity.
  - destruct (0 <=? encoderStatus t) eqn:Hstatus.
    + unfold bind at 1, gets at 1.
      destruct ((0 <? size (encoderBufferInfo t)) && muxerStarted j) eqn:Hcond.
      * apply andb_true_iff in Hcond. destruct Hcond as [Hsize Hflag].
        rewrite Hflag in *. destruct Htracks as [Htrack Hlen].
        unfold bind, emit, onMuxer, bind, gets, orThrow, setMuxer,
          setEncoderDone, modify, throw, leave, ret; simpl.
        rewrite Hm, Htrack. unfold writeSampleData.
        rewrite Hstarted, Hlen. simpl.
        destruct (endOfStream (encoderBufferInfo t)); simpl;
          (eexists; split; [unfold coherent; simpl; rewrite ?Hflag, ?Htrack; auto|]);
          intros rest; simpl; rewrite ?Hdone, ?Hflag, ?Hsize, ?app_nil_r;
          simpl; try reflexivity; rewrite <- app_assoc; reflexivity.
      * unfold bind, setEncoderDone, modify, ret; simpl.
        destruct (endOfStream (encoderBufferInfo t)); simpl;
          (exists m; split; [unfold coherent; simpl; auto|]);
          intros rest; simpl; rewrite ?Hdone, ?app_nil_r; reflexivity.
    + unfold ret. exists m. split; [unfold coherent; auto|].
      intros rest. rewrite Hdone. reflexivity.
Qed.

Lemma videoLoop_done (angle : Z) (af : option MediaFormat) (ticks : list Tick)
    (j : Job) :
  encoderDone j = true -> videoLoop angle af ticks j = (j, inr tt).
Proof. intros Hdone. destruct ticks; simpl; rewrite Hdone; reflexivity. Qed.

Lemma videoLoop_silent (angle : Z) (ticks : list Tick) (j : Job) (m : MediaMuxer) :
  coherent j m -> encoderDone j = false ->
  match videoLoop angle None ticks j with
  | (j', inr _) =>
      exists m',
        muxer j' = Some m'
        /\ written m' = written m ++ Spec.encodedSamples (muxerStarted j) ticks
  | (_, inl _) => True
  end.
Proof.
  revert j m. induction ticks as [|t rest IH]; intros j m Hcoh Hdone.
  - simpl. rewrite Hdone. exact I.
  - cbn [videoLoop]. rewrite Hdone. unfold bind.
    pose proof (feedDecoder_muxerSide t j) as H1.
    destruct (feedDecoder t j) as [j1 [p|u1]]; [exact I|]. simpl in H1.
    pose proof (renderDecoded_muxerSide angle t j1) as H2.
    destruct (renderDecoded angle t j1) as [j2 [p|u2]]; [exact I|]. simpl in H2.
    rewrite H1 in H2.
    assert (Hcoh2 : coherent j2 m) by (apply (coherent_muxerSide H2 Hcoh)).
    assert (Hdone2 : encoderDone j2 = false).
    { unfold muxerSide in H2. injection H2 as _ _ _ _ ->. exact Hdone. }
    assert (Hflag : muxerStarted j2 = muxerStarted j).
    { unfold muxerSide in H2. injection H2 as _ _ _ -> _. reflexivity. }
    pose proof (drainEncoder_silent t Hcoh2 Hdone2) as H3.
    destruct (drainEncoder None t j2) as [j3 [p|u3]]; [exact I|].
    destruct H3 as (m3 & Hcoh3 & Heq). specialize (Heq rest).
    rewrite Hflag in Heq.
    destruct (encoderDone j3) eqn:Hdone3.
    + rewrite videoLoop_done by assumption.
      exists m3. split; [apply Hcoh3|]. rewrite Heq, app_nil_r. reflexivity.
    + specialize (IH j3 m3 Hcoh3 Hdone3).
      destruct (videoLoop angle None rest j3) as [j' [p|u]]; [exact I|].
      destruct IH as (m' & Hm' & Hw). exists m'. split; [exact Hm'|].
      rewrite Hw, Heq. reflexivity.
Qed.

Lemma processVideoWithGL_finally_muxer : frames muxer processVideoWithGL_finally.
Proof. unfold processVideoWithGL_finally. frame. Qed.

Lemma processVideoWithGL_silent (h : Host) (inputPath outputPath : string)
    (angle : Z) (cropRect : option CropRect) (j : Job) (p : Promise) :
  Spec.hasAudioAt h inputPath = false ->
  muxerStarted j = false -> encoderDone j = false ->
  snd (processVideoWithGL h inputPath outputPath angle cropRect j) = inr p ->
  option_map written
    (muxer (fst (processVideoWithGL h inputPath outputPath angle cropRect j)))
  = Some (Spec.encodedSamples false (codecs h)).
Proof.
  intros Hsilent Hflag Hdone. unfold processVideoWithGL.
  remember (processVideoWithGL_try h inputPath outputPath angle cropRect j)
    as r eqn:Hr.
  unfold processVideoWithGL_try in Hr.
  unfold bind at 1, emit at 1, modify at 1 in Hr.
  unfold Spec.hasAudioAt, Spec.hasAudioTrack in Hsilent.
  destruct (dataSource h inputPath) as [src|]; [|subst r; discriminate].
  unfold orThrow, ret in Hr. unfold bind at 1 in Hr. unfold bind at 1 in Hr.
  unfold setExtractor at 1, modify at 1 in Hr.
  destruct (videoFormat (tracksOf src)) as [vf|]; [|subst r; discriminate].
  unfold bind at 1 in Hr.
  destruct (codecSetup h); [|subst r; discriminate].
  destruct (outputDimensions (KEY_WIDTH vf) (KEY_HEIGHT vf) angle cropRect)
    as [ow oh].
  unfold bind at 1, emit at 1, modify at 1 in Hr.
  unfold bind at 1, setMuxer at 1, modify at 1 in Hr.
  unfold bind at 1, gets at 1 in Hr.
  unfold bind at 1, setExtractor at 1, modify at 1 in Hr.
  unfold bind at 1 in Hr.
  destruct (audioFormat (tracksOf src)) as [af|]; [discriminate|].
  match type of Hr with
  | context [videoLoop ?a None ?t ?j0] =>
      pose proof (@videoLoop_silent a t j0 newMuxer) as Hloop;
      destruct (videoLoop a None t j0) as [j1 [q|u]]
  end; [subst r; discriminate|].
  unfold bind in Hr. subst r. cbn [fst snd]. intros _.
  rewrite processVideoWithGL_finally_muxer.
  destruct Hloop as (m' & Hm' & Hw).
  - unfold coherent; simpl. rewrite Hflag. auto.
  - exact Hdone.
  - rewrite Hm'. simpl. rewrite Hw. simpl. rewrite Hflag. reflexivity.
Qed.

Lemma processVideoWithGL_leaves (h : Host) (inputPath outputPath : string)
    (angle : Z) (cropRect : option CropRect) (j : Job) (path : string) :
  snd (processVideoWithGL h inputPath outputPath angle cropRect j)
  <> inl (Resolved path).
Proof.
  pose proof (processVideoWithGL_outcome h inputPath outputPath angle
                cropRect j) as Hout.
  unfold tryOutcome in Hout.
  destruct (processVideoWithGL h inputPath outputPath angle cropRect j)
    as [j' [p|p]]; simpl in *; [|discriminate].
  intros [= ->].
  destruct (dataSource h inputPath) as [src|]; [|discriminate].
  destruct (videoFormat (tracksOf src)); [|discriminate].
  destruct Hout as [Hp|[Hp _]]; discriminate.
Qed.

(** X14. On a source without audio track, a run of rotateVideo or cropVideo
    that is resolved has written to its output exactly the buffers that the
    encoder delivered non-empty after it announced its format, in the order
    of delivery, on track 0, up to the buffer that carries the end of the
    stream; buffers delivered before the format are dropped. *)
Theorem silent_source_output (h : Host)
    (inputPath aspectRatio position : string) (angle : Z) :
  Spec.hasAudioAt h (normalizedPath inputPath) = false ->
  let muxed (run : Job * Promise) :=
    match snd run with
    | Resolved _ =>
        option_map written (muxer (fst run))
        = Some (Spec.encodedSamples false (codecs h))
    | _ => True
    end in
  muxed (rotateVideo h inputPath angle)
  /\ muxed (cropVideo h inputPath aspectRatio position).
Proof.
  intros Hsilent muxed. subst muxed. cbv beta. split.
  - remember (rotateVideo h inputPath angle) as run eqn:Hr.
    unfold rotateVideo in Hr.
    unfold bind at 1, emit at 1, modify at 1 in Hr. unfold bind at 1 in Hr.
    destruct (fileExists h (normalizedPath inputPath));
      [|subst run; exact I].
    unfold ret at 1 in Hr.
    match type of Hr with
    | context [processVideoWithGL ?a ?b ?c ?d ?e ?j0] =>
        pose proof (@processVideoWithGL_silent a b c d e j0) as Hout;
        pose proof (@processVideoWithGL_leaves a b c d e j0) as Hleaves;
        destruct (processVideoWithGL a b c d e j0) as [j' [p|p]]
    end; subst run; simpl in *.
    + destruct p; try exact I. exfalso. apply (Hleaves path). reflexivity.
    + destruct p; try exact I. apply (Hout (Resolved path)); auto.
  - remember (cropVideo h inputPath aspectRatio position) as run eqn:Hr.
    unfold cropVideo in Hr.
    unfold bind at 1, emit at 1, modify at 1 in Hr. unfold bind at 1 in Hr.
    destruct (fileExists h (normalizedPath inputPath));
      [|subst run; exact I].
    unfold ret at 1 in Hr.
    destruct (Text.splitKeep ":" aspectRatio) as [|p0 [|p1 [|p2 l]]];
      try (subst run; exact I).
    destruct (toDoubleOrNull h p0) as [wr|], (toDoubleOrNull h p1) as [hr|];
      try (subst run; exact I).
    unfold bind at 1, emit at 1, modify at 1 in Hr.
    destruct (dataSource h (normalizedPath inputPath)) as [src|] eqn:Hsrc;
      [|subst run; exact I].
    destruct (firstVideoFormat src) as [vf|]; [|subst run; exact I].
    match type of Hr with
    | context [processVideoWithGL ?a ?b ?c ?d ?e ?j0] =>
        pose proof (@processVideoWithGL_silent a b c d e j0) as Hout;
        pose proof (@processVideoWithGL_leaves a b c d e j0) as Hleaves;
        destruct (processVideoWithGL a b c d e j0) as [j' [p|p]]
    end; subst run; simpl in *.
    + destruct p; try exact I. exfalso. apply (Hleaves path). reflexivity.
    + destruct p; try exact I. apply (Hout (Resolved path)); auto.
Qed.

(** A clip without audio on a host whose encoder announces its format,
    delivers one frame and ends. *)
Lemma silent_source_output_witness :
  option_map written
    (muxer (fst (rotateVideo (Samples.androidHost Samples.silentClip)
                   "/video.mp4" 90)))
  = Some (Spec.encodedSamples false
            (codecs (Samples.androidHost Samples.silentClip))).
Proof.
  destruct (@silent_source_output (Samples.androidHost Samples.silentClip)
              "/video.mp4" "1:1" "center" 90 eq_refl) as [Hrotate _].
  exact Hrotate.
Defined.
End SilentSource.

Section Cleanup.
Import Flow Android Logic.
Local Open Scope string_scope.
Local Open Scope list_scope.




End Cleanup.

Section Feeding.
Import Flow Android Logic Spec.
Local Open Scope string_scope.
Local Open Scope list_scope.

Lemma feedDecoder_feeding (src : Source) (t : Tick) (j : Job) :
  feeding src j -> feeding src (fst (feedDecoder t j)).
Proof.
  intros [Hsel Hfed]. unfold feedDecoder.
  unfold bind at 1, gets at 1.
  destruct (decoderDone j) eqn:Hdone.
  { unfold ret; simpl. unfold feeding. rewrite Hdone. auto. }
  destruct (0 <=? inputBufferId t)%Z.
  2:{ unfold ret; simpl. unfold feeding. rewrite Hdone. auto. }
  unfold bind at 1, gets at 1.
  pose proof (find_filter (isSelected (extractor j)) (remaining (extractor j)))
    as Hfind.
  unfold readSampleData, sampleTime, current.
  destruct (find (isSelected (extractor j)) (remaining (extractor j)))
    as [s|] eqn:Hcur.
  - replace (Z.of_nat (List.length (data s)) <? 0)%Z with false
      by (symmetry; apply Z.ltb_ge; lia).
    unfold bind, emit, setExtractor, modify; simpl.
    unfold feeding, feeds; simpl. rewrite Hdone. split; [exact Hsel|].
    rewrite filter_app. simpl. rewrite Hfed, Hfind. simpl.
    unfold feeds, isSelected. simpl. rewrite <- app_assoc. reflexivity.
  - simpl.
    unfold bind, emit, setDecoderDone, modify; simpl.
    unfold feeding, feeds; simpl. split; [exact Hsel|].
    rewrite filter_app. simpl. rewrite Hfed, Hfind. reflexivity.
Qed.

Lemma feeding_feedSide (src : Source) (j j' : Job) :
  feedSide j' = feedSide j -> feeding src j -> feeding src j'.
Proof.
  unfold feedSide, feeding. intros [= -> -> ->]. auto.
Qed.

Lemma renderDecoded_feedSide (angle : Z) (t : Tick) :
  frames feedSide (renderDecoded angle t).
Proof. unfold renderDecoded, feedSide, feeds. frame. Qed.

Lemma drainEncoder_feedSide (af : option MediaFormat) (t : Tick) :
  frames feedSide (drainEncoder af t).
Proof.
  unfold drainEncoder, setVideoMuxerTrack, setMuxerStarted, setEncoderDone,
    feedSide, feeds.
  frame.
Qed.

Lemma videoLoop_feeding (src : Source) (angle : Z) (af : option MediaFormat)
    (ticks : list Tick) (j : Job) :
  feeding src j -> feeding src (fst (videoLoop angle af ticks j)).
Proof.
  revert j. induction ticks as [|t rest IH]; intros j Hj; simpl.
  - destruct (encoderDone j); exact Hj.
  - destruct (encoderDone j); [exact Hj|].
    unfold bind.
    pose proof (feedDecoder_feeding t Hj) as H1.
    destruct (feedDecoder t j) as [j1 [p|u1]]; simpl in H1; [exact H1|].
    pose proof (renderDecoded_feedSide angle t j1) as H2.
    destruct (renderDecoded angle t j1) as [j2 [p|u2]]; simpl in H2;
      [exact (feeding_feedSide H2 H1)|].
    pose proof (drainEncoder_feedSide af t j2) as H3.
    destruct (drainEncoder af t j2) as [j3 [p|u3]]; simpl in H3;
      [exact (feeding_feedSide H3 (feeding_feedSide H2 H1))|].
    apply IH. exact (feeding_feedSide H3 (feeding_feedSide H2 H1)).
Qed.

Lemma frames_emit (f : Event -> bool) (e : Event) :
  f e = false -> frames (fun j => filter f (log j)) (emit e).
Proof.
  intros He. apply frames_modify. intros j. simpl.
  rewrite filter_app. simpl. rewrite He. apply app_nil_r.
Qed.

(** The audio pass-through logs nothing but its own muxer calls. *)
Lemma copySamples_log (f : Event -> bool) (turns : nat) (track : Z) :
  (forall info, f (WriteSampleData audioTrack info) = false) ->
  frames (fun j => filter f (log j)) (copySamples turns track).
Proof.
  intros Hwrite.
  induction turns as [|n IH]; simpl; [frame|].
  apply frames_bind; [frame|intros ex].
  destruct (readSampleData ex <? 0)%Z; [frame|].
  apply frames_bind; [apply frames_emit, Hwrite|intros ?].
  apply frames_bind; [frame|intros ?].
  apply frames_bind; [unfold setExtractor; frame|intros ?].
  exact IH.
Qed.

Lemma processAudioTrack_log (f : Event -> bool) (i : Z) (fmt : MediaFormat) :
  f (AddTrack audioTrack) = false ->
  (forall info, f (WriteSampleData audioTrack info) = false) ->
  frames (fun j => filter f (log j)) (processAudioTrack i fmt).
Proof.
  intros Hadd Hwrite. unfold processAudioTrack, setExtractor.
  apply frames_bind; [frame|intros ex].
  apply frames_bind; [frame|intros ?].
  apply frames_bind; [apply frames_emit, Hadd|intros ?].
  apply frames_bind; [frame|intros track].
  apply frames_bind; [frame|intros ?].
  apply frames_bind; [frame|intros ex'].
  apply copySamples_log, Hwrite.
Qed.

Lemma processVideoWithGL_finally_log (f : Event -> bool) :
  f Release = false -> f Stop = false ->
  frames (fun j => filter f (log j)) processVideoWithGL_finally.
Proof.
  intros Hrelease Hstop. unfold processVideoWithGL_finally.
  apply frames_bind; [apply frames_emit, Hrelease|intros ?].
  apply frames_bind; [frame|intros m].
  destruct (isNull m); [frame|apply frames_emit, Hstop].
Qed.

Lemma feeding_prefix (src : Source) (j : Job) :
  feeding src j -> prefixOf (feeds j) (feedScript src).
Proof.
  intros [_ Hfed]. destruct (decoderDone j).
  - exists []. rewrite Hfed, app_nil_r. reflexivity.
  - eexists. exact Hfed.
Qed.

Lemma processVideoWithGL_feeds (h : Host) (inputPath outputPath : string)
    (angle : Z) (cropRect : option CropRect) (j : Job) :
  feeds j = [] -> decoderDone j = false ->
  prefixOf
    (feeds (fst (processVideoWithGL h inputPath outputPath angle cropRect j)))
    (scriptAt h inputPath).
Proof.
  intros Hfeeds Hdone. unfold processVideoWithGL.
  remember (processVideoWithGL_try h inputPath outputPath angle cropRect j)
    as r eqn:Hr.
  assert (Hgoal : prefixOf (feeds (fst r)) (scriptAt h inputPath)).
  2:{ destruct r as [j1 r]. simpl in *. unfold feeds in *.
      rewrite (processVideoWithGL_finally_log isFeed eq_refl eq_refl j1).
      exact Hgoal. }
  assert (Hnone : forall l : list Event, prefixOf (@nil Event) l)
    by (intros l; exists l; reflexivity).
  unfold processVideoWithGL_try in Hr.
  unfold bind at 1, emit at 1, modify at 1 in Hr.
  unfold scriptAt.
  destruct (dataSource h inputPath) as [src|].
  2:{ subst r. simpl. unfold feeds. simpl. rewrite filter_app. simpl.
      rewrite app_nil_r. fold (feeds j). rewrite Hfeeds. apply Hnone. }
  unfold orThrow, ret in Hr. unfold bind at 1 in Hr. unfold bind at 1 in Hr.
  unfold setExtractor at 1, modify at 1 in Hr.
  destruct (videoFormat (tracksOf src)) as [vf|].
  2:{ subst r. simpl. unfold feeds. simpl. rewrite filter_app. simpl.
      rewrite app_nil_r. fold (feeds j). rewrite Hfeeds. apply Hnone. }
  unfold bind at 1 in Hr.
  destruct (codecSetup h).
  2:{ subst r. simpl. unfold feeds. simpl. rewrite filter_app. simpl.
      rewrite app_nil_r. fold (feeds j). rewrite Hfeeds. apply Hnone. }
  destruct (outputDimensions (KEY_WIDTH vf) (KEY_HEIGHT vf) angle cropRect)
    as [ow oh].
  unfold bind at 1, emit at 1, modify at 1 in Hr.
  unfold bind at 1, setMuxer at 1, modify at 1 in Hr.
  unfold bind at 1, gets at 1 in Hr.
  unfold bind at 1, setExtractor at 1, modify at 1 in Hr.
  unfold bind at 1 in Hr.
  match type of Hr with
  | context [videoLoop ?a ?f ?t ?j0] =>
      assert (Hstart : feeding src j0);
      [|pose proof (videoLoop_feeding a f t Hstart) as Hloop;
        destruct (videoLoop a f t j0) as [j1 [p|u]]]
  end.
  - unfold feeding, feeds; simpl. rewrite Hdone. split; [reflexivity|].
    rewrite !filter_app. simpl. rewrite !app_nil_r. fold (feeds j).
    rewrite Hfeeds. reflexivity.
  - subst r. simpl in *. apply feeding_prefix, Hloop.
  - simpl in Hloop. apply feeding_prefix in Hloop.
    unfold bind at 1 in Hr.
    match type of Hr with
    | context [match ?m j1 with _ => _ end] =>
        assert (Hfr : frames (fun j => filter isFeed (log j)) m);
        [|specialize (Hfr j1); destruct (m j1) as [j2 [p|u2]]]
    end.
    + destruct (audioFormat (tracksOf src)); [|intros ?; reflexivity].
      destruct (0 <=? audioTrackIndex (tracksOf src))%Z;
        [|intros ?; reflexivity].
      apply processAudioTrack_log; reflexivity.
    + subst r. simpl in *. unfold feeds in *. rewrite Hfr. exact Hloop.
    + subst r. simpl in *. unfold feeds in *. rewrite Hfr. exact Hloop.
Qed.

(** X16. The decoder is fed the samples of the video track in the order of
    the file: in every run of rotateVideo and cropVideo, the buffers queued
    to the decoder, in the order of the calls, are a prefix of the script
    "every sample of the selected video track once, in file order, with its
    size and time, then the end of the stream". So no sample of another
    track is queued, none is queued twice or out of order, and the end of the
    stream is queued at most once and only after the last sample. *)
Theorem decoder_fed_in_file_order (h : Host)
    (inputPath aspectRatio position : string) (angle : Z) :
  let script := scriptAt h (normalizedPath inputPath) in
  prefixOf (feeds (fst (rotateVideo h inputPath angle))) script
  /\ prefixOf (feeds (fst (cropVideo h inputPath aspectRatio position))) script.
Proof.
  intros script.
  assert (Hnone : forall l : list Event, prefixOf (@nil Event) l)
    by (intros l; exists l; reflexivity).
  split.
  - remember (rotateVideo h inputPath angle) as run eqn:Hr.
    unfold rotateVideo in Hr.
    unfold bind at 1, emit at 1, modify at 1 in Hr. unfold bind at 1 in Hr.
    destruct (fileExists h (normalizedPath inputPath));
      [|subst run; apply Hnone].
    unfold ret at 1 in Hr.
    match type of Hr with
    | context [processVideoWithGL ?a ?b ?c ?d ?e ?j0] =>
        pose proof (@processVideoWithGL_feeds a b c d e j0 eq_refl eq_refl)
          as Hout;
        destruct (processVideoWithGL a b c d e j0) as [j' [p|p]]
    end; subst run; exact Hout.
  - remember (cropVideo h inputPath aspectRatio position) as run eqn:Hr.
    unfold cropVideo in Hr.
    unfold bind at 1, emit at 1, modify at 1 in Hr. unfold bind at 1 in Hr.
    destruct (fileExists h (normalizedPath inputPath));
      [|subst run; apply Hnone].
    unfold ret at 1 in Hr.
    destruct (Text.splitKeep ":" aspectRatio) as [|p0 [|p1 [|p2 l]]];
      try (subst run; apply Hnone).
    destruct (toDoubleOrNull h p0) as [wr|], (toDoubleOrNull h p1) as [hr|];
      try (subst run; apply Hnone).
    unfold bind at 1, emit at 1, modify at 1 in Hr.
    destruct (dataSource h (normalizedPath inputPath)) as [src|] eqn:Hsrc;
      [|subst run; apply Hnone].
    destruct (firstVideoFormat src) as [vf|]; [|subst run; apply Hnone].
    match type of Hr with
    | context [processVideoWithGL ?a ?b ?c ?d ?e ?j0] =>
        pose proof (@processVideoWithGL_feeds a b c d e j0 eq_refl eq_refl)
          as Hout;
        destruct (processVideoWithGL a b c d e j0) as [j' [p|p]]
    end; subst run; exact Hout.
Qed.
End Feeding.

(** ** The JavaScript entry points, paths and aspect-ratio strings *)

Section EntryPoints.
Import JS Spec.
Local Open Scope string_scope.

Lemma validPath_checked (v : Value) :
  falsy v || notString v = false <-> validPath v.
Proof.
  unfold validPath. split.
  - destruct v as [| |t|q| |n|s|]; simpl; rewrite ?orb_true_r; try discriminate.
    rewrite orb_false_r. intros Hs. exists s. split; [reflexivity|].
    apply String.eqb_neq. exact Hs.
  - intros (s & -> & Hs). simpl. rewrite orb_false_r.
    apply String.eqb_neq. exact Hs.
Qed.

Lemma positionOf_truthy (position : Value) : falsy (positionOf position) = false.
Proof.
  unfold positionOf. destruct (falsy position) eqn:E; [reflexivity|exact E].
Qed.

(** X17. The three entry points guard the native module: whatever the
    arguments, a call of rotateVideo, cropVideo or cropAndRotateVideo either
    throws without any native call, or makes exactly one native call, whose
    path and aspect ratio are non-empty strings, whose position is not falsy
    ("center" when none was given) and whose angle is legal, and then ends as
    the native method ended, an error message prefixed with the name of the
    operation. *)
Theorem entry_points_guard_native_calls (VideoTransformer : NativeModule)
    (inputPath aspectRatio angle position : Value) :
  guarded (rotateVideo VideoTransformer inputPath angle)
    (CallRotateVideo inputPath angle) "Failed to rotate video: "
    (native_rotateVideo VideoTransformer inputPath angle)
  /\ guarded (cropVideo VideoTransformer inputPath aspectRatio position)
       (CallCropVideo inputPath aspectRatio (positionOf position))
       "Failed to crop video: "
       (native_cropVideo VideoTransformer inputPath aspectRatio
          (positionOf position))
  /\ guarded
       (cropAndRotateVideo VideoTransformer inputPath aspectRatio angle position)
       (CallCropAndRotateVideo inputPath aspectRatio (positionOf position) angle)
       "Failed to crop and rotate video: "
       (native_cropAndRotateVideo VideoTransformer inputPath aspectRatio
          (positionOf position) angle).
Proof.
  unfold guarded, rotateVideo, cropVideo, cropAndRotateVideo.
  pose proof (validPath_checked inputPath) as Hpath.
  pose proof (validPath_checked aspectRatio) as Hratio.
  pose proof (includes_legal angle) as Hangle.
  pose proof (positionOf_truthy position) as Hposition.
  destruct (falsy inputPath || notString inputPath);
    [repeat split; left; simpl; eauto|].
  destruct (falsy aspectRatio || notString aspectRatio),
    (includes validAngles angle); simpl;
    repeat match goal with |- _ /\ _ => split end;
    try (left; split; [reflexivity|eexists; reflexivity]);
    right; simpl; intuition.
Qed.

(** X18. The convenience wrappers cannot fail the checks on the angle and
    on the aspect ratio: for a valid path, rotateVideoClockwise,
    rotateVideoCounterClockwise and rotateVideo180 each make the one native
    call with a legal angle, and cropToSquare, cropToWidescreen, cropToStory
    and cropTo4x3 each make the one native call with an aspect ratio of two
    positive numbers. *)
Theorem convenience_wrappers_pass_checks (VideoTransformer : NativeModule)
    (inputPath position : Value) :
  validPath inputPath ->
  Forall (fun turn =>
            exists angle,
              fst (turn VideoTransformer inputPath)
              = [CallRotateVideo inputPath angle]
              /\ legalAngle angle)
         [rotateVideoClockwise; rotateVideoCounterClockwise; rotateVideo180]
  /\ Forall (fun preset =>
               exists ratio,
                 fst (preset VideoTransformer inputPath position)
                 = [CallCropVideo inputPath (Str ratio) (positionOf position)]
                 /\ twoPositiveNumbers ratio = true)
            [cropToSquare; cropToWidescreen; cropToStory; cropTo4x3].
Proof.
  intros Hpath. apply validPath_checked in Hpath.
  split; repeat constructor;
    unfold rotateVideoClockwise, rotateVideoCounterClockwise, rotateVideo180,
      cropToSquare, cropToWidescreen, cropToStory, cropTo4x3, rotateVideo,
      cropVideo;
    rewrite Hpath; simpl; eexists; (split; [reflexivity|]);
    try reflexivity;
    eexists; (split; [reflexivity|]); unfold Qeq; simpl; tauto.
Qed.

Lemma convenience_wrappers_pass_checks_witness :
  Forall (fun turn =>
            exists angle,
              fst (turn Samples.answering (Str "/video.mp4"))
              = [CallRotateVideo (Str "/video.mp4") angle]
              /\ legalAngle angle)
         [rotateVideoClockwise; rotateVideoCounterClockwise; rotateVideo180]
  /\ Forall (fun preset =>
               exists ratio,
                 fst (preset Samples.answering (Str "/video.mp4") Undefined)
                 = [CallCropVideo (Str "/video.mp4") (Str ratio)
                      (positionOf Undefined)]
                 /\ twoPositiveNumbers ratio = true)
            [cropToSquare; cropToWidescreen; cropToStory; cropTo4x3].
Proof.
  apply (@convenience_wrappers_pass_checks Samples.answering
           (Str "/video.mp4") Undefined).
  exists "/video.mp4". split; [reflexivity|discriminate].
Defined.
End EntryPoints.

Section Paths.
Local Open Scope string_scope.

Lemma substring_all (s : string) : String.substring 0 (String.length s) s = s.
Proof. induction s as [|ch s IH]; simpl; [reflexivity|]. rewrite IH. reflexivity. Qed.

Lemma normalizedPath_scheme (path : string) :
  Android.normalizedPath ("file://" ++ path) = path.
Proof.
  unfold Android.normalizedPath. simpl.
  destruct path as [|ch rest]; simpl; [reflexivity|].
  rewrite substring_all. reflexivity.
Qed.

(** X19. The two spellings of a path name the same file on both platforms.
    The URL that the iOS methods open always carries the scheme, and carries
    it once when it is added; the Android methods remove the scheme from
    the front of a path and leave a path without it alone; so a path and the
    same path with the scheme in front are normalized to the same file, and
    the normalized form of the URL of iOS is the normalized form of the
    path. *)
Theorem path_forms_agree (path : string) :
  String.prefix "file://" (IOS.fileURL path) = true
  /\ IOS.fileURL (IOS.fileURL path) = IOS.fileURL path
  /\ IOS.fileURL ("file://" ++ path) = "file://" ++ path
  /\ Android.normalizedPath ("file://" ++ path) = path
  /\ Android.normalizedPath (IOS.fileURL path) = Android.normalizedPath path.
Proof.
  assert (Hscheme : forall p, String.prefix "file://" ("file://" ++ p) = true).
  { intros p. simpl. destruct p; reflexivity. }
  assert (Hurl : String.prefix "file://" (IOS.fileURL path) = true).
  { unfold IOS.fileURL.
    destruct (String.prefix "file://" path) eqn:Hp; [exact Hp|apply Hscheme]. }
  split; [exact Hurl|]. split.
  { unfold IOS.fileURL at 1. rewrite Hurl. reflexivity. }
  split.
  { unfold IOS.fileURL. rewrite Hscheme. reflexivity. }
  split; [apply normalizedPath_scheme|].
  unfold IOS.fileURL.
  destruct (String.prefix "file://" path) eqn:Hp; [reflexivity|].
  rewrite normalizedPath_scheme. unfold Android.normalizedPath.
  rewrite Hp. reflexivity.
Qed.
End Paths.

Section RatioStrings.
Local Open Scope string_scope.

(** X20. With the same reading of numbers, and one that refuses the empty
    string, iOS takes every aspect ratio that Android takes, and reads the
    same two parts: a string that splits at ":" into exactly two parts that
    both read as numbers (the Android check, which keeps empty parts) also
    splits into these two parts when empty parts are omitted (the iOS
    check). *)
Theorem ios_takes_what_android_takes {N : Type} (number : string -> option N)
    (aspectRatio : string) :
  number EmptyString = None ->
  Spec.twoNumbers (Text.splitKeep ":") number aspectRatio ->
  Text.splitOmit ":" aspectRatio = Text.splitKeep ":" aspectRatio
  /\ Spec.twoNumbers (Text.splitOmit ":") number aspectRatio.
Proof.
  intros Hempty (part0 & part1 & wr & hr & Hsplit & H0 & H1).
  assert (Hsame : Text.splitOmit ":" aspectRatio = [part0; part1]).
  { unfold Text.splitOmit. rewrite Hsplit. simpl.
    destruct part0; [congruence|]. destruct part1; [congruence|]. reflexivity. }
  split; [congruence|].
  exists part0, part1, wr, hr. auto.
Qed.

Lemma ios_takes_what_android_takes_witness :
  Text.splitOmit ":" "16:9" = Text.splitKeep ":" "16:9"
  /\ Spec.twoNumbers (Text.splitOmit ":") Text.decimal "16:9".
Proof.
  apply (@ios_takes_what_android_takes Q Text.decimal "16:9").
  - reflexivity.
  - exists "16", "9", 16%Q, 9%Q. repeat split; reflexivity.
Defined.

(** The converse fails: a string that only iOS takes. *)
Example ios_takes_doubled_colon :
  Spec.twoNumbers (Text.splitOmit ":") Text.decimal "16::9"
  /\ ~ Spec.twoNumbers (Text.splitKeep ":") Text.decimal "16::9".
Proof.
  split.
  - exists "16", "9", 16%Q, 9%Q. repeat split; reflexivity.
  - intros (p0 & p1 & wr & hr & Hsplit & _). discriminate.
Qed.
End RatioStrings.

(** ** The crop matrix and the texture renderer *)

Section TextureCrop.
Import Android.
Local Open Scope Z_scope.

Lemma plus_small (u v : Z) :
  0 <= u -> 0 <= v -> u + v < 2 ^ 31 -> plus u v = u + v.
Proof. intros Hu Hv Hs. unfold plus. apply wrap32_small. lia. Qed.

Lemma cropMatrix_inside (W H : Z) (r : CropRect) :
  0 < W < 2 ^ 31 -> 0 < H < 2 ^ 31 ->
  0 <= x r -> 0 < width r -> x r + width r <= W ->
  0 <= y r -> 0 < height r -> y r + height r <= H ->
  let m := cropMatrix W H r in
  (scaleX m == inject_Z W / inject_Z (width r))%Q
  /\ (scaleY m == inject_Z H / inject_Z (height r))%Q
  /\ (translateX m == - (2 * inject_Z (x r)) / inject_Z (width r))%Q
  /\ (translateY m == - (2 * inject_Z (y r)) / inject_Z (height r))%Q.
Proof.
  intros HW HH Hx Hw Hxw Hy Hh Hyh.
  unfold cropMatrix, toFloat; simpl.
  rewrite !plus_small by lia. rewrite !inject_Z_plus.
  assert (HWq : (0 < inject_Z W)%Q) by (unfold Qlt; simpl; lia).
  assert (HHq : (0 < inject_Z H)%Q) by (unfold Qlt; simpl; lia).
  assert (Hwq : (0 < inject_Z (width r))%Q) by (unfold Qlt; simpl; lia).
  assert (Hhq : (0 < inject_Z (height r))%Q) by (unfold Qlt; simpl; lia).
  repeat split; field; repeat split; lra.
Qed.

(** X21. The crop matrix that processVideoWithGL builds for the texture
    coordinates, for a crop rectangle of calculateCropRect that is not empty
    (the target ratio is at most the frame width and at least 1/height). Its
    scale factors are frame width over crop width and frame height over crop
    height, so one of them is 1 and neither is below 1; its translation is
    minus twice the origin of the crop over the size of the crop; and for the
    anchor "center" the corners (0,0) and (1,1) of the texture square go to a
    point at or before (0,0) and to a point at or after (1,1). [Float]
    arithmetic is exact here. *)
Theorem cropMatrix_of_calculateCropRect (W H : Z) (target : Q)
    (position : string) :
  0 < W < 2 ^ 31 -> 0 < H < 2 ^ 31 ->
  (target <= inject_Z W)%Q -> (1 <= inject_Z H * target)%Q ->
  let r := calculateCropRect W H target position in
  let m := cropMatrix W H r in
  let centered := cropMatrix W H (calculateCropRect W H target "center") in
  (scaleX m == inject_Z W / inject_Z (width r))%Q
  /\ (scaleY m == inject_Z H / inject_Z (height r))%Q
  /\ (scaleX m == 1 \/ scaleY m == 1)%Q
  /\ (1 <= scaleX m /\ 1 <= scaleY m)%Q
  /\ (translateX m == - (2 * inject_Z (x r)) / inject_Z (width r))%Q
  /\ (translateY m == - (2 * inject_Z (y r)) / inject_Z (height r))%Q
  /\ (fst (applyCropMatrix centered (0, 0)) <= 0
      /\ snd (applyCropMatrix centered (0, 0)) <= 0
      /\ 1 <= fst (applyCropMatrix centered (1, 1))
      /\ 1 <= snd (applyCropMatrix centered (1, 1)))%Q.
Proof.
  intros HW HH Hmax Hmin.
  assert (HWq : (0 < inject_Z W)%Q) by (unfold Qlt; simpl; lia).
  assert (HHq : (0 < inject_Z H)%Q) by (unfold Qlt; simpl; lia).
  assert (Ht : (0 < target)%Q).
  { destruct (Qlt_le_dec 0 target) as [Hpos|Hneg]; [exact Hpos|].
    exfalso. assert ((inject_Z H * target <= 0)%Q) by nra. lra. }
  assert (Hgeneral : forall p,
    let r := calculateCropRect W H target p in
    0 <= x r /\ 0 < width r /\ x r + width r <= W
    /\ 0 <= y r /\ 0 < height r /\ y r + height r <= H
    /\ (width r = W \/ height r = H)).
  { intros p r.
    pose proof (calculateCropRect_inside p HW HH Ht) as (Ix & Ixw & Iy & Iyh).
    pose proof (calculateCropRect_positive p HW HH Ht Hmax Hmin) as [Pw Ph].
    destruct (calculateCropRect_size p HW HH Ht) as (_ & _ & Hside).
    fold r in Ix, Ixw, Iy, Iyh, Pw, Ph, Hside.
    repeat split; try assumption.
    destruct Hside as [(Hw & _)|(Hh & _)]; auto. }
  intros r m centered.
  destruct (Hgeneral position) as (Hx & Hw & Hxw & Hy & Hh & Hyh & Hside).
  fold r in Hx, Hw, Hxw, Hy, Hh, Hyh, Hside.
  destruct (@cropMatrix_inside W H r HW HH Hx Hw Hxw Hy Hh Hyh)
    as (Esx & Esy & Etx & Ety).
  fold m in Esx, Esy, Etx, Ety.
  assert (Hwq : (0 < inject_Z (width r))%Q) by (unfold Qlt; simpl; lia).
  assert (Hhq : (0 < inject_Z (height r))%Q) by (unfold Qlt; simpl; lia).
  assert (Hwle : (inject_Z (width r) <= inject_Z W)%Q)
    by (rewrite <- Zle_Qle; lia).
  assert (Hhle : (inject_Z (height r) <= inject_Z H)%Q)
    by (rewrite <- Zle_Qle; lia).
  split; [exact Esx|]. split; [exact Esy|]. split.
  { destruct Hside as [E|E]; [left; rewrite Esx, E|right; rewrite Esy, E];
      field; lra. }
  split.
  { rewrite Esx, Esy. split; apply Qle_shift_div_l; lra. }
  split; [exact Etx|]. split; [exact Ety|].
  (* the centered crop *)
  clear dependent m. clear dependent r.
  destruct (Hgeneral "center"%string) as (Hx & Hw & Hxw & Hy & Hh & Hyh & _).
  pose proof (calculateCropRect_origin W H target "center") as Ho.
  cbv zeta in Ho. simpl Text.lowercased in Ho. simpl String.eqb in Ho.
  set (r := calculateCropRect W H target "center") in *.
  destruct (@cropMatrix_inside W H r HW HH Hx Hw Hxw Hy Hh Hyh)
    as (Esx & Esy & Etx & Ety).
  fold centered in Esx, Esy, Etx, Ety.
  injection Ho as Hcx Hcy.
  rewrite !minus_small in Hcx, Hcy by lia.
  destruct (div_half_small (z := W - width r)) as [Ex Bx]; [lia|].
  destruct (div_half_small (z := H - height r)) as [Ey By]; [lia|].
  rewrite Ex in Hcx. rewrite Ey in Hcy.
  assert (H2x : 2 * x r <= W - width r).
  { rewrite Hcx. rewrite Z.quot_div_nonneg by lia.
    apply Z.mul_div_le. lia. }
  assert (H2y : 2 * y r <= H - height r).
  { rewrite Hcy. rewrite Z.quot_div_nonneg by lia.
    apply Z.mul_div_le. lia. }
  assert (Hwq : (0 < inject_Z (width r))%Q) by (unfold Qlt; simpl; lia).
  assert (Hhq : (0 < inject_Z (height r))%Q) by (unfold Qlt; simpl; lia).
  assert (Hxq : (0 <= inject_Z (x r))%Q) by (unfold Qle; simpl; lia).
  assert (Hyq : (0 <= inject_Z (y r))%Q) by (unfold Qle; simpl; lia).
  assert (Q2x : (2 * inject_Z (x r) <= inject_Z W - inject_Z (width r))%Q).
  { cbv [Qle Qmult Qminus Qplus Qopp inject_Z Qnum Qden]. lia. }
  assert (Q2y : (2 * inject_Z (y r) <= inject_Z H - inject_Z (height r))%Q).
  { cbv [Qle Qmult Qminus Qplus Qopp inject_Z Qnum Qden]. lia. }
  unfold applyCropMatrix. cbn [fst snd].
  rewrite Esx, Esy, Etx, Ety.
  set (qx := inject_Z (x r)) in *. set (qy := inject_Z (y r)) in *.
  set (qw := inject_Z (width r)) in *. set (qh := inject_Z (height r)) in *.
  set (qW := inject_Z W) in *. set (qH := inject_Z H) in *.
  assert (E1 : (qW / qw * 0 + - (2 * qx) / qw == - (2 * qx) / qw)%Q)
    by (field; lra).
  assert (E2 : (qH / qh * 0 + - (2 * qy) / qh == - (2 * qy) / qh)%Q)
    by (field; lra).
  assert (E3 : (qW / qw * 1 + - (2 * qx) / qw == (qW - 2 * qx) / qw)%Q)
    by (field; lra).
  assert (E4 : (qH / qh * 1 + - (2 * qy) / qh == (qH - 2 * qy) / qh)%Q)
    by (field; lra).
  rewrite E1, E2, E3, E4.
  split; [apply Qle_shift_div_r; lra|].
  split; [apply Qle_shift_div_r; lra|].
  split; apply Qle_shift_div_l; lra.
Qed.

(** A square crop at the center of a 1920x1080 frame. *)
Lemma cropMatrix_of_calculateCropRect_witness :
  let r := calculateCropRect 1920 1080 1 "center" in
  (scaleX (cropMatrix 1920 1080 r) == inject_Z 1920 / inject_Z (width r))%Q.
Proof.
  destruct (@cropMatrix_of_calculateCropRect 1920 1080 1 "center")
    as [Hscale _]; [lia|lia|discriminate|discriminate|exact Hscale].
Defined.
End TextureCrop.

Section RendererLifecycle.
Import GLES Spec.
Local Open Scope string_scope.
Local Open Scope list_scope.
Local Open Scope Z_scope.

Ltac run_in H :=
  repeat (match type of H with
          | context [if ?c then _ else _] => destruct c eqn:?
          end; cbn in H).

(** X22. The texture renderer gives back what it takes. After
    [surfaceCreated] on a fresh renderer, however it ends (normally or with
    an exception), and a following [release]: every texture that was
    generated has been deleted, once; every program that was created has been
    deleted, once (by [createProgram] itself when the link fails, by
    [release] otherwise), provided OpenGL reported no error between the
    creation of the program and its link; a shader is deleted only when it
    did not compile; the fields are back to "no program, no texture"; and a
    second [release] does nothing. *)
Theorem texture_renderer_lifecycle (h : Host) :
  genTextures h <> -1 ->
  glGetError h "glCreateProgram" = GL_NO_ERROR ->
  glGetError h "glAttachShader vertexShader" = GL_NO_ERROR ->
  glGetError h "glAttachShader fragmentShader" = GL_NO_ERROR ->
  let released := fst (release (fst (surfaceCreated h fresh))) in
  texturesDeleted (calls released) = texturesCreated (calls released)
  /\ programsDeleted (calls released) = programsCreated (calls released)
  /\ Forall (fun s => compileStatus h s = 0) (shadersDeleted (calls released))
  /\ program released = 0 /\ textureID released = -1
  /\ fst (release released) = released.
Proof.
  intros Htexture Hcreate Hvertex Hfragment released.
  assert (Hr : released = fst (release (fst (surfaceCreated h fresh))))
    by reflexivity.
  clearbody released.
  destruct (surfaceCreated h fresh) as [used out] eqn:Hrun.
  unfold surfaceCreated, createProgram, loadShader, checkGlError in Hrun.
  rewrite Hcreate, Hvertex, Hfragment in Hrun.
  unfold bind, call, setProgram, setTextureID, setMvpMatrixHandle,
    setStMatrixHandle, setPositionHandle, setTextureHandle, modify, gets,
    throw, ret in Hrun.
  cbn in Hrun.
  run_in Hrun.
  all: injection Hrun as <- <-.
  all: unfold release, bind, call, setProgram, setTextureID, modify, gets, ret
         in Hr; cbn in Hr.
  all: assert (Hname : (genTextures h =? -1) = false)
         by (apply Z.eqb_neq; exact Htexture).
  all: repeat match goal with
              | H : (_ =? _) = _ |- _ => rewrite H in Hr
              end; cbn in Hr; subst released;
       unfold programsCreated, programsDeleted, texturesCreated,
         texturesDeleted, shadersDeleted; cbn;
       repeat (match goal with
               | H : (_ =? _) = _ |- _ => rewrite H
               end; cbn).
  all: repeat match goal with |- _ /\ _ => split end; try reflexivity.
  all: try (repeat constructor; apply Z.eqb_eq; assumption).
  all: unfold release, bind, call, setProgram, setTextureID, modify, gets, ret;
       cbn; reflexivity.
Qed.

Lemma texture_renderer_lifecycle_witness :
  let released := fst (release (fst (surfaceCreated Samples.glHost fresh))) in
  texturesDeleted (calls released) = texturesCreated (calls released)
  /\ programsDeleted (calls released) = programsCreated (calls released)
  /\ Forall (fun s => compileStatus Samples.glHost s = 0)
            (shadersDeleted (calls released))
  /\ program released = 0 /\ textureID released = -1
  /\ fst (release released) = released.
Proof.
  apply (@texture_renderer_lifecycle Samples.glHost);
    [discriminate|reflexivity|reflexivity|reflexivity].
Defined.

(** An error reported when the vertex shader is attached: the program that
    was created is never deleted. *)
Example attach_error_leaks_program :
  let h := Samples.glHostWithError "glAttachShader vertexShader" in
  let released := fst (release (fst (surfaceCreated h fresh))) in
  programsCreated (calls released) = [3] /\ programsDeleted (calls released) = [].
Proof. split; reflexivity. Qed.
End RendererLifecycle.
